(** * DupuitLEM: the hydrological event-integration engine

    A shallow embedding of [DupuitLEM/auxiliary_models/hydrological_models.py].

    Numbers.  The program computes with Python and numpy floats.  They are
    modelled by exact rationals [Q]: there is no rounding, no infinity and no
    NaN, and equality of results is [Qeq] ([==]).  The literals [0.5] and
    [1e-15] are the rationals [1/2] and [1/10^15].  Two things follow.
    A quotient by zero is 0 in [Q], whereas numpy gives [inf] or [nan] and
    Python's own float division raises [ZeroDivisionError]: the step
    operations raise where Python does ([float_division_by]), and a
    statement about a numpy quotient carries the hypothesis that its
    divisor is not zero.  And a statement is made of the model only where
    rounding leaves it true of the program; [Module Binary64] has the
    aggregator and the critical discharge over binary64 floats, by the same
    operations in the same order, and shows where the two part.

    Arrays.  A one-dimensional numpy array of per-node values is a [list Q];
    a boolean mask is a [list bool].  An element-wise operation on arrays of
    different lengths raises in numpy; the model returns [None] (pure
    functions) or raises [ShapeError] (step operations) there.  All arrays
    of a step are node fields of one grid, so numpy's broadcasting of
    arrays of length one plays no part. *)

From Stdlib Require Import QArith Qminmax Qabs Lqa Lia List Bool Arith ZArith.
Import ListNotations.
Local Open Scope Q_scope.

(** ** Scalars *)

Definition half : Q := 1 # 2.

(** [a > b] on floats. *)
Definition Qgtb (a b : Q) : bool := negb (Qle_bool a b).

(** [a < b] on floats. *)
Definition Qltb (a b : Q) : bool := Qgtb b a.

(** ** Arrays *)

(** [np.zeros_like(a)] *)
Definition zeros_like {A : Type} (a : list A) : list Q := repeat 0 (length a).

(** Element-wise binary operation on two arrays of one length. *)
Fixpoint map2 {A B C : Type} (f : A -> B -> C) (xs : list A) (ys : list B)
  : list C :=
  match xs, ys with
  | x :: xs', y :: ys' => f x y :: map2 f xs' ys'
  | _, _ => []
  end.

(** [np.logical_and(a > t, b > t)] and its siblings are built from the two
    comparisons below and [map2 andb]. *)
Definition gt_scalar (a : list Q) (t : Q) : list bool :=
  map (fun x => Qgtb x t) a.

Definition lt_scalar (a : list Q) (t : Q) : list bool :=
  map (fun x => Qltb x t) a.

Definition logical_and (c d : list bool) : list bool := map2 andb c d.

(** [a[c] = v[c]]: where the mask holds the entry of [a] is overwritten by the
    entry of [v] at the same position, elsewhere [a] is kept.  The right-hand
    sides of the program are element-wise expressions of arrays indexed by
    the same mask, so they are given here as the full array [v]. *)
Fixpoint assign_where (c : list bool) (v a : list Q) : list Q :=
  match c, v, a with
  | b :: c', x :: v', y :: a' =>
      (if b then x else y) :: assign_where c' v' a'
  | _, _, _ => []
  end.

(** ** The temporal aggregator

    [HydrologyIntegrateShearStress.calc_storm_eff_shear_stress]. *)

(** One sub-interval: [tauint = np.zeros_like(tau0)] followed by the three
    masked assignments, from the endpoint arrays [ta] (start) and [te] (end)
    over the duration [dt].  [shape] is the array whose shape the zeros take
    ([tau0] for both sub-intervals). *)
Definition tauint (shape ta te : list Q) (tauc dt : Q) : list Q :=
  let tauint0 := zeros_like shape in
  let c1 := logical_and (gt_scalar ta tauc) (gt_scalar te tauc) in
  let c2 := logical_and (lt_scalar ta tauc) (gt_scalar te tauc) in
  let c3 := logical_and (gt_scalar ta tauc) (lt_scalar te tauc) in
  (* c4 = both below: implied *)
  let t1 :=
    assign_where c1
      (map2 (fun a e => half * dt * (a + e - 2 * tauc)) ta te) tauint0 in
  let t2 :=
    assign_where c2
      (map2 (fun a e => half * dt * (e - tauc) * ((e - tauc) / (e - a))) ta te)
      t1 in
  assign_where c3
    (map2 (fun a e => half * dt * (a - tauc) * ((a - tauc) / (a - e))) ta te)
    t2.

Definition same_length3 {A : Type} (a b c : list A) : bool :=
  (length a =? length b)%nat && (length b =? length c)%nat.

Definition calc_storm_eff_shear_stress
  (tau0 tau1 tau2 : list Q) (tauc tr tb : Q) : option (list Q) :=
  if same_length3 tau0 tau1 tau2 then
    let tauint1 := tauint tau0 tau0 tau1 tauc tr in
    let tauint2 := tauint tau0 tau1 tau2 tauc tb in
    let taueff :=
      map2 (fun i1 i2 => (i1 + i2) / (tr + tb) + tauc) tauint1 tauint2 in
    Some taueff
  else None.


(** *** A per-node reading of the vectorised code *)

(** What the three masked assignments leave at one node whose endpoint values
    are [a] (start) and [e] (end): the last mask that holds decides. *)
Definition node_tauint (a e tauc dt : Q) : Q :=
  let c1 := Qgtb a tauc && Qgtb e tauc in
  let c2 := Qltb a tauc && Qgtb e tauc in
  let c3 := Qgtb a tauc && Qltb e tauc in
  let t1 := if c1 then half * dt * (a + e - 2 * tauc) else 0 in
  let t2 :=
    if c2 then half * dt * (e - tauc) * ((e - tauc) / (e - a)) else t1 in
  if c3 then half * dt * (a - tauc) * ((a - tauc) / (a - e)) else t2.

Definition node_taueff (t0 t1 t2 tauc tr tb : Q) : Q :=
  (node_tauint t0 t1 tauc tr + node_tauint t1 t2 tauc tb) / (tr + tb) + tauc.

(** ** numpy idioms of the step operations *)

(** An element-wise binary operation of two arrays; [None] stands for the
    exception numpy raises when the shapes differ. *)
Definition map2_chk {A B C : Type} (f : A -> B -> C) (xs : list A)
  (ys : list B) : option (list C) :=
  if (length xs =? length ys)%nat then Some (map2 f xs ys) else None.

(** [np.divide(num, den, where=mask, out=out)]: the quotient where the mask
    holds, the entry of [out] elsewhere. *)
Definition divide_where (num den : list Q) (mask : list bool) (out : list Q)
  : option (list Q) :=
  if ((length num =? length out) && (length den =? length out)
      && (length mask =? length out))%nat
  then Some (assign_where mask (map2 Qdiv num den) out)
  else None.

(** [np.divide(q, np.sqrt(area), where=area > 0, out=np.zeros_like(q))] *)
Definition area_norm (sqrt : Q -> Q) (q area : list Q) : option (list Q) :=
  divide_where q (map sqrt area) (gt_scalar area 0) (zeros_like q).

(** [np.divide(E0 * np.sqrt(area), Ksp * S, where=S > 0.0,
               out=np.zeros_like(S))].  Where [S > 0] the divisor is zero
    only when [Ksp] is; numpy then gives [inf] or [nan] where this
    quotient is 0 (see [Binary64.critical_discharge]). *)
Definition critical_discharge (sqrt : Q -> Q) (E0 Ksp : Q) (area S : list Q)
  : option (list Q) :=
  divide_where (map (fun a => E0 * sqrt a) area) (map (fun s => Ksp * s) S)
    (gt_scalar S 0) (zeros_like S).

(** [np.maximum(q - Q0, 0.0)] *)
Definition excess_discharge (q Q0 : list Q) : option (list Q) :=
  map2_chk (fun x x0 => Qmax (x - x0) 0) q Q0.

(** [q[q > qmax] = qmax[q > qmax]] *)
Definition clip_discharge (q qmax : list Q) : option (list Q) :=
  if (length q =? length qmax)%nat
  then Some (assign_where (map2 Qgtb q qmax) qmax q)
  else None.

(** [0.5 * (q0 + q1) * storm_dt] *)
Definition event_volume (q0 q1 : list Q) (storm_dt : Q) : option (list Q) :=
  map2_chk (fun x0 x1 => half * (x0 + x1) * storm_dt) q0 q1.

(** [acc += v] on arrays *)
Definition iadd (acc v : list Q) : option (list Q) :=
  map2_chk Qplus acc v.

(** Python indexing [l[i]] with an integer: a negative index counts from the
    end, an index out of range raises. *)
Definition py_index {A : Type} (l : list A) (i : Z) : option A :=
  let n := Z.of_nat (length l) in
  if (0 <=? i)%Z then nth_error l (Z.to_nat i)
  else if (- n <=? i)%Z then nth_error l (Z.to_nat (n + i))
  else None.

(** [l[idx]] with an integer index array. *)
Fixpoint gather {A : Type} (l : list A) (idx : list Z) : option (list A) :=
  match idx with
  | [] => Some []
  | i :: idx' =>
      match py_index l i, gather l idx' with
      | Some x, Some xs => Some (x :: xs)
      | _, _ => None
      end
  end.

Fixpoint set_nth {A : Type} (l : list A) (n : nat) (x : A) : list A :=
  match l, n with
  | [], _ => []
  | _ :: l', O => x :: l'
  | y :: l', S n' => y :: set_nth l' n' x
  end.

Definition py_set_index {A : Type} (l : list A) (i : Z) (x : A)
  : option (list A) :=
  let n := Z.of_nat (length l) in
  if ((0 <=? i) && (i <? n))%Z then Some (set_nth l (Z.to_nat i) x)
  else if ((- n <=? i) && (i <? 0))%Z then Some (set_nth l (Z.to_nat (n + i)) x)
  else None.

(** [l[idx] = v] with an integer index array and an array of values. *)
Fixpoint scatter {A : Type} (l : list A) (idx : list Z) (v : list A)
  : option (list A) :=
  match idx, v with
  | [], [] => Some l
  | i :: idx', x :: v' =>
      match py_set_index l i x with
      | Some l' => scatter l' idx' v'
      | None => None
      end
  | _, _ => None
  end.

(** [1e-15], the floor of the interevent duration. *)
Definition eps : Q := 1 # 1000000000000000.

(** * The step operations

    ** Forcing, exceptions and the calls that are traced *)

(** One event/interevent pair of the forcing sequence: the durations yielded
    by [pd.yield_storms()] and the [rainfall__flux] read with them.  The
    program keeps three parallel lists that [generate_exp_precip] fills in
    lockstep; the model keeps one list of triples. *)
Record storm : Type := mk_storm {
  storm_dt : Q;
  interstorm_dt : Q;
  intensity : Q
}.

(** The value assigned to [gdp.recharge]: a scalar or a node array. *)
Inductive recharge_val : Type :=
| RScalar (x : Q)
| RArray (a : list Q).

Inductive exn : Type :=
| SolverError      (* raised inside a groundwater or flow-routing solver call *)
| ShapeError       (* numpy: operands or mask of different shapes *)
| IndexError       (* numpy: index out of range *)
| AttributeError   (* an attribute the object does not have *)
| ZeroDivisionError.  (* division of a Python float by zero *)

(** The sub-period a groundwater advance belongs to, after the comments
    "run event" and "run interevent" of the loop bodies. *)
Inductive period : Type := Event | Interevent | Steady.

(** Calls to the flow-routing and groundwater components, in the order the
    step operation makes them. *)
Inductive call : Type :=
| find_pits_call                                  (* dfr._find_pits() *)
| lmb_run_one_step_call                           (* lmb.run_one_step() *)
| fd_run_one_step_call                            (* fd.run_one_step() *)
| fa_run_one_step_call                            (* fa.run_one_step() *)
| accumulate_flow_call (update_flow_director : bool)
| gw_advance_call (p : period) (dt : Q).
    (* gdp.run_with_adaptive_time_step_solver(dt) *)

(** ** The state a step operation works on

    The attributes of the model object and the grid fields it writes.  [W] is
    the rest of the world: topography, water table, the components' own
    state. *)
Record model (W : Type) : Type := mk_model {
  world : W;   (* the grid and the components, as far as the collaborators own them *)
  log : list call;   (* calls made to the routing and groundwater components, oldest first *)
  gdp_recharge : recharge_val;   (* [gdp.recharge] *)
  drainage_area : list Q;   (* grid field [drainage_area] ([self.area]) *)
  surface_water__discharge : list Q;   (* grid field [surface_water__discharge] *)
  tau : list Q;   (* grid field [surface_water__shear_stress] ([self._tau]) *)
  dzdt : option (list Q);   (* [self.dzdt]; [None] until a step creates it *)
  q_eff : list Q;   (* grid field [surface_water_effective__discharge] *)
  q_an : list Q;   (* grid field [surface_water_area_norm__discharge] *)
  Q0 : list Q;   (* grid field [critical_erosion__discharge] *)
  r : list Q;   (* grid field [recharge_rate] *)
  forcing : option (list storm);   (* [storm_dts], [interstorm_dts], [intensities]; [None] until generated *)
  max_substeps_storm : nat;   (* [self.max_substeps_storm] *)
  max_substeps_interstorm : nat;   (* [self.max_substeps_interstorm] *)
  number_substeps : nat   (* [self.number_substeps] *)
}.

Arguments world {W} _.
Arguments log {W} _.
Arguments gdp_recharge {W} _.
Arguments drainage_area {W} _.
Arguments surface_water__discharge {W} _.
Arguments tau {W} _.
Arguments dzdt {W} _.
Arguments q_eff {W} _.
Arguments q_an {W} _.
Arguments Q0 {W} _.
Arguments r {W} _.
Arguments forcing {W} _.
Arguments max_substeps_storm {W} _.
Arguments max_substeps_interstorm {W} _.
Arguments number_substeps {W} _.
Arguments mk_model {W}.

Section Update.
Context {W : Type}.

Definition set_world (x : W) (s : model W) : model W :=
  mk_model x (log s) (gdp_recharge s) (drainage_area s) (surface_water__discharge s) (tau s) (dzdt s) (q_eff s) (q_an s) (Q0 s) (r s) (forcing s) (max_substeps_storm s) (max_substeps_interstorm s) (number_substeps s).

Definition set_log (x : list call) (s : model W) : model W :=
  mk_model (world s) x (gdp_recharge s) (drainage_area s) (surface_water__discharge s) (tau s) (dzdt s) (q_eff s) (q_an s) (Q0 s) (r s) (forcing s) (max_substeps_storm s) (max_substeps_interstorm s) (number_substeps s).

Definition set_gdp_recharge (x : recharge_val) (s : model W) : model W :=
  mk_model (world s) (log s) x (drainage_area s) (surface_water__discharge s) (tau s) (dzdt s) (q_eff s) (q_an s) (Q0 s) (r s) (forcing s) (max_substeps_storm s) (max_substeps_interstorm s) (number_substeps s).

Definition set_drainage_area (x : list Q) (s : model W) : model W :=
  mk_model (world s) (log s) (gdp_recharge s) x (surface_water__discharge s) (tau s) (dzdt s) (q_eff s) (q_an s) (Q0 s) (r s) (forcing s) (max_substeps_storm s) (max_substeps_interstorm s) (number_substeps s).

Definition set_surface_water__discharge (x : list Q) (s : model W) : model W :=
  mk_model (world s) (log s) (gdp_recharge s) (drainage_area s) x (tau s) (dzdt s) (q_eff s) (q_an s) (Q0 s) (r s) (forcing s) (max_substeps_storm s) (max_substeps_interstorm s) (number_substeps s).

Definition set_tau (x : list Q) (s : model W) : model W :=
  mk_model (world s) (log s) (gdp_recharge s) (drainage_area s) (surface_water__discharge s) x (dzdt s) (q_eff s) (q_an s) (Q0 s) (r s) (forcing s) (max_substeps_storm s) (max_substeps_interstorm s) (number_substeps s).

Definition set_dzdt (x : option (list Q)) (s : model W) : model W :=
  mk_model (world s) (log s) (gdp_recharge s) (drainage_area s) (surface_water__discharge s) (tau s) x (q_eff s) (q_an s) (Q0 s) (r s) (forcing s) (max_substeps_storm s) (max_substeps_interstorm s) (number_substeps s).

Definition set_q_eff (x : list Q) (s : model W) : model W :=
  mk_model (world s) (log s) (gdp_recharge s) (drainage_area s) (surface_water__discharge s) (tau s) (dzdt s) x (q_an s) (Q0 s) (r s) (forcing s) (max_substeps_storm s) (max_substeps_interstorm s) (number_substeps s).

Definition set_q_an (x : list Q) (s : model W) : model W :=
  mk_model (world s) (log s) (gdp_recharge s) (drainage_area s) (surface_water__discharge s) (tau s) (dzdt s) (q_eff s) x (Q0 s) (r s) (forcing s) (max_substeps_storm s) (max_substeps_interstorm s) (number_substeps s).

Definition set_Q0 (x : list Q) (s : model W) : model W :=
  mk_model (world s) (log s) (gdp_recharge s) (drainage_area s) (surface_water__discharge s) (tau s) (dzdt s) (q_eff s) (q_an s) x (r s) (forcing s) (max_substeps_storm s) (max_substeps_interstorm s) (number_substeps s).

Definition set_r (x : list Q) (s : model W) : model W :=
  mk_model (world s) (log s) (gdp_recharge s) (drainage_area s) (surface_water__discharge s) (tau s) (dzdt s) (q_eff s) (q_an s) (Q0 s) x (forcing s) (max_substeps_storm s) (max_substeps_interstorm s) (number_substeps s).

Definition set_forcing (x : option (list storm)) (s : model W) : model W :=
  mk_model (world s) (log s) (gdp_recharge s) (drainage_area s) (surface_water__discharge s) (tau s) (dzdt s) (q_eff s) (q_an s) (Q0 s) (r s) x (max_substeps_storm s) (max_substeps_interstorm s) (number_substeps s).

Definition set_max_substeps_storm (x : nat) (s : model W) : model W :=
  mk_model (world s) (log s) (gdp_recharge s) (drainage_area s) (surface_water__discharge s) (tau s) (dzdt s) (q_eff s) (q_an s) (Q0 s) (r s) (forcing s) x (max_substeps_interstorm s) (number_substeps s).

Definition set_max_substeps_interstorm (x : nat) (s : model W) : model W :=
  mk_model (world s) (log s) (gdp_recharge s) (drainage_area s) (surface_water__discharge s) (tau s) (dzdt s) (q_eff s) (q_an s) (Q0 s) (r s) (forcing s) (max_substeps_storm s) x (number_substeps s).

Definition set_number_substeps (x : nat) (s : model W) : model W :=
  mk_model (world s) (log s) (gdp_recharge s) (drainage_area s) (surface_water__discharge s) (tau s) (dzdt s) (q_eff s) (q_an s) (Q0 s) (r s) (forcing s) (max_substeps_storm s) (max_substeps_interstorm s) x.

End Update.

(** Attributes fixed when the object is constructed. *)
Record params : Type := mk_params {
  T_h : Q;       (* total hydrological time, [pd._run_time] *)
  tauc : Q;      (* shear stress threshold *)
  E0 : Q;        (* streampower incision threshold, [sp_threshold] *)
  Ksp : Q;       (* streampower coefficient, [sp_coefficient] *)
  has_wt_base_elev : bool
    (* whether the object has [_wt], [_base] and [_elev];
       [HydrologyEventShearStress.__init__] does not create them *)
}.

(** ** The collaborators

    landlab's components and grid and the two shear stress functions are not
    part of the repository: their behaviour is a parameter.  A solver call
    returns [None] when it raises. *)
Class Collaborators (W : Type) : Type := {
  (* DepressionFinderAndRouter *)
  dfr_find_pits : W -> W;
  dfr_number_of_pits : W -> nat;
  (* LakeMapperBarnes *)
  lmb_run_one_step : W -> W;
  (* FlowDirectorD8 or FlowDirectorSteepest *)
  fd_run_one_step : W -> W;
  (* FlowAccumulator: the new world, drainage area and discharge *)
  fa_accumulate_flow : bool -> W -> option (W * (list Q * list Q));
  fa_run_one_step : W -> option (W * (list Q * list Q));
  (* GroundwaterDupuitPercolator *)
  gdp_run_with_adaptive_time_step_solver :
    recharge_val -> Q -> W -> option W;
  gdp_number_of_substeps : W -> nat;
  (* shear_stress_function(grid): reads topography, area and discharge *)
  calc_shear_stress : W -> list Q -> list Q -> list Q;
  (* erosion_rate_function(grid): reads topography and shear stress *)
  calc_erosion_from_shear_stress : W -> list Q -> list Q;
  (* grid *)
  calc_grad : W -> list Q;
  flow__link_to_receiver_node : W -> list Z;
  core_nodes : W -> list Z;
  topographic__elevation : W -> list Q;
  water_table__elevation : W -> list Q;
  (* vadose model *)
  svm_run_event : Q -> W -> W;
  svm_run_interevent : Q -> W -> W;
  svm_depths : W -> list Q;
  svm_recharge_at_depth : W -> list Q;
  (* numpy *)
  np_sqrt : Q -> Q;
  np_digitize_right : list Q -> list Q -> list Z
}.

(** ** A state and exception monad

    A Python exception leaves the object as it was mutated so far: the state
    is returned with the exception. *)
Definition M (W A : Type) : Type := model W -> (exn + A) * model W.

Definition ret {W A : Type} (a : A) : M W A := fun s => (inr a, s).

Definition bind {W A B : Type} (m : M W A) (f : A -> M W B) : M W B :=
  fun s =>
    match m s with
    | (inr a, s') => f a s'
    | (inl e, s') => (inl e, s')
    end.

Declare Scope step_scope.
Delimit Scope step_scope with step.
Notation "x <- c1 ;; c2" := (bind c1 (fun x => c2))
  (at level 61, c1 at next level, right associativity) : step_scope.
Notation "' pat <- c1 ;; c2" :=
  (bind c1 (fun x => match x with pat => c2 end))
  (at level 61, pat pattern, c1 at next level, right associativity)
  : step_scope.
Notation "c1 ;; c2" := (bind c1 (fun _ => c2))
  (at level 61, right associativity) : step_scope.
Local Open Scope step_scope.

Definition raise {W A : Type} (e : exn) : M W A := fun s => (inl e, s).
Definition get {W : Type} : M W (model W) := fun s => (inr s, s).
Definition modify {W : Type} (f : model W -> model W) : M W unit :=
  fun s => (inr tt, f s).

(** An operation numpy can refuse. *)
Definition lift_opt {W A : Type} (e : exn) (o : option A) : M W A :=
  match o with
  | Some a => ret a
  | None => raise e
  end.

(** [for x in xs: acc = body(acc, x)] *)
Fixpoint for_each {W A B : Type} (body : B -> A -> M W B) (xs : list A)
  (acc : B) : M W B :=
  match xs with
  | [] => ret acc
  | x :: xs' => acc' <- body acc x ;; for_each body xs' acc'
  end.

(** [x / d] on Python floats raises when [d] is zero; on numpy arrays it
    does not. *)
Definition float_division_by {W : Type} (d : Q) : M W unit :=
  if Qeq_bool d 0 then raise ZeroDivisionError else ret tt.

(** [a[:] = v]: the target keeps its shape. *)
Definition assign_slice {W : Type} (a v : list Q) : M W (list Q) :=
  if (length a =? length v)%nat then ret v else raise ShapeError.

(** ** Calls to the components *)

Section Components.
Context {W : Type} `{Collaborators W}.

Definition emit (c : call) : M W unit :=
  modify (fun s => set_log (log s ++ [c]) s).

(** [self.dfr._find_pits()] *)
Definition find_pits : M W unit :=
  emit find_pits_call ;;
  modify (fun s => set_world (dfr_find_pits (world s)) s).

(** [self.dfr._number_of_pits] *)
Definition number_of_pits : M W nat :=
  s <- get ;; ret (dfr_number_of_pits (world s)).

(** [self.lmb.run_one_step()] *)
Definition lmb_run : M W unit :=
  emit lmb_run_one_step_call ;;
  modify (fun s => set_world (lmb_run_one_step (world s)) s).

(** "find and route flow if there are pits" *)
Definition find_and_route_pits : M W unit :=
  find_pits ;;
  n <- number_of_pits ;;
  if (0 <? n)%nat then lmb_run else ret tt.

(** [self.fd.run_one_step()]: "update flow directions" *)
Definition fd_run : M W unit :=
  emit fd_run_one_step_call ;;
  modify (fun s => set_world (fd_run_one_step (world s)) s).

(** [self.gdp.recharge = v] *)
Definition set_recharge (v : recharge_val) : M W unit :=
  modify (set_gdp_recharge v).

(** [self.gdp.run_with_adaptive_time_step_solver(dt)] *)
Definition run_with_adaptive_time_step_solver (p : period) (dt : Q)
  : M W unit :=
  emit (gw_advance_call p dt) ;;
  s <- get ;;
  match gdp_run_with_adaptive_time_step_solver (gdp_recharge s) dt (world s)
  with
  | Some w => modify (set_world w)
  | None => raise SolverError
  end.

(** [self.gdp.number_of_substeps] *)
Definition number_of_substeps : M W nat :=
  s <- get ;; ret (gdp_number_of_substeps (world s)).

(** The accumulator writes the grid fields [drainage_area] and
    [surface_water__discharge] and returns them. *)
Definition store_accumulation (res : option (W * (list Q * list Q)))
  : M W (list Q * list Q) :=
  match res with
  | Some (w, (a, q)) =>
      modify (fun s =>
        set_world w (set_drainage_area a (set_surface_water__discharge q s))) ;;
      ret (a, q)
  | None => raise SolverError
  end.

(** [self.fa.accumulate_flow(update_flow_director=b)] *)
Definition accumulate_flow (update_flow_director : bool)
  : M W (list Q * list Q) :=
  emit (accumulate_flow_call update_flow_director) ;;
  s <- get ;;
  store_accumulation (fa_accumulate_flow update_flow_director (world s)).

(** [self.fa.run_one_step()] *)
Definition fa_run : M W (list Q * list Q) :=
  emit fa_run_one_step_call ;;
  s <- get ;;
  store_accumulation (fa_run_one_step (world s)).

(** [self.calc_shear_stress(self._grid)] *)
Definition shear_stress : M W (list Q) :=
  s <- get ;;
  ret (calc_shear_stress (world s) (drainage_area s)
         (surface_water__discharge s)).

(** [self.calc_erosion_from_shear_stress(self._grid)] *)
Definition erosion_from_shear_stress : M W (list Q) :=
  s <- get ;; ret (calc_erosion_from_shear_stress (world s) (tau s)).

(** [self._tau[:] = v] *)
Definition assign_tau (v : list Q) : M W unit :=
  s <- get ;; t <- assign_slice (tau s) v ;; modify (set_tau t).

(** [self.dzdt += f(self.dzdt, x)] element-wise, in place. *)
Definition iadd_dzdt (f : Q -> Q) (x : list Q) : M W unit :=
  s <- get ;;
  match dzdt s with
  | Some d =>
      d' <- lift_opt ShapeError (map2_chk (fun di xi => di + f xi) d x) ;;
      modify (set_dzdt (Some d'))
  | None => raise AttributeError
  end.

(** [generate_exp_precip]: the storms yielded by the generator are stored
    in [storm_dts], [interstorm_dts] and [intensities]. *)
Definition generate_exp_precip (storms : list storm) : M W unit :=
  modify (set_forcing (Some storms)).

(** Reading [self.storm_dts] and its siblings. *)
Definition stored_forcing : M W (list storm) :=
  s <- get ;;
  match forcing s with
  | Some f => ret f
  | None => raise AttributeError
  end.

(** [self.max_substeps_storm = max(self.max_substeps_storm,
                                   self.gdp.number_of_substeps)] *)
Definition update_max_substeps_storm : M W unit :=
  n <- number_of_substeps ;;
  modify (fun s => set_max_substeps_storm (Nat.max (max_substeps_storm s) n) s).

Definition update_max_substeps_interstorm : M W unit :=
  n <- number_of_substeps ;;
  modify (fun s =>
    set_max_substeps_interstorm (Nat.max (max_substeps_interstorm s) n) s).

Definition reset_max_substeps : M W unit :=
  modify (set_max_substeps_storm 0%nat) ;;
  modify (set_max_substeps_interstorm 0%nat).

End Components.

(** ** [class HydrologyIntegrateShearStress] *)

Module HydrologyIntegrateShearStress.
Section Class.
Context {W : Type} `{Collaborators W} (P : params).

(** The body of the loop of [run_step]; [tau2] is carried from one
    iteration to the next. *)
Definition event_body (tau2 : list Q) (st : storm) : M W (list Q) :=
  let tau0 := tau2 in
  (* run event, accumulate flow, and calculate resulting shear stress *)
  set_recharge (RScalar (intensity st)) ;;
  run_with_adaptive_time_step_solver Event (storm_dt st) ;;
  _ <- accumulate_flow false ;;
  tau1 <- shear_stress ;;
  (* run interevent *)
  set_recharge (RScalar 0) ;;
  run_with_adaptive_time_step_solver Interevent
    (Qmax (interstorm_dt st) eps) ;;
  _ <- accumulate_flow false ;;
  tau2 <- shear_stress ;;
  (* effective shear stress across the event-interevent pair *)
  taueff <- lift_opt ShapeError
    (calc_storm_eff_shear_stress tau0 tau1 tau2 (tauc P)
       (storm_dt st) (interstorm_dt st)) ;;
  assign_tau taueff ;;
  (* time-weighted erosion rate; the weight is a quotient of Python floats *)
  dz <- erosion_from_shear_stress ;;
  float_division_by (T_h P) ;;
  iadd_dzdt (fun x => (storm_dt st + interstorm_dt st) / T_h P * x) dz ;;
  ret tau2.

Definition run_step (storms : list storm) : M W unit :=
  generate_exp_precip storms ;;
  find_and_route_pits ;;
  fd_run ;;
  s <- get ;;
  modify (set_dzdt (Some (zeros_like (tau s)))) ;;
  let tau2 := tau s in
  f <- stored_forcing ;;
  _ <- for_each event_body f tau2 ;;
  ret tt.

End Class.
End HydrologyIntegrateShearStress.

(** ** [class HydrologyEventShearStress] *)

Module HydrologyEventShearStress.
Section Class.
Context {W : Type} `{Collaborators W} (P : params).

(** The body of the loop of [run_step]; [dzdt2] is carried from one
    iteration to the next. *)
Definition event_body (dzdt2 : list Q) (st : storm) : M W (list Q) :=
  let dzdt0 := dzdt2 in
  (* run event *)
  set_recharge (RScalar (intensity st)) ;;
  run_with_adaptive_time_step_solver Event (storm_dt st) ;;
  _ <- accumulate_flow false ;;
  t <- shear_stress ;; assign_tau t ;;
  dzdt1 <- erosion_from_shear_stress ;;
  update_max_substeps_storm ;;
  (* run interevent *)
  set_recharge (RScalar 0) ;;
  run_with_adaptive_time_step_solver Interevent
    (Qmax (interstorm_dt st) eps) ;;
  _ <- accumulate_flow false ;;
  t <- shear_stress ;; assign_tau t ;;
  dzdt2 <- erosion_from_shear_stress ;;
  update_max_substeps_interstorm ;;
  (* erosion of the storm period only *)
  deltaz <- lift_opt ShapeError (event_volume dzdt0 dzdt1 (storm_dt st)) ;;
  iadd_dzdt (fun x => x / T_h P) deltaz ;;
  ret dzdt2.

Definition run_step (storms : list storm) : M W unit :=
  generate_exp_precip storms ;;
  find_and_route_pits ;;
  fd_run ;;
  reset_max_substeps ;;
  s <- get ;;
  modify (set_dzdt (Some (zeros_like (tau s)))) ;;
  let dzdt2 := zeros_like (tau s) in
  f <- stored_forcing ;;
  _ <- for_each event_body f dzdt2 ;;
  ret tt.

(** "record event": the relative water table position is computed from
    [self._wt], [self._base] and [self._elev].  The recorded series
    themselves ([time], [intensity], [tau_all], [Q_all], [wtrel_all],
    [qs_all]) are written and never read: they are not part of the
    model. *)
Definition record_wtrel : M W unit :=
  if has_wt_base_elev P then ret tt else raise AttributeError.

(** The body of the loop of [run_step_record_state]. *)
Definition event_body_record_state (dzdt2 : list Q) (st : storm)
  : M W (list Q) :=
  let dzdt0 := dzdt2 in
  (* run event *)
  set_recharge (RScalar (intensity st)) ;;
  run_with_adaptive_time_step_solver Event (storm_dt st) ;;
  _ <- accumulate_flow false ;;
  t <- shear_stress ;; assign_tau t ;;
  dzdt1 <- erosion_from_shear_stress ;;
  update_max_substeps_storm ;;
  (* record event *)
  update_max_substeps_storm ;;
  record_wtrel ;;
  (* run interevent *)
  set_recharge (RScalar 0) ;;
  run_with_adaptive_time_step_solver Interevent (interstorm_dt st) ;;
  _ <- accumulate_flow false ;;
  t <- shear_stress ;; assign_tau t ;;
  dzdt2 <- erosion_from_shear_stress ;;
  update_max_substeps_interstorm ;;
  (* record interevent *)
  update_max_substeps_interstorm ;;
  record_wtrel ;;
  (* erosion of the storm period only *)
  deltaz <- lift_opt ShapeError (event_volume dzdt0 dzdt1 (storm_dt st)) ;;
  iadd_dzdt (fun x => x / T_h P) deltaz ;;
  ret dzdt2.

(** [run_step_record_state] does not generate a forcing: its first
    statement reads [self.storm_dts], which a previous call has stored. *)
Definition run_step_record_state : M W unit :=
  _ <- stored_forcing ;;
  reset_max_substeps ;;
  find_and_route_pits ;;
  fd_run ;;
  reset_max_substeps ;;
  s <- get ;;
  modify (set_dzdt (Some (zeros_like (tau s)))) ;;
  let dzdt2 := zeros_like (tau s) in
  f <- stored_forcing ;;
  _ <- for_each event_body_record_state f dzdt2 ;;
  ret tt.

End Class.
End HydrologyEventShearStress.

(** ** [class HydrologySteadyShearStress] *)

Module HydrologySteadyShearStress.
Section Class.
Context {W : Type} `{Collaborators W} (P : params).

Definition run_step : M W unit :=
  run_with_adaptive_time_step_solver Steady (T_h P) ;;
  n <- number_of_substeps ;;
  modify (set_number_substeps n) ;;
  find_and_route_pits ;;
  _ <- fa_run ;;
  t <- shear_stress ;; assign_tau t ;;
  dz <- erosion_from_shear_stress ;;
  modify (set_dzdt (Some dz)).

End Class.
End HydrologySteadyShearStress.

(** ** [class HydrologySteadyStreamPower] *)

(** [self.gdp.recharge * self.area]: a scalar recharge applies to every
    node. *)
Definition recharge_times_area (rv : recharge_val) (area : list Q)
  : option (list Q) :=
  match rv with
  | RScalar x => Some (map (Qmult x) area)
  | RArray a => map2_chk Qmult a area
  end.

Section AreaNorm.
Context {W : Type} `{Collaborators W}.

(** [self.q_an[:] = np.divide(q, np.sqrt(self.area), where=self.area > 0,
                              out=np.zeros_like(q))] *)
Definition assign_q_an (q : list Q) : M W unit :=
  s <- get ;;
  n <- lift_opt ShapeError (area_norm np_sqrt q (drainage_area s)) ;;
  a <- assign_slice (q_an s) n ;;
  modify (set_q_an a).

End AreaNorm.

Module HydrologySteadyStreamPower.
Section Class.
Context {W : Type} `{Collaborators W} (P : params).

Definition run_step : M W unit :=
  (* run gw model *)
  run_with_adaptive_time_step_solver Steady (T_h P) ;;
  n <- number_of_substeps ;;
  modify (set_number_substeps n) ;;
  (* find pits for flow accumulation *)
  find_and_route_pits ;;
  (* run flow accumulation *)
  _ <- fa_run ;;
  (* cut Q* off at 1 *)
  s <- get ;;
  qmax <- lift_opt ShapeError
    (recharge_times_area (gdp_recharge s) (drainage_area s)) ;;
  q <- lift_opt ShapeError
    (clip_discharge (surface_water__discharge s) qmax) ;;
  modify (set_surface_water__discharge q) ;;
  (* discharge field with form for Q* *)
  assign_q_an q.

End Class.
End HydrologySteadyStreamPower.

(** ** [class HydrologyEventStreamPower] *)

Module HydrologyEventStreamPower.
Section Class.
Context {W : Type} `{Collaborators W} (P : params).

(** The body of the loops of [run_step] and [run_step_record_state]; the
    running volume [q_total_vol] and the last snapshot [q2] are carried
    from one iteration to the next.  [run_step_record_state] also writes
    the series [time], [intensity], [Q_all], [wt_all] and [qs_all], which
    are never read and are not part of the model. *)
Definition event_body (acc : list Q * list Q) (st : storm)
  : M W (list Q * list Q) :=
  let '(q_total_vol, q2) := acc in
  let q0 := q2 in
  (* run event, accumulate flow *)
  set_recharge (RScalar (intensity st)) ;;
  run_with_adaptive_time_step_solver Event (storm_dt st) ;;
  '(_, q) <- accumulate_flow false ;;
  let q1 := q in
  update_max_substeps_storm ;;
  (* run interevent, accumulate flow *)
  set_recharge (RScalar 0) ;;
  run_with_adaptive_time_step_solver Interevent
    (Qmax (interstorm_dt st) eps) ;;
  '(_, q) <- accumulate_flow false ;;
  let q2 := q in
  update_max_substeps_interstorm ;;
  (* volume of runoff contributed during timestep *)
  v <- lift_opt ShapeError (event_volume q0 q1 (storm_dt st)) ;;
  q_total_vol <- lift_opt ShapeError (iadd q_total_vol v) ;;
  ret (q_total_vol, q2).

(** [self.q_eff[:] = q_total_vol / self.T_h] and the area-normalised
    field. *)
Definition finalize (q_total_vol : list Q) : M W unit :=
  s <- get ;;
  e <- assign_slice (q_eff s) (map (fun v => v / T_h P) q_total_vol) ;;
  modify (set_q_eff e) ;;
  assign_q_an e.

Definition run_step (storms : list storm) : M W unit :=
  find_and_route_pits ;;
  fd_run ;;
  reset_max_substeps ;;
  s <- get ;;
  let q_total_vol := zeros_like (q_eff s) in
  let q2 := zeros_like (q_eff s) in
  '(q_total_vol, _) <- for_each event_body storms (q_total_vol, q2) ;;
  finalize q_total_vol.

Definition run_step_record_state (storms : list storm) : M W unit :=
  generate_exp_precip storms ;;
  find_and_route_pits ;;
  fd_run ;;
  reset_max_substeps ;;
  s <- get ;;
  let q_total_vol := zeros_like (q_eff s) in
  let q2 := zeros_like (q_eff s) in
  f <- stored_forcing ;;
  '(q_total_vol, _) <- for_each event_body f (q_total_vol, q2) ;;
  finalize q_total_vol.

End Class.
End HydrologyEventStreamPower.

(** ** [class HydrologyEventThresholdStreamPower] *)

Module HydrologyEventThresholdStreamPower.
Section Class.
Context {W : Type} `{Collaborators W} (P : params).

(** "calculate critical_erosion__discharge" *)
Definition calc_critical_discharge : M W unit :=
  s <- get ;;
  let dzdx := calc_grad (world s) in
  g <- lift_opt IndexError
    (gather dzdx (flow__link_to_receiver_node (world s))) ;;
  let S := map Qabs g in
  _ <- accumulate_flow false ;;   (* to update area *)
  s <- get ;;
  c <- lift_opt ShapeError
    (critical_discharge np_sqrt (E0 P) (Ksp P) (drainage_area s) S) ;;
  v <- assign_slice (Q0 s) c ;;
  modify (set_Q0 v).

Definition event_body (acc : list Q * list Q) (st : storm)
  : M W (list Q * list Q) :=
  let '(q_total_vol, q2) := acc in
  let q0 := q2 in
  (* run event, accumulate flow *)
  set_recharge (RScalar (intensity st)) ;;
  run_with_adaptive_time_step_solver Event (storm_dt st) ;;
  '(_, q) <- accumulate_flow false ;;
  s <- get ;;
  q1 <- lift_opt ShapeError (excess_discharge q (Q0 s)) ;;
  update_max_substeps_storm ;;
  (* run interevent, accumulate flow *)
  set_recharge (RScalar 0) ;;
  run_with_adaptive_time_step_solver Interevent
    (Qmax (interstorm_dt st) eps) ;;
  '(_, q) <- accumulate_flow false ;;
  s <- get ;;
  q2 <- lift_opt ShapeError (excess_discharge q (Q0 s)) ;;
  update_max_substeps_interstorm ;;
  (* volume of runoff contributed during timestep *)
  v <- lift_opt ShapeError (event_volume q0 q1 (storm_dt st)) ;;
  q_total_vol <- lift_opt ShapeError (iadd q_total_vol v) ;;
  ret (q_total_vol, q2).

Definition run_step (storms : list storm) : M W unit :=
  find_and_route_pits ;;
  fd_run ;;
  calc_critical_discharge ;;
  reset_max_substeps ;;
  s <- get ;;
  let q_total_vol := zeros_like (q_eff s) in
  let q2 := zeros_like (q_eff s) in
  '(q_total_vol, _) <- for_each event_body storms (q_total_vol, q2) ;;
  HydrologyEventStreamPower.finalize P q_total_vol.

Definition run_step_record_state (storms : list storm) : M W unit :=
  generate_exp_precip storms ;;
  find_and_route_pits ;;
  fd_run ;;
  calc_critical_discharge ;;
  reset_max_substeps ;;
  s <- get ;;
  let q_total_vol := zeros_like (q_eff s) in
  let q2 := zeros_like (q_eff s) in
  f <- stored_forcing ;;
  '(q_total_vol, _) <- for_each event_body f (q_total_vol, q2) ;;
  HydrologyEventStreamPower.finalize P q_total_vol.

End Class.
End HydrologyEventThresholdStreamPower.

(** ** [class HydrologyEventVadoseStreamPower] *)

Module HydrologyEventVadoseStreamPower.
Section Class.
Context {W : Type} `{Collaborators W} (P : params).

(** "run vadose model, calculate recharge based on depth to wt": the
    event's recharge at the core nodes, written into [self.r]. *)
Definition vadose_recharge (st : storm) : M W unit :=
  modify (fun s =>
    set_world (svm_run_event (intensity st * storm_dt st) (world s)) s) ;;
  s <- get ;;
  let w := world s in
  let cores := core_nodes w in
  elev <- lift_opt IndexError (gather (topographic__elevation w) cores) ;;
  wt <- lift_opt IndexError (gather (water_table__elevation w) cores) ;;
  let wt_from_surface := map2 Qminus elev wt in
  let depths := svm_depths w in
  let n := Z.of_nat (length depths) in
  let wt_digitized :=
    map (fun i => if (i =? n)%Z then (n - 1)%Z else i)
      (np_digitize_right wt_from_surface depths) in
  rd <- lift_opt IndexError (gather (svm_recharge_at_depth w) wt_digitized) ;;
  r' <- lift_opt IndexError
    (scatter (r s) cores (map (fun x => x / storm_dt st) rd)) ;;
  modify (set_r r').

(** The body of the loops of [run_step] and [run_step_record_state]; the
    recorded series and cumulative diagnostics of the latter are not part
    of the model. *)
Definition event_body (acc : list Q * list Q) (st : storm)
  : M W (list Q * list Q) :=
  let '(q_total_vol, q2) := acc in
  let q0 := q2 in
  (* run event *)
  vadose_recharge st ;;
  s <- get ;;
  set_recharge (RArray (r s)) ;;
  run_with_adaptive_time_step_solver Event (storm_dt st) ;;
  '(_, q) <- accumulate_flow false ;;
  let q1 := q in
  update_max_substeps_storm ;;
  (* run interevent *)
  modify (fun s =>
    set_world (svm_run_interevent (interstorm_dt st) (world s)) s) ;;
  set_recharge (RScalar 0) ;;
  run_with_adaptive_time_step_solver Interevent
    (Qmax (interstorm_dt st) eps) ;;
  '(_, q) <- accumulate_flow false ;;
  let q2 := q in
  update_max_substeps_interstorm ;;
  (* volume of runoff contributed during timestep *)
  v <- lift_opt ShapeError (event_volume q0 q1 (storm_dt st)) ;;
  q_total_vol <- lift_opt ShapeError (iadd q_total_vol v) ;;
  ret (q_total_vol, q2).

Definition run_step (storms : list storm) : M W unit :=
  find_and_route_pits ;;
  fd_run ;;
  reset_max_substeps ;;
  s <- get ;;
  let q_total_vol := zeros_like (q_eff s) in
  let q2 := zeros_like (q_eff s) in
  '(q_total_vol, _) <- for_each event_body storms (q_total_vol, q2) ;;
  HydrologyEventStreamPower.finalize P q_total_vol.

Definition run_step_record_state (storms : list storm) : M W unit :=
  generate_exp_precip storms ;;
  find_and_route_pits ;;
  fd_run ;;
  reset_max_substeps ;;
  s <- get ;;
  let q_total_vol := zeros_like (q_eff s) in
  let q2 := zeros_like (q_eff s) in
  f <- stored_forcing ;;
  '(q_total_vol, _) <- for_each event_body f (q_total_vol, q2) ;;
  HydrologyEventStreamPower.finalize P q_total_vol.

End Class.
End HydrologyEventVadoseStreamPower.

(** ** The step operations of the module, by name *)

Inductive step_op : Type :=
| IntegrateShearStress_run_step
| EventShearStress_run_step
| EventShearStress_run_step_record_state
| SteadyShearStress_run_step
| SteadyStreamPower_run_step
| EventStreamPower_run_step
| EventStreamPower_run_step_record_state
| EventThresholdStreamPower_run_step
| EventThresholdStreamPower_run_step_record_state
| EventVadoseStreamPower_run_step
| EventVadoseStreamPower_run_step_record_state.

(** One call of a step operation.  [storms] is the sequence the
    precipitation generator yields during the call; the steady operations
    and [HydrologyEventShearStress.run_step_record_state] do not draw one. *)
Definition run_op {W : Type} `{Collaborators W} (P : params) (op : step_op)
  (storms : list storm) : M W unit :=
  match op with
  | IntegrateShearStress_run_step =>
      HydrologyIntegrateShearStress.run_step P storms
  | EventShearStress_run_step =>
      HydrologyEventShearStress.run_step P storms
  | EventShearStress_run_step_record_state =>
      HydrologyEventShearStress.run_step_record_state P
  | SteadyShearStress_run_step =>
      HydrologySteadyShearStress.run_step P
  | SteadyStreamPower_run_step =>
      HydrologySteadyStreamPower.run_step P
  | EventStreamPower_run_step =>
      HydrologyEventStreamPower.run_step P storms
  | EventStreamPower_run_step_record_state =>
      HydrologyEventStreamPower.run_step_record_state P storms
  | EventThresholdStreamPower_run_step =>
      HydrologyEventThresholdStreamPower.run_step P storms
  | EventThresholdStreamPower_run_step_record_state =>
      HydrologyEventThresholdStreamPower.run_step_record_state P storms
  | EventVadoseStreamPower_run_step =>
      HydrologyEventVadoseStreamPower.run_step P storms
  | EventVadoseStreamPower_run_step_record_state =>
      HydrologyEventVadoseStreamPower.run_step_record_state P storms
  end.

(** The operations that loop over event/interevent pairs. *)
Definition has_event_loop (op : step_op) : bool :=
  match op with
  | SteadyShearStress_run_step | SteadyStreamPower_run_step => false
  | _ => true
  end.

(** The operations of the stream power classes that loop over events: they
    accumulate a runoff volume and write the effective discharge. *)
Definition is_event_stream_power (op : step_op) : bool :=
  match op with
  | EventStreamPower_run_step
  | EventStreamPower_run_step_record_state
  | EventThresholdStreamPower_run_step
  | EventThresholdStreamPower_run_step_record_state
  | EventVadoseStreamPower_run_step
  | EventVadoseStreamPower_run_step_record_state => true
  | _ => false
  end.

(** The forcing the loop of an operation runs over: the storms drawn during
    the call or, for [HydrologyEventShearStress.run_step_record_state], the
    stored ones. *)
Definition loop_forcing {W : Type} (op : step_op) (storms : list storm)
  (s : model W) : list storm :=
  match op with
  | EventShearStress_run_step_record_state =>
      match forcing s with Some f => f | None => [] end
  | _ => storms
  end.

(** ** A small concrete world

    Two nodes.  The world is the number of solver calls made so far; the
    solver call number [fail_at] (counted from 0) raises.  The discharge the
    accumulator returns grows with the number of calls, the shear stress is
    the discharge and the erosion rate is the shear stress. *)
Module Toy.

Definition sqrt_toy (x : Q) : Q :=
  Qmake (Z.sqrt (Qnum x)) (Pos.sqrt (Qden x)).

Definition digitize_toy (xs bins : list Q) : list Z :=
  map (fun x => Z.of_nat (length (filter (fun b => Qltb b x) bins))) xs.

Definition accumulate_toy (fail_at : nat) (w : nat)
  : option (nat * (list Q * list Q)) :=
  if (w =? fail_at)%nat then None
  else Some (S w, ([4; 0], [inject_Z (Z.of_nat w); 1])).

#[local] Instance collab (fail_at : nat) : Collaborators nat := {
  dfr_find_pits w := w;
  dfr_number_of_pits _ := 1%nat;
  lmb_run_one_step w := w;
  fd_run_one_step w := w;
  fa_accumulate_flow _ w := accumulate_toy fail_at w;
  fa_run_one_step w := accumulate_toy fail_at w;
  gdp_run_with_adaptive_time_step_solver _ _ w :=
    if (w =? fail_at)%nat then None else Some (S w);
  gdp_number_of_substeps w := w;
  calc_shear_stress _ _ q := q;
  calc_erosion_from_shear_stress _ t := t;
  calc_grad _ := [-3; 0];
  flow__link_to_receiver_node _ := [0; -1]%Z;
  core_nodes _ := [0]%Z;
  topographic__elevation _ := [10; 10];
  water_table__elevation _ := [8; 9];
  svm_run_event _ w := w;
  svm_run_interevent _ w := w;
  svm_depths _ := [1; 2; 3];
  svm_recharge_at_depth _ := [5; 6; 7];
  np_sqrt := sqrt_toy;
  np_digitize_right := digitize_toy
}.

(** The object and the grid fields before the first step. *)
Definition init : model nat := {|
  world := 0%nat;
  log := [];
  gdp_recharge := RScalar 1;
  drainage_area := [0; 0];
  surface_water__discharge := [0; 0];
  tau := [0; 0];
  dzdt := None;
  q_eff := [0; 0];
  q_an := [0; 0];
  Q0 := [0; 0];
  r := [0; 0];
  forcing := None;
  max_substeps_storm := 0%nat;
  max_substeps_interstorm := 0%nat;
  number_substeps := 0%nat
|}.

Definition prm : params := {|
  T_h := 1000;
  tauc := 0;
  E0 := 0;
  Ksp := 1 # 100000;
  has_wt_base_elev := false
|}.

(** A forcing of two pairs; the second interevent has no duration. *)
Definition storms : list storm :=
  [ mk_storm 100 400 (1 # 1000000); mk_storm 500 0 (1 # 1000000) ].

Definition never : nat := 1000%nat.

(** An object with a streampower threshold. *)
Definition prm_threshold : params := {|
  T_h := 1000;
  tauc := 0;
  E0 := 2;
  Ksp := 1;
  has_wt_base_elev := false
|}.

(** An object to which [_wt], [_base] and [_elev] have been attached. *)
Definition prm_recording : params := {|
  T_h := 1000;
  tauc := 0;
  E0 := 0;
  Ksp := 1 # 100000;
  has_wt_base_elev := true
|}.

(** The state in which a forcing has been generated. *)
Definition generated : model nat := set_forcing (Some storms) init.

End Toy.

(** * Vocabulary of the properties *)

(** The calls a computation adds to the log are a prefix of [t], and all of
    [t] when it returns normally. *)
Definition emits {W A : Type} (m : M W A) (t : list call) : Prop :=
  forall s, exists evs,
    log (snd (m s)) = log s ++ evs
    /\ (exists rest, t = evs ++ rest)
    /\ (forall a, fst (m s) = inr a -> evs = t).

(** [I] survives the computation, however it ends. *)
Definition preserves {W A : Type} (I : model W -> Prop) (m : M W A) : Prop :=
  forall s, I s -> I (snd (m s)).

(** [Q] holds of the result and the state when the computation returns
    normally. *)
Definition returns {W A : Type} (m : M W A) (Q : A -> model W -> Prop)
  : Prop :=
  forall s a s', m s = (inr a, s') -> Q a s'.

(** The computation does not raise [e]. *)
Definition never_raises {W A : Type} (e : exn) (m : M W A) : Prop :=
  forall s, fst (m s) <> inl e.

(** The component calls of one event/interevent pair.  [floor] tells whether
    the interevent duration is floored by [1e-15]. *)
Definition iteration_calls (floor : bool) (st : storm) : list call :=
  [ gw_advance_call Event (storm_dt st);
    accumulate_flow_call false;
    gw_advance_call Interevent
      (if floor then Qmax (interstorm_dt st) eps else interstorm_dt st);
    accumulate_flow_call false ].

(** Every groundwater advance is followed by a flow accumulation that keeps
    the flow directions (unless the trace ends there), and there is no other
    call. *)
Fixpoint advance_then_accumulate (evs : list call) : bool :=
  match evs with
  | [] => true
  | gw_advance_call _ _ :: evs' =>
      match evs' with
      | [] => true
      | accumulate_flow_call false :: evs'' => advance_then_accumulate evs''
      | _ => false
      end
  | _ => false
  end.

(** The calls that detect and fill pits. *)
Definition pit_calls (number_of_pits : nat) : list call :=
  find_pits_call ::
  (if (0 <? number_of_pits)%nat then [lmb_run_one_step_call] else []).

(** Only [HydrologyEventShearStress.run_step_record_state] passes the
    interevent duration to the solver as it is. *)
Definition floors_interstorm (op : step_op) : bool :=
  match op with
  | EventShearStress_run_step_record_state => false
  | _ => true
  end.

(** The threshold operations accumulate flow once before the loop, "to
    update area". *)
Definition area_update_calls (op : step_op) : list call :=
  match op with
  | EventThresholdStreamPower_run_step
  | EventThresholdStreamPower_run_step_record_state =>
      [accumulate_flow_call false]
  | _ => []
  end.

(** The world when the flow directions have been updated. *)
Definition world_after_pits {W : Type} `{Collaborators W} (w : W) : W :=
  let w1 := dfr_find_pits w in
  if (0 <? dfr_number_of_pits w1)%nat then lmb_run_one_step w1 else w1.

Definition world_before_loop {W : Type} `{Collaborators W} (w : W) : W :=
  fd_run_one_step (world_after_pits w).

(** The calls of [t] are added under the invariant [I]. *)
Definition emits_under {W A : Type} (I : model W -> Prop) (m : M W A)
  (t : list call) : Prop :=
  forall s, I s ->
    I (snd (m s))
    /\ exists evs,
         log (snd (m s)) = log s ++ evs
         /\ (exists rest, t = evs ++ rest)
         /\ (forall a, fst (m s) = inr a -> evs = t).

(** A property of the state that does not depend on what the loops write
    before the results are committed: the world, the log, the recharge, the
    area and discharge fields, the shear stress, [dzdt], the recharge rate
    and the sub-step counters. *)
Class Framed {W : Type} (I : model W -> Prop) : Prop := {
  framed_world : forall x s, I s -> I (set_world x s);
  framed_log : forall x s, I s -> I (set_log x s);
  framed_gdp_recharge : forall x s, I s -> I (set_gdp_recharge x s);
  framed_drainage_area : forall x s, I s -> I (set_drainage_area x s);
  framed_discharge : forall x s, I s -> I (set_surface_water__discharge x s);
  framed_tau : forall x s, I s -> I (set_tau x s);
  framed_dzdt : forall x s, I s -> I (set_dzdt x s);
  framed_r : forall x s, I s -> I (set_r x s);
  framed_max_substeps_storm :
    forall x s, I s -> I (set_max_substeps_storm x s);
  framed_max_substeps_interstorm :
    forall x s, I s -> I (set_max_substeps_interstorm x s);
  framed_number_substeps : forall x s, I s -> I (set_number_substeps x s)
}.

(** The state after "find and route flow if there are pits" and after
    "update flow directions". *)
Definition after_pits {W : Type} `{Collaborators W} (s : model W) : model W :=
  snd (find_and_route_pits s).

Definition after_fd {W : Type} `{Collaborators W} (s : model W) : model W :=
  snd (fd_run s).

(** The results a stream power loop commits when it has finished. *)
Definition committed_fields {W : Type} (e n : list Q) (s : model W) : Prop :=
  q_eff s = e /\ q_an s = n.

Definition forcing_is {W : Type} (f : list storm) (s : model W) : Prop :=
  forcing s = Some f.

Definition Q0_is {W : Type} (c : list Q) (s : model W) : Prop := Q0 s = c.

(** Counting calls of one kind. *)
Definition is_find_pits (c : call) : bool :=
  match c with find_pits_call => true | _ => false end.

Definition is_lmb_run (c : call) : bool :=
  match c with lmb_run_one_step_call => true | _ => false end.

(** A call that computes flow directions anew: [fd.run_one_step()],
    [fa.run_one_step()] or [accumulate_flow(update_flow_director=True)]. *)
Definition is_direction_update (c : call) : bool :=
  match c with
  | fd_run_one_step_call | fa_run_one_step_call
  | accumulate_flow_call true => true
  | _ => false
  end.

Definition count (f : call -> bool) (l : list call) : nat :=
  length (filter f l).

(** The calls a loop may make: a groundwater advance, or a flow accumulation
    with [update_flow_director=False]. *)
Definition is_loop_call (c : call) : Prop :=
  c = accumulate_flow_call false \/ exists p d, c = gw_advance_call p d.

(** The operations that write the area-normalised discharge, and the field
    they normalise: the effective discharge of the event operations, the
    discharge itself of the steady one. *)
Definition writes_q_an (op : step_op) : bool :=
  match op with
  | SteadyStreamPower_run_step => true
  | _ => is_event_stream_power op
  end.

Definition normalised_field {W : Type} (op : step_op) (s : model W) : list Q :=
  match op with
  | SteadyStreamPower_run_step => surface_water__discharge s
  | _ => q_eff s
  end.

(** The recharge of node [i]. *)
Definition recharge_at (rv : recharge_val) (i : nat) : option Q :=
  match rv with
  | RScalar x => Some x
  | RArray a => nth_error a i
  end.

(** A computation that is interrupted by a solver leaves [I] as it was. *)
Definition commits_late {W A : Type} (I : model W -> Prop) (m : M W A)
  : Prop :=
  forall s, I s -> fst (m s) = inl SolverError -> I (snd (m s)).

(** The field in which a step operation with an event loop leaves its
    result: [self.dzdt] of the shear stress classes, the effective
    discharge of the stream power classes. *)
Definition output_field {W : Type} (op : step_op) (s : model W)
  : option (list Q) :=
  if is_event_stream_power op then Some (q_eff s) else dzdt s.

(** All-or-nothing steps: when a solver call raises, the output field holds
    what it held before the step. *)
Definition all_or_nothing {W : Type} `{Collaborators W} (P : params)
  (op : step_op) : Prop :=
  forall storms s,
    fst (run_op P op storms s) = inl SolverError ->
    output_field op (snd (run_op P op storms s)) = output_field op s.

From Stdlib Require Import Qround Floats.

(** ** More vocabulary *)

(** The operations of [HydrologyEventThresholdStreamPower]. *)
Definition is_threshold (op : step_op) : bool :=
  match op with
  | EventThresholdStreamPower_run_step
  | EventThresholdStreamPower_run_step_record_state => true
  | _ => false
  end.

(** [gdp.recharge] holds [v]. *)
Definition recharge_is {W : Type} (v : recharge_val) (s : model W) : Prop :=
  gdp_recharge s = v.

(** Every entry of an array is zero, is not negative. *)
Definition all_zero (a : list Q) : Prop := Forall (fun x => x == 0) a.
Definition all_nonneg (a : list Q) : Prop := Forall (fun x => 0 <= x) a.

(** [Q] holds of the result and the state when the computation, started in a
    state of [I], returns normally. *)
Definition returns_under {W A : Type} (I : model W -> Prop) (m : M W A)
  (Q : A -> model W -> Prop) : Prop :=
  forall s a s', I s -> m s = (inr a, s') -> Q a s'.

(** The operations of [HydrologyEventVadoseStreamPower]. *)
Definition is_vadose (op : step_op) : bool :=
  match op with
  | EventVadoseStreamPower_run_step
  | EventVadoseStreamPower_run_step_record_state => true
  | _ => false
  end.

(** The field [recharge_rate] has [n] nodes and holds [v] at node [j]
    ([None] when there is no such node). *)
Definition recharge_rate_at {W : Type} (n j : nat) (v : option Q)
  (s : model W) : Prop :=
  length (r s) = n /\ nth_error (r s) j = v.

(** Node [j] of an array of [n] nodes is not addressed by the index [c],
    counted from the start or, when negative, from the end. *)
Definition misses (n j : nat) (c : Z) : Prop :=
  c <> Z.of_nat j /\ c <> (Z.of_nat j - Z.of_nat n)%Z.

(** ** The runoff volume of a forcing, from the discharge snapshots *)

Section Snapshots.
Context {W : Type} `{Collaborators W}.

(** The discharges the flow accumulator returns in a loop over the forcing
    that starts in the world [w], when every call returns: for each pair
    the discharge at the end of the event (recharge: the intensity, advance:
    the storm duration) and at the end of the interevent (recharge 0,
    advance: the floored interevent duration), and the world after the last
    pair. *)
Fixpoint discharge_snapshots (w : W) (storms : list storm)
  : option (list (list Q * list Q) * W) :=
  match storms with
  | [] => Some ([], w)
  | st :: storms' =>
      match gdp_run_with_adaptive_time_step_solver
              (RScalar (intensity st)) (storm_dt st) w with
      | Some w1 =>
          match fa_accumulate_flow false w1 with
          | Some (w2, (_, q1)) =>
              match gdp_run_with_adaptive_time_step_solver (RScalar 0)
                      (Qmax (interstorm_dt st) eps) w2 with
              | Some w3 =>
                  match fa_accumulate_flow false w3 with
                  | Some (w4, (_, q2)) =>
                      match discharge_snapshots w4 storms' with
                      | Some (snaps, wend) => Some ((q1, q2) :: snaps, wend)
                      | None => None
                      end
                  | None => None
                  end
              | None => None
              end
          | None => None
          end
      | None => None
      end
  end.

End Snapshots.

(** The volume of runoff of the events, by the trapezoid rule: every event
    adds [0.5 * (q0 + q1) * storm_dt] to [acc], where [q1] is the snapshot
    at the end of the event and [q0] the snapshot at the end of the
    interevent before it ([q0] of the first pair is the argument).
    [correct] is what is done to a snapshot before it enters the volume. *)
Fixpoint runoff_volume (correct : list Q -> option (list Q))
  (q0 acc : list Q) (storms : list storm) (snaps : list (list Q * list Q))
  : option (list Q) :=
  match storms, snaps with
  | [], [] => Some acc
  | st :: storms', (raw1, raw2) :: snaps' =>
      match correct raw1, correct raw2 with
      | Some q1, Some q2 =>
          match event_volume q0 q1 (storm_dt st) with
          | Some v =>
              match iadd acc v with
              | Some acc' => runoff_volume correct q2 acc' storms' snaps'
              | None => None
              end
          | None => None
          end
      | _, _ => None
      end
  | _, _ => None
  end.

(** * The arithmetic of the program: binary64

    The aggregator and the critical discharge once more, over the floats
    the program computes with, by the same operations in the same order.
    They show where the exact values of the model and the rounded values
    of the program part. *)

Module Binary64.
Local Open Scope float_scope.

Definition zeros_like {A : Type} (a : list A) : list float :=
  repeat 0 (length a).

(** [a > t] and [a < t] *)
Definition gt_scalar (a : list float) (t : float) : list bool :=
  map (fun x => t <? x) a.

Definition lt_scalar (a : list float) (t : float) : list bool :=
  map (fun x => x <? t) a.

(** [a[c] = v[c]] *)
Fixpoint assign_where (c : list bool) (v a : list float) : list float :=
  match c, v, a with
  | b :: c', x :: v', y :: a' =>
      (if b then x else y) :: assign_where c' v' a'
  | _, _, _ => []
  end.

Definition tauint (shape ta te : list float) (tauc dt : float) : list float :=
  let tauint0 := zeros_like shape in
  let c1 := logical_and (gt_scalar ta tauc) (gt_scalar te tauc) in
  let c2 := logical_and (lt_scalar ta tauc) (gt_scalar te tauc) in
  let c3 := logical_and (gt_scalar ta tauc) (lt_scalar te tauc) in
  let t1 :=
    assign_where c1
      (map2 (fun a e => 0.5 * dt * (a + e - 2 * tauc)) ta te) tauint0 in
  let t2 :=
    assign_where c2
      (map2 (fun a e => 0.5 * dt * (e - tauc) * ((e - tauc) / (e - a))) ta te)
      t1 in
  assign_where c3
    (map2 (fun a e => 0.5 * dt * (a - tauc) * ((a - tauc) / (a - e))) ta te)
    t2.

(** [HydrologyIntegrateShearStress.calc_storm_eff_shear_stress] *)
Definition calc_storm_eff_shear_stress
  (tau0 tau1 tau2 : list float) (tauc tr tb : float) : option (list float) :=
  if same_length3 tau0 tau1 tau2 then
    let tauint1 := tauint tau0 tau0 tau1 tauc tr in
    let tauint2 := tauint tau0 tau1 tau2 tauc tb in
    Some (map2 (fun i1 i2 => (i1 + i2) / (tr + tb) + tauc) tauint1 tauint2)
  else None.

(** [np.divide(E0 * np.sqrt(area), Ksp * S, where=S > 0.0,
               out=np.zeros_like(S))] *)
Definition critical_discharge (E0 Ksp : float) (area S : list float)
  : option (list float) :=
  if (length area =? length S)%nat
  then Some (assign_where (gt_scalar S 0)
               (map2 PrimFloat.div
                  (map (fun a => E0 * PrimFloat.sqrt a) area)
                  (map (fun s => Ksp * s) S))
               (zeros_like S))
  else None.

End Binary64.

(** * The steady recharge landscape evolution model

    A shallow embedding of [DupuitLEM/models/steady_shear_stress_model.py],
    class [SteadyRechargeShearStress].  landlab's components, the grid
    functions [calc_shear_stress_at_node] and
    [calc_erosion_from_shear_stress] of [DupuitLEM.grid_functions] and
    [np.exp] are parameters.  The components hold the grid: a call may
    change any of its fields. *)

Module SteadyRechargeShearStress.

Inductive error : Type :=
| Raised (e : exn)        (* by a component or by numpy *)
| ZeroDivisionError
| ValueError.

(** The grid: the node fields the model reads and writes itself, and the
    rest (the other fields, the state of the components). *)
Record grid (G : Type) : Type := mk_grid {
  elev : list Q;       (* topographic__elevation, [self._elev] *)
  base : list Q;       (* aquifer_base__elevation, [self._base] *)
  shear : list Q;      (* surface_water__shear_stress, [self._tau] *)
  gw_flux : list Q;
    (* groundwater__specific_discharge_node, [self._gw_flux] *)
  rest : G
}.

Arguments mk_grid {G}.
Arguments elev {G} _.
Arguments base {G} _.
Arguments shear {G} _.
Arguments gw_flux {G} _.
Arguments rest {G} _.

(** The grid and the grid files written so far: [written] lists the loop
    indices [i] of the files [<id>_grid_<i>.nc], oldest first. *)
Record run (G : Type) : Type := mk_run {
  land : grid G;
  written : list Z
}.

Arguments mk_run {G}.
Arguments land {G} _.
Arguments written {G} _.

Section Update.
Context {G : Type}.

Definition set_elev (x : list Q) (g : grid G) : grid G :=
  mk_grid x (base g) (shear g) (gw_flux g) (rest g).

Definition set_base (x : list Q) (g : grid G) : grid G :=
  mk_grid (elev g) x (shear g) (gw_flux g) (rest g).

Definition set_shear (x : list Q) (g : grid G) : grid G :=
  mk_grid (elev g) (base g) x (gw_flux g) (rest g).

Definition set_gw_flux (x : list Q) (g : grid G) : grid G :=
  mk_grid (elev g) (base g) (shear g) x (rest g).

Definition set_land (x : grid G) (s : run G) : run G :=
  mk_run x (written s).

Definition set_written (x : list Z) (s : run G) : run G :=
  mk_run (land s) x.

End Update.

(** The entries of the parameter dictionary that [__init__] and
    [run_model] compute with; the others are handed to the components. *)
Record parameters : Type := mk_parameters {
  permeability_production_rate : Q;
  characteristic_w_depth : Q;
  uplift_rate : Q;
  hydrological_timestep : Q;
  total_time : Q;
  morphologic_scaling_factor : Q;
  output_interval_entry : Z
}.

(** The attributes [__init__] sets. *)
Record attrs : Type := mk_attrs {
  cores : list Z;          (* [self._cores] *)
  w0 : Q;
  d_s : Q;
  U : Q;
  dt_h : Q;
  T : Q;
  MSF : Q;
  dt_m : Q;
  N : Z;
  save_output : bool;
  output_interval : Z
}.

(** [__init__]: [self.dt_m = self.MSF*self.dt_h] and
    [self.N = int(self.T//self.dt_m)].  Floor division of Python floats
    by zero raises. *)
Definition init (core_nodes : list Z) (p : parameters) (save : bool)
  : error + attrs :=
  let dt_m := morphologic_scaling_factor p * hydrological_timestep p in
  if Qeq_bool dt_m 0 then inl ZeroDivisionError
  else
    inr {| cores := core_nodes;
           w0 := permeability_production_rate p;
           d_s := characteristic_w_depth p;
           U := uplift_rate p;
           dt_h := hydrological_timestep p;
           T := total_time p;
           MSF := morphologic_scaling_factor p;
           dt_m := dt_m;
           N := Qfloor (total_time p / dt_m);
           save_output := save;
           output_interval := output_interval_entry p |}.

Class Components (G : Type) : Type := {
  (* GroundwaterDupuitPercolator *)
  gdp_run_with_adaptive_time_step_solver : Q -> grid G -> option (grid G);
  gdp_calc_gw_flux_at_node : grid G -> list Q;
  (* DepressionFinderAndRouter *)
  dfr_find_pits : grid G -> grid G;
  dfr_number_of_pits : grid G -> nat;
  (* LakeMapperBarnes: it fills [topographic__elevation] *)
  lmb_run_one_step : grid G -> grid G;
  (* FlowAccumulator *)
  fa_run_one_step : grid G -> option (grid G);
  (* LinearDiffuser *)
  ld_run_one_step : Q -> grid G -> option (grid G);
  (* DupuitLEM.grid_functions.grid_funcs *)
  calc_shear_stress_at_node : grid G -> list Q;
  calc_erosion_from_shear_stress : grid G -> list Q;
  (* numpy *)
  np_exp : Q -> Q
}.

(** A state and exception monad over [run], as for the step operations. *)
Definition R (G A : Type) : Type := run G -> (error + A) * run G.

Definition ret {G A : Type} (a : A) : R G A := fun s => (inr a, s).

Definition bind {G A B : Type} (m : R G A) (f : A -> R G B) : R G B :=
  fun s =>
    match m s with
    | (inr a, s') => f a s'
    | (inl e, s') => (inl e, s')
    end.

Declare Scope run_scope.
Delimit Scope run_scope with run.
Notation "x <- c1 ;; c2" := (bind c1 (fun x => c2))
  (at level 61, c1 at next level, right associativity) : run_scope.
Notation "c1 ;; c2" := (bind c1 (fun _ => c2))
  (at level 61, right associativity) : run_scope.
Local Open Scope run_scope.

Definition raise {G A : Type} (e : error) : R G A := fun s => (inl e, s).
Definition get {G : Type} : R G (run G) := fun s => (inr s, s).
Definition modify {G : Type} (f : run G -> run G) : R G unit :=
  fun s => (inr tt, f s).

Definition lift_opt {G A : Type} (e : error) (o : option A) : R G A :=
  match o with
  | Some a => ret a
  | None => raise e
  end.

(** [for i in range(n): body(i)], from [i = start]. *)
Fixpoint for_range {G : Type} (body : Z -> R G unit) (start : Z) (n : nat)
  : R G unit :=
  match n with
  | O => ret tt
  | S n' => body start ;; for_range body (start + 1) n'
  end.

(** [a[a < b] = b[a < b]] *)
Definition clamp_below (a b : list Q) : option (list Q) :=
  if (length a =? length b)%nat
  then Some (assign_where (map2 Qltb a b) b a)
  else None.

Section Model.
Context {G : Type} `{Components G} (a : attrs).

(** A component that changes the grid. *)
Definition on_grid (f : grid G -> grid G) : R G unit :=
  modify (fun s => set_land (f (land s)) s).

(** A component that can raise. *)
Definition solve (f : grid G -> option (grid G)) : R G unit :=
  s <- get ;;
  match f (land s) with
  | Some g => modify (set_land g)
  | None => raise (Raised SolverError)
  end.

(** [self._elev[self._cores] += self.U*self.dt_m] *)
Definition uplift : R G unit :=
  s <- get ;;
  let g := land s in
  e <- lift_opt (Raised IndexError) (gather (elev g) (cores a)) ;;
  e' <- lift_opt (Raised IndexError)
          (scatter (elev g) (cores a) (map (fun x => x + U a * dt_m a) e)) ;;
  on_grid (set_elev e').

(** [self._base[self._cores] += self.U*self.dt_m
       - self.w0*np.exp(-(self._elev[self._cores]
                          -self._base[self._cores])/self.d_s)*self.dt_m] *)
Definition regolith_production : R G unit :=
  s <- get ;;
  let g := land s in
  b <- lift_opt (Raised IndexError) (gather (base g) (cores a)) ;;
  e <- lift_opt (Raised IndexError) (gather (elev g) (cores a)) ;;
  let rhs :=
    map2 (fun ei bi =>
            U a * dt_m a - w0 a * np_exp (- (ei - bi) / d_s a) * dt_m a)
      e b in
  b' <- lift_opt (Raised IndexError)
          (scatter (base g) (cores a) (map2 Qplus b rhs)) ;;
  on_grid (set_base b').

(** "find pits for flow accumulation" *)
Definition find_and_route_pits : R G unit :=
  on_grid dfr_find_pits ;;
  s <- get ;;
  if (0 <? dfr_number_of_pits (land s))%nat
  then on_grid lmb_run_one_step
  else ret tt.

(** [self._tau[:] = calc_shear_stress_at_node(self._grid, ...)] *)
Definition assign_shear : R G unit :=
  s <- get ;;
  let t := calc_shear_stress_at_node (land s) in
  if (length (shear (land s)) =? length t)%nat
  then on_grid (set_shear t)
  else raise (Raised ShapeError).

(** [dzdt = calc_erosion_from_shear_stress(self._grid, ...)] and
    [self._elev += dzdt*self.dt_m] *)
Definition erode : R G unit :=
  s <- get ;;
  let dzdt := calc_erosion_from_shear_stress (land s) in
  e <- lift_opt (Raised ShapeError)
         (map2_chk (fun ei di => ei + di * dt_m a) (elev (land s)) dzdt) ;;
  on_grid (set_elev e).

(** "check for places where erosion to bedrock occurs":
    [self._elev[self._elev<self._base] = self._base[self._elev<self._base]] *)
Definition to_bedrock : R G unit :=
  s <- get ;;
  e <- lift_opt (Raised ShapeError)
         (clamp_below (elev (land s)) (base (land s))) ;;
  on_grid (set_elev e).

(** [elev_diff = abs(self._elev-elev0)/elev0] and [np.max(elev_diff)],
    which raises on an empty array.  The diagnostics themselves
    ([num_substeps], [max_rel_change], [perc90_rel_change], [times],
    [num_pits]) are local arrays that are written to text files and never
    read: the model keeps what can raise. *)
Definition diagnostics (elev0 : list Q) : R G unit :=
  s <- get ;;
  d <- lift_opt (Raised ShapeError)
         (map2_chk (fun e e0 => Qabs (e - e0) / e0) (elev (land s)) elev0) ;;
  match d with
  | [] => raise ValueError
  | _ :: _ => ret tt
  end.

(** [self._gw_flux[:] = self.gdp.calc_gw_flux_at_node()] and
    [write_raster_netcdf(filename, self._grid, ...)].  Errors of the file
    system are not modelled. *)
Definition write_output (i : Z) : R G unit :=
  s <- get ;;
  let f := gdp_calc_gw_flux_at_node (land s) in
  if (length (gw_flux (land s)) =? length f)%nat
  then on_grid (set_gw_flux f) ;;
       modify (fun s => set_written (written s ++ [i]) s)
  else raise (Raised ShapeError).

(** [if i % self.output_interval == 0 or i==max(range(N))] *)
Definition output_due (i : Z) : bool :=
  ((i mod output_interval a =? 0) || (i =? N a - 1))%Z.

Definition output (i : Z) : R G unit :=
  if save_output a then
    if (output_interval a =? 0)%Z then raise ZeroDivisionError
    else if output_due i then write_output i else ret tt
  else ret tt.

(** The body of the loop of [run_model]. *)
Definition iteration (i : Z) : R G unit :=
  s <- get ;;
  let elev0 := elev (land s) in
  (* run gw model *)
  solve (gdp_run_with_adaptive_time_step_solver (dt_h a)) ;;
  (* uplift and regolith production *)
  uplift ;;
  regolith_production ;;
  (* find pits for flow accumulation *)
  find_and_route_pits ;;
  (* run flow accumulation *)
  solve fa_run_one_step ;;
  (* run linear diffusion *)
  solve (ld_run_one_step (dt_m a)) ;;
  (* calc shear stress and erosion *)
  assign_shear ;;
  erode ;;
  (* check for places where erosion to bedrock occurs *)
  to_bedrock ;;
  diagnostics elev0 ;;
  output i.

(** [run_model]: [np.zeros(N)] raises for a negative [N]. *)
Definition run_model : R G unit :=
  if (N a <? 0)%Z then raise ValueError
  else for_range iteration 0 (Z.to_nat (N a)).

End Model.

(** *** Vocabulary *)

(** [I] survives the computation, however it ends. *)
Definition preserves {G A : Type} (I : run G -> Prop) (m : R G A) : Prop :=
  forall s, I s -> I (snd (m s)).

(** [Q] holds of the state when the computation, started in a state of
    [I], returns normally. *)
Definition returns {G A : Type} (I : run G -> Prop) (m : R G A)
  (Q : run G -> Prop) : Prop :=
  forall s a s', I s -> m s = (inr a, s') -> Q s'.

(** No node lies below the aquifer base. *)
Definition above_bedrock {G : Type} (s : run G) : Prop :=
  Forall2 Qle (base (land s)) (elev (land s)).

(** The loop indices of [range(n)] from [start]. *)
Fixpoint range_from (start : Z) (n : nat) : list Z :=
  match n with
  | O => []
  | S n' => start :: range_from (start + 1) n'
  end.

(** A small grid of two nodes, node 0 a core node; the components leave it
    as it is, erosion lowers node 0 by 3 per unit of time. *)
Module Toy.

#[local] Instance comps : Components unit := {
  gdp_run_with_adaptive_time_step_solver _ g := Some g;
  gdp_calc_gw_flux_at_node _ := [0; 0];
  dfr_find_pits g := g;
  dfr_number_of_pits _ := 0%nat;
  lmb_run_one_step g := g;
  fa_run_one_step g := Some g;
  ld_run_one_step _ g := Some g;
  calc_shear_stress_at_node _ := [1; 1];
  calc_erosion_from_shear_stress _ := [-3; 0];
  np_exp _ := 1
}.

Definition start : run unit :=
  mk_run (mk_grid [2; 1] [1; 0] [0; 0] [0; 0] tt) [].

Definition entries : parameters := {|
  permeability_production_rate := 1 # 10;
  characteristic_w_depth := 1;
  uplift_rate := 1 # 10;
  hydrological_timestep := 1;
  total_time := 7;
  morphologic_scaling_factor := 2;
  output_interval_entry := 2
|}.

(** The attributes [__init__] gives: [dt_m = 2] and [N = 3]. *)
Definition built : attrs :=
  mk_attrs [0%Z] (1 # 10) 1 (1 # 10) 1 7 2 2 3 true 2.

Definition no_interval : attrs :=
  mk_attrs [0%Z] (1 # 10) 1 (1 # 10) 1 7 2 2 3 true 0.

End Toy.

End SteadyRechargeShearStress.
Lemma Qgtb_true (a b : Q) : Qgtb a b = true <-> b < a.
Proof.
  unfold Qgtb. rewrite negb_true_iff. split; intro H.
  - apply Qnot_le_lt. intro Hle. apply Qle_bool_iff in Hle. congruence.
  - destruct (Qle_bool a b) eqn:E; [|reflexivity].
    apply Qle_bool_iff in E. lra.
Qed.

Lemma Qgtb_false (a b : Q) : Qgtb a b = false <-> a <= b.
Proof.
  unfold Qgtb. rewrite negb_false_iff. apply Qle_bool_iff.
Qed.

Lemma Qltb_true (a b : Q) : Qltb a b = true <-> a < b.
Proof. apply Qgtb_true. Qed.

Lemma Qltb_false (a b : Q) : Qltb a b = false <-> b <= a.
Proof. apply Qgtb_false. Qed.

Lemma length_map2 {A B C : Type} (f : A -> B -> C) xs ys :
  length xs = length ys -> length (map2 f xs ys) = length xs.
Proof.
  revert ys. induction xs as [|x xs IH]; intros [|y ys] H; simpl in *;
    try reflexivity; try discriminate.
  f_equal. apply IH. lia.
Qed.

Lemma length_assign_where c v a :
  length c = length a -> length v = length a ->
  length (assign_where c v a) = length a.
Proof.
  revert v a. induction c as [|b c IH]; intros [|x v] [|y a] Hc Hv;
    simpl in *; try reflexivity; try discriminate.
  f_equal. apply IH; lia.
Qed.

Lemma nth_error_map2 {A B C : Type} (f : A -> B -> C) xs ys i x y :
  nth_error xs i = Some x -> nth_error ys i = Some y ->
  nth_error (map2 f xs ys) i = Some (f x y).
Proof.
  revert ys i. induction xs as [|x0 xs IH]; intros [|y0 ys] [|i] Hx Hy;
    simpl in *; try discriminate.
  - injection Hx as ->. injection Hy as ->. reflexivity.
  - eauto.
Qed.

Lemma nth_error_assign_where c v a i b x y :
  nth_error c i = Some b -> nth_error v i = Some x -> nth_error a i = Some y ->
  nth_error (assign_where c v a) i = Some (if b then x else y).
Proof.
  revert v a i. induction c as [|b0 c IH]; intros [|x0 v] [|y0 a] [|i] Hc Hv Ha;
    simpl in *; try discriminate.
  - injection Hc as ->. injection Hv as ->. injection Ha as ->. reflexivity.
  - eauto.
Qed.

Lemma nth_error_zeros_like {A : Type} (a : list A) i :
  (i < length a)%nat -> nth_error (zeros_like a) i = Some 0.
Proof.
  intro H. unfold zeros_like. rewrite nth_error_repeat; auto.
Qed.

Lemma nth_error_lt_length {A : Type} (l : list A) i x :
  nth_error l i = Some x -> (i < length l)%nat.
Proof. intro H. apply nth_error_Some. congruence. Qed.

Lemma tauint_nth shape ta te tauc dt i s a e :
  nth_error shape i = Some s ->
  nth_error ta i = Some a -> nth_error te i = Some e ->
  nth_error (tauint shape ta te tauc dt) i = Some (node_tauint a e tauc dt).
Proof.
  intros Hs Ha He. unfold tauint, node_tauint, logical_and, gt_scalar, lt_scalar.
  pose proof (nth_error_lt_length _ _ _ Hs) as Hlen.
  assert (Hgt : forall l x, nth_error l i = Some x ->
            nth_error (map (fun y => Qgtb y tauc) l) i = Some (Qgtb x tauc))
    by (intros l x H; apply (map_nth_error (fun y => Qgtb y tauc) _ _ H)).
  assert (Hlt : forall l x, nth_error l i = Some x ->
            nth_error (map (fun y => Qltb y tauc) l) i = Some (Qltb x tauc))
    by (intros l x H; apply (map_nth_error (fun y => Qltb y tauc) _ _ H)).
  repeat (apply nth_error_assign_where);
    repeat match goal with
           | |- nth_error (map2 ?f _ _) _ = _ => apply (nth_error_map2 f)
           end;
    auto using nth_error_zeros_like.
Qed.

Lemma same_length3_true {A : Type} (a b c : list A) :
  same_length3 a b c = true <-> length a = length b /\ length b = length c.
Proof.
  unfold same_length3. rewrite andb_true_iff, !Nat.eqb_eq. reflexivity.
Qed.

Lemma length_tauint shape ta te tauc dt :
  length ta = length shape -> length te = length shape ->
  length (tauint shape ta te tauc dt) = length shape.
Proof.
  intros Ha He. unfold tauint, logical_and, gt_scalar, lt_scalar.
  assert (Hz : length (zeros_like shape) = length shape)
    by (unfold zeros_like; apply repeat_length).
  repeat first
    [ rewrite length_assign_where
    | rewrite length_map2
    | rewrite length_map
    | congruence ].
Qed.

(** The returned array has the length of the inputs. *)
Lemma calc_storm_eff_shear_stress_length tau0 tau1 tau2 tauc tr tb taueff :
  calc_storm_eff_shear_stress tau0 tau1 tau2 tauc tr tb = Some taueff ->
  length taueff = length tau0 /\ length tau1 = length tau0
  /\ length tau2 = length tau0.
Proof.
  unfold calc_storm_eff_shear_stress.
  destruct (same_length3 tau0 tau1 tau2) eqn:E; [|discriminate].
  apply same_length3_true in E. destruct E as [E1 E2].
  intros [= <-]. repeat split; try congruence.
  rewrite length_map2; rewrite !length_tauint; congruence.
Qed.

(** Arrays of one length are always accepted. *)
Lemma calc_storm_eff_shear_stress_total tau0 tau1 tau2 tauc tr tb :
  length tau1 = length tau0 -> length tau2 = length tau0 ->
  exists taueff,
    calc_storm_eff_shear_stress tau0 tau1 tau2 tauc tr tb = Some taueff.
Proof.
  intros H1 H2. unfold calc_storm_eff_shear_stress.
  replace (same_length3 tau0 tau1 tau2) with true; [eauto|].
  symmetry. apply same_length3_true. split; congruence.
Qed.

(** Each node is evaluated independently of the others. *)
Lemma calc_storm_eff_shear_stress_nth tau0 tau1 tau2 tauc tr tb taueff i t0 t1 t2 :
  calc_storm_eff_shear_stress tau0 tau1 tau2 tauc tr tb = Some taueff ->
  nth_error tau0 i = Some t0 -> nth_error tau1 i = Some t1 ->
  nth_error tau2 i = Some t2 ->
  nth_error taueff i = Some (node_taueff t0 t1 t2 tauc tr tb).
Proof.
  unfold calc_storm_eff_shear_stress.
  destruct (same_length3 tau0 tau1 tau2); [|discriminate].
  intros [= <-] H0 H1 H2. unfold node_taueff.
  apply (nth_error_map2 (fun i1 i2 => (i1 + i2) / (tr + tb) + tauc)).
  - eapply tauint_nth; eassumption.
  - eapply tauint_nth; eassumption.
Qed.

(** The four cases of one sub-interval, with strict comparisons as in the
    masks. *)
Lemma node_tauint_both_above a e tauc dt :
  tauc < a -> tauc < e ->
  node_tauint a e tauc dt = half * dt * (a + e - 2 * tauc).
Proof.
  intros Ha He. unfold node_tauint.
  assert (H1 : Qgtb a tauc = true) by (apply Qgtb_true; lra).
  assert (H2 : Qgtb e tauc = true) by (apply Qgtb_true; lra).
  assert (H3 : Qltb a tauc = false) by (apply Qltb_false; lra).
  assert (H4 : Qltb e tauc = false) by (apply Qltb_false; lra).
  rewrite H1, H2, H3, H4. reflexivity.
Qed.



Lemma node_tauint_none_above a e tauc dt :
  a <= tauc -> e <= tauc -> node_tauint a e tauc dt = 0.
Proof.
  intros Ha He. unfold node_tauint.
  assert (H1 : Qgtb a tauc = false) by (apply Qgtb_false; lra).
  assert (H2 : Qgtb e tauc = false) by (apply Qgtb_false; lra).
  rewrite H1, H2. simpl. rewrite andb_false_r. reflexivity.
Qed.

(** An endpoint that sits exactly on the threshold is neither above nor
    below it: no mask holds and the integral stays zero, whatever the other
    endpoint is. *)
Lemma node_tauint_start_on_threshold a e tauc dt :
  a == tauc -> node_tauint a e tauc dt = 0.
Proof.
  intros Ha. unfold node_tauint.
  assert (H1 : Qgtb a tauc = false) by (apply Qgtb_false; lra).
  assert (H3 : Qltb a tauc = false) by (apply Qltb_false; lra).
  rewrite H1, H3. reflexivity.
Qed.

Lemma node_tauint_end_on_threshold a e tauc dt :
  e == tauc -> node_tauint a e tauc dt = 0.
Proof.
  intros He. unfold node_tauint.
  assert (H1 : Qgtb e tauc = false) by (apply Qgtb_false; lra).
  assert (H3 : Qltb e tauc = false) by (apply Qltb_false; lra).
  rewrite H1, H3, !andb_false_r. reflexivity.
Qed.


(** *** The value of a node that rises above the threshold and falls back *)





(** *** An endpoint on the threshold *)

Lemma Forall_repeat {A : Type} (P : A -> Prop) (x : A) (n : nat) :
  P x -> Forall P (repeat x n).
Proof. intro H. induction n; simpl; constructor; assumption. Qed.

Lemma calc_storm_eff_shear_stress_repeat t0 t1 t2 tauc tr tb n :
  calc_storm_eff_shear_stress (repeat t0 n) (repeat t1 n) (repeat t2 n)
    tauc tr tb
  = Some (repeat (node_taueff t0 t1 t2 tauc tr tb) n).
Proof.
  destruct (calc_storm_eff_shear_stress_total
              (repeat t0 n) (repeat t1 n) (repeat t2 n) tauc tr tb)
    as [taueff E]; try (rewrite !repeat_length; reflexivity).
  rewrite E. f_equal.
  destruct (calc_storm_eff_shear_stress_length _ _ _ _ _ _ _ E) as [L _].
  rewrite repeat_length in L.
  apply nth_error_ext. intro i.
  destruct (Nat.lt_ge_cases i n) as [Hi|Hi].
  - rewrite (calc_storm_eff_shear_stress_nth _ _ _ _ _ _ _ i t0 t1 t2 E);
      try (apply nth_error_repeat; assumption).
    symmetry. apply nth_error_repeat. assumption.
  - transitivity (@None Q).
    + apply nth_error_None. lia.
    + symmetry. apply nth_error_None. rewrite repeat_length. lia.
Qed.

(** C2.  The scenario [tau0 = 0], [tau1 = 2], [tau2 = 1] at every node with
    [tauc = 0], [tr = 100], [tb = 900]: the program returns 1.35 at every
    node.  [tau0] sits on the threshold, so no mask of the first
    sub-interval holds and its trapezoid [0.5 * 100 * (0 + 2)] is left out;
    the value is [(0 + 1350) / 1000 + 0] and not 1.45. *)
Theorem calc_storm_eff_shear_stress_scenario (n : nat) :
  exists taueff,
    calc_storm_eff_shear_stress (repeat 0 n) (repeat 2 n) (repeat 1 n)
      0 100 900 = Some taueff
    /\ length taueff = n
    /\ Forall (fun x => x == 135 # 100 /\ ~ x == 145 # 100) taueff.
Proof.
  rewrite calc_storm_eff_shear_stress_repeat.
  eexists. split; [reflexivity|]. split; [apply repeat_length|].
  apply Forall_repeat. split.
  - reflexivity.
  - intro H. vm_compute in H. discriminate H.
Qed.

(** C1.  A node whose shear stress starts on the threshold ([tau0 = tauc = 1])
    and ends the event above it ([tau1 = 3]), with [tr = 2]: exactly one
    endpoint exceeds the threshold, and the triangle
    [0.5 * tr * (v - tauc) * ((v - tauc) / (v - u))] is 2, but the program
    leaves the integral of the sub-interval at 0 and returns
    [(0 + 4) / 4 + 1 = 2] where the triangle gives [(2 + 4) / 4 + 1]. *)
Theorem calc_storm_eff_shear_stress_on_threshold :
  tauint [1] [1] [3] 1 2 = [0]
  /\ half * 2 * (3 - 1) * ((3 - 1) / (3 - 1)) == 2
  /\ exists x,
       calc_storm_eff_shear_stress [1] [3] [3] 1 2 2 = Some [x]
       /\ x == 2 /\ ~ x == (2 + 4) / (2 + 2) + 1.
Proof.
  split; [reflexivity|]. split; [reflexivity|].
  eexists. split; [reflexivity|]. split; [reflexivity|].
  intro H. vm_compute in H. discriminate H.
Qed.

(** ** The numpy idioms, node by node *)

Lemma map2_chk_Some {A B C : Type} (f : A -> B -> C) xs ys res :
  map2_chk f xs ys = Some res ->
  length xs = length ys /\ res = map2 f xs ys.
Proof.
  unfold map2_chk. destruct (length xs =? length ys)%nat eqn:E;
    [|discriminate].
  apply Nat.eqb_eq in E. intros [= <-]. auto.
Qed.

Lemma map2_chk_nth {A B C : Type} (f : A -> B -> C) xs ys res i x y :
  map2_chk f xs ys = Some res ->
  nth_error xs i = Some x -> nth_error ys i = Some y ->
  nth_error res i = Some (f x y).
Proof.
  intros E Hx Hy. apply map2_chk_Some in E. destruct E as [_ ->].
  apply nth_error_map2; assumption.
Qed.

Lemma map2_chk_length {A B C : Type} (f : A -> B -> C) xs ys res :
  map2_chk f xs ys = Some res ->
  length res = length xs /\ length ys = length xs.
Proof.
  intros E. apply map2_chk_Some in E. destruct E as [L ->].
  rewrite length_map2; auto.
Qed.

Lemma nth_error_same_length {A B : Type} (xs : list A) (ys : list B) i x :
  length xs = length ys -> nth_error xs i = Some x ->
  exists y, nth_error ys i = Some y.
Proof.
  intros L Hx. apply nth_error_lt_length in Hx.
  destruct (nth_error ys i) eqn:E; [eauto|].
  apply nth_error_None in E. lia.
Qed.

Lemma divide_where_Some num den mask out res :
  divide_where num den mask out = Some res ->
  length num = length out /\ length den = length out
  /\ length mask = length out
  /\ res = assign_where mask (map2 Qdiv num den) out.
Proof.
  unfold divide_where.
  destruct ((length num =? length out)%nat && (length den =? length out)%nat
            && (length mask =? length out)%nat) eqn:E; [|discriminate].
  rewrite !andb_true_iff, !Nat.eqb_eq in E. intros [= <-]. tauto.
Qed.

Lemma divide_where_nth num den mask out res i n d b o :
  divide_where num den mask out = Some res ->
  nth_error num i = Some n -> nth_error den i = Some d ->
  nth_error mask i = Some b -> nth_error out i = Some o ->
  nth_error res i = Some (if b then n / d else o).
Proof.
  intros E Hn Hd Hb Ho. apply divide_where_Some in E.
  destruct E as (_ & _ & _ & ->).
  apply nth_error_assign_where; auto.
  apply (nth_error_map2 Qdiv); assumption.
Qed.

Lemma divide_where_length num den mask out res :
  divide_where num den mask out = Some res -> length res = length out.
Proof.
  intros E. apply divide_where_Some in E.
  destruct E as (L1 & L2 & L3 & ->).
  apply length_assign_where; [assumption|].
  rewrite length_map2; congruence.
Qed.

(** Area normalisation at one node. *)
Lemma area_norm_nth sqrt q area res i a :
  area_norm sqrt q area = Some res ->
  nth_error area i = Some a ->
  exists e, nth_error q i = Some e
    /\ nth_error res i = Some (if Qgtb a 0 then e / sqrt a else 0).
Proof.
  unfold area_norm. intros E Ha.
  pose proof (divide_where_Some _ _ _ _ _ E) as (L1 & L2 & _ & _).
  unfold zeros_like in L1, L2. rewrite repeat_length in L1, L2.
  rewrite length_map in L2.
  destruct (nth_error_same_length area q i a L2 Ha) as [e He].
  exists e. split; [assumption|].
  eapply divide_where_nth; try eassumption.
  - apply map_nth_error. assumption.
  - unfold gt_scalar. apply (map_nth_error (fun x => Qgtb x 0)). assumption.
  - apply nth_error_zeros_like. eapply nth_error_lt_length. eassumption.
Qed.

Lemma area_norm_length sqrt q area res :
  area_norm sqrt q area = Some res ->
  length res = length q /\ length area = length q.
Proof.
  unfold area_norm. intros E.
  pose proof (divide_where_length _ _ _ _ _ E) as L.
  pose proof (divide_where_Some _ _ _ _ _ E) as (_ & L2 & _ & _).
  unfold zeros_like in *. rewrite repeat_length in *.
  rewrite length_map in L2. auto.
Qed.

(** The critical discharge at one node. *)
Lemma critical_discharge_nth sqrt e0 ksp area S res i sl :
  critical_discharge sqrt e0 ksp area S = Some res ->
  nth_error S i = Some sl ->
  exists a, nth_error area i = Some a
    /\ nth_error res i
       = Some (if Qgtb sl 0 then e0 * sqrt a / (ksp * sl) else 0).
Proof.
  unfold critical_discharge. intros E Hs.
  pose proof (divide_where_Some _ _ _ _ _ E) as (L1 & _ & _ & _).
  unfold zeros_like in L1. rewrite repeat_length, length_map in L1.
  destruct (nth_error_same_length S area i sl (eq_sym L1) Hs) as [a Ha].
  exists a. split; [assumption|].
  eapply divide_where_nth; try eassumption.
  - apply (map_nth_error (fun a => e0 * sqrt a)). assumption.
  - apply (map_nth_error (fun s => ksp * s)). assumption.
  - unfold gt_scalar. apply (map_nth_error (fun x => Qgtb x 0)). assumption.
  - apply nth_error_zeros_like. eapply nth_error_lt_length. eassumption.
Qed.

Lemma critical_discharge_length sqrt e0 ksp area S res :
  critical_discharge sqrt e0 ksp area S = Some res ->
  length res = length S /\ length area = length S.
Proof.
  unfold critical_discharge. intros E.
  pose proof (divide_where_length _ _ _ _ _ E) as L.
  pose proof (divide_where_Some _ _ _ _ _ E) as (L1 & _ & _ & _).
  unfold zeros_like in *. rewrite repeat_length in *.
  rewrite length_map in L1. auto.
Qed.

(** Without a threshold the critical discharge vanishes. *)
Lemma critical_discharge_zero sqrt e0 ksp area S res :
  e0 == 0 ->
  critical_discharge sqrt e0 ksp area S = Some res ->
  Forall (fun x => x == 0) res.
Proof.
  intros H0 E. apply Forall_forall. intros x Hx.
  apply In_nth_error in Hx. destruct Hx as [i Hi].
  destruct (critical_discharge_length _ _ _ _ _ _ E) as [L _].
  destruct (nth_error_same_length res S i x L Hi) as [sl Hs].
  destruct (critical_discharge_nth _ _ _ _ _ _ i sl E Hs) as (a & _ & Hr).
  rewrite Hi in Hr. injection Hr as ->.
  destruct (Qgtb sl 0); [|reflexivity].
  rewrite H0. unfold Qdiv. ring.
Qed.

(** The discharge in excess of the critical one, at one node. *)
Lemma excess_discharge_nth q q0 res i x x0 :
  excess_discharge q q0 = Some res ->
  nth_error q i = Some x -> nth_error q0 i = Some x0 ->
  nth_error res i = Some (Qmax (x - x0) 0).
Proof.
  unfold excess_discharge. intros E Hx H0.
  apply (map2_chk_nth (fun x x0 => Qmax (x - x0) 0) q q0 res i x x0 E Hx H0).
Qed.

Lemma Qmax_excess_zero x x0 : x0 == 0 -> 0 <= x -> Qmax (x - x0) 0 == x.
Proof.
  intros H0 Hx. rewrite Q.max_l; lra.
Qed.

(** The clipped discharge at one node. *)
Lemma clip_discharge_nth q qmax res i x :
  clip_discharge q qmax = Some res ->
  nth_error q i = Some x ->
  exists m, nth_error qmax i = Some m
    /\ nth_error res i = Some (if Qgtb x m then m else x).
Proof.
  unfold clip_discharge.
  destruct (length q =? length qmax)%nat eqn:L; [|discriminate].
  apply Nat.eqb_eq in L. intros [= <-] Hx.
  destruct (nth_error_same_length q qmax i x L Hx) as [m Hm].
  exists m. split; [assumption|].
  apply nth_error_assign_where; auto.
  apply (nth_error_map2 Qgtb); assumption.
Qed.

Lemma clip_discharge_length q qmax res :
  clip_discharge q qmax = Some res ->
  length res = length q /\ length qmax = length q.
Proof.
  unfold clip_discharge.
  destruct (length q =? length qmax)%nat eqn:L; [|discriminate].
  apply Nat.eqb_eq in L. intros [= <-]. split; [|auto].
  apply length_assign_where; [|auto].
  rewrite length_map2; auto.
Qed.

Lemma clip_le x m : (if Qgtb x m then m else x) <= m.
Proof.
  destruct (Qgtb x m) eqn:E.
  - lra.
  - apply Qgtb_false in E. assumption.
Qed.

Lemma recharge_times_area_nth rv area qmax i m :
  recharge_times_area rv area = Some qmax ->
  nth_error qmax i = Some m ->
  exists a, nth_error area i = Some a
    /\ match rv with
       | RScalar x => m = x * a
       | RArray ra => exists x, nth_error ra i = Some x /\ m = x * a
       end.
Proof.
  destruct rv as [x|ra]; simpl; intros E Hm.
  - injection E as <-. rewrite nth_error_map in Hm.
    destruct (nth_error area i) as [a|]; [|discriminate].
    injection Hm as <-. eauto.
  - pose proof (map2_chk_length _ _ _ _ E) as [L1 L2].
    destruct (nth_error_same_length qmax ra i m L1 Hm) as [x Hx].
    destruct (nth_error_same_length qmax area i m) as [a Ha];
      [congruence|assumption|].
    rewrite (map2_chk_nth Qmult ra area qmax i x a E Hx Ha) in Hm.
    injection Hm as <-. eauto.
Qed.

(** * The step operations: general facts *)

Section MonadFacts.
Context {W : Type}.

Lemma bind_ok_inv {A B : Type} (m : M W A) (f : A -> M W B) s b s' :
  bind m f s = (inr b, s') ->
  exists a s1, m s = (inr a, s1) /\ f a s1 = (inr b, s').
Proof.
  unfold bind. destruct (m s) as [[e|a] s1]; [discriminate|]. eauto.
Qed.

Lemma bind_exn_inv {A B : Type} (m : M W A) (f : A -> M W B) s e s' :
  bind m f s = (inl e, s') ->
  m s = (inl e, s')
  \/ exists a s1, m s = (inr a, s1) /\ f a s1 = (inl e, s').
Proof.
  unfold bind. destruct (m s) as [[e1|a] s1]; intros E.
  - left. injection E as -> ->. reflexivity.
  - right. exists a, s1. split; [reflexivity | exact E].
Qed.

Lemma lift_opt_ok_inv {A : Type} e (o : option A) (s : model W) a s' :
  lift_opt e o s = (inr a, s') -> o = Some a /\ s' = s.
Proof.
  destruct o; simpl; unfold ret, raise; intros [= -> ->] || intros [=];
    auto.
Qed.

Lemma assign_slice_ok_inv (a v : list Q) (s : model W) x s' :
  assign_slice a v s = (inr x, s') ->
  x = v /\ length a = length v /\ s' = s.
Proof.
  unfold assign_slice.
  destruct (length a =? length v)%nat eqn:E; unfold ret, raise;
    intros [= <- <-]. apply Nat.eqb_eq in E. auto.
Qed.

(** *** Calls added to the log *)

Lemma emits_ret {A : Type} (a : A) : emits (ret (W:=W) a) [].
Proof.
  intro s. exists []. simpl. rewrite app_nil_r.
  repeat split; eauto; try (exists []; reflexivity).
Qed.

Lemma emits_raise {A : Type} e : emits (raise (W:=W) (A:=A) e) [].
Proof.
  intro s. exists []. simpl. rewrite app_nil_r.
  repeat split; eauto; try (exists []; reflexivity).
Qed.

Lemma emits_get : emits (get (W:=W)) [].
Proof.
  intro s. exists []. simpl. rewrite app_nil_r.
  repeat split; eauto; try (exists []; reflexivity).
Qed.

Lemma emits_modify (f : model W -> model W) :
  (forall s, log (f s) = log s) -> emits (modify f) [].
Proof.
  intros Hf s. exists []. simpl. rewrite app_nil_r, Hf.
  repeat split; eauto; try (exists []; reflexivity).
Qed.

Lemma emits_bind {A B : Type} (m : M W A) (f : A -> M W B) t1 t2 :
  emits m t1 -> (forall a, emits (f a) t2) -> emits (bind m f) (t1 ++ t2).
Proof.
  intros Hm Hf s. unfold bind.
  destruct (Hm s) as (e1 & L1 & [r1 P1] & F1).
  destruct (m s) as [[e|a] s1]; simpl in *.
  - exists e1. split; [assumption|]. split.
    + exists (r1 ++ t2). rewrite P1, app_assoc. reflexivity.
    + intros a [=].
  - specialize (F1 a eq_refl). subst e1.
    destruct (Hf a s1) as (e2 & L2 & [r2 P2] & F2).
    exists (t1 ++ e2). split; [|split].
    + rewrite L2, L1, app_assoc. reflexivity.
    + exists r2. rewrite P2, app_assoc. reflexivity.
    + intros b Hb. rewrite (F2 b Hb). reflexivity.
Qed.

Lemma emits_bind_nil {A B : Type} (m : M W A) (f : A -> M W B) t :
  emits m [] -> (forall a, emits (f a) t) -> emits (bind m f) t.
Proof. intros Hm Hf. apply (emits_bind m f [] t Hm Hf). Qed.

Lemma emits_bind_cons {A B : Type} (m : M W A) (f : A -> M W B) c t :
  emits m [c] -> (forall a, emits (f a) t) -> emits (bind m f) (c :: t).
Proof. intros Hm Hf. apply (emits_bind m f [c] t Hm Hf). Qed.

Lemma emits_lift_opt {A : Type} e (o : option A) :
  emits (lift_opt (W:=W) e o) [].
Proof. destruct o; [apply emits_ret | apply emits_raise]. Qed.

Lemma emits_assign_slice (a v : list Q) : emits (assign_slice (W:=W) a v) [].
Proof.
  unfold assign_slice. destruct (length a =? length v)%nat;
    [apply emits_ret | apply emits_raise].
Qed.

Lemma emits_for_each {A B : Type} (body : B -> A -> M W B)
  (calls : A -> list call) (xs : list A) :
  (forall acc x, emits (body acc x) (calls x)) ->
  forall acc, emits (for_each body xs acc) (flat_map calls xs).
Proof.
  intros Hb. induction xs as [|x xs IH]; intro acc; simpl.
  - apply emits_ret.
  - apply emits_bind; [apply Hb | apply IH].
Qed.

Lemma emits_float_division_by (d : Q) :
  emits (float_division_by (W:=W) d) [].
Proof.
  unfold float_division_by.
  destruct (Qeq_bool d 0); [apply emits_raise | apply emits_ret].
Qed.

(** *** Invariants *)

Lemma preserves_ret {A : Type} I (a : A) : preserves I (ret (W:=W) a).
Proof. intros s Hs. exact Hs. Qed.

Lemma preserves_raise {A : Type} I e : preserves I (raise (W:=W) (A:=A) e).
Proof. intros s Hs. exact Hs. Qed.

Lemma preserves_get I : preserves I (get (W:=W)).
Proof. intros s Hs. exact Hs. Qed.

Lemma preserves_modify (I : model W -> Prop) f :
  (forall s, I s -> I (f s)) -> preserves I (modify f).
Proof. intros Hf s Hs. apply Hf. exact Hs. Qed.

Lemma preserves_bind {A B : Type} I (m : M W A) (f : A -> M W B) :
  preserves I m -> (forall a, preserves I (f a)) -> preserves I (bind m f).
Proof.
  intros Hm Hf s Hs. unfold bind. specialize (Hm s Hs).
  destruct (m s) as [[e|a] s1]; simpl in *; [assumption|].
  apply Hf. assumption.
Qed.

Lemma preserves_lift_opt {A : Type} I e (o : option A) :
  preserves I (lift_opt (W:=W) e o).
Proof. destruct o; [apply preserves_ret | apply preserves_raise]. Qed.

Lemma preserves_assign_slice I (a v : list Q) :
  preserves I (assign_slice (W:=W) a v).
Proof.
  unfold assign_slice. destruct (length a =? length v)%nat;
    [apply preserves_ret | apply preserves_raise].
Qed.

Lemma preserves_for_each {A B : Type} I (body : B -> A -> M W B)
  (xs : list A) :
  (forall acc x, preserves I (body acc x)) ->
  forall acc, preserves I (for_each body xs acc).
Proof.
  intros Hb. induction xs as [|x xs IH]; intro acc; simpl.
  - apply preserves_ret.
  - apply preserves_bind; [apply Hb | apply IH].
Qed.

Lemma preserves_float_division_by I (d : Q) :
  preserves I (float_division_by (W:=W) d).
Proof.
  unfold float_division_by.
  destruct (Qeq_bool d 0); [apply preserves_raise | apply preserves_ret].
Qed.

Lemma float_division_by_ok_inv (d : Q) (s : model W) a s' :
  float_division_by d s = (inr a, s') -> ~ d == 0 /\ s' = s.
Proof.
  unfold float_division_by. destruct (Qeq_bool d 0) eqn:E.
  - discriminate.
  - unfold ret. intros [= _ <-]. split; [|reflexivity].
    intro Hd. apply Qeq_bool_iff in Hd. congruence.
Qed.

(** *** Exceptions that cannot occur *)

Lemma never_raises_ret {A : Type} e (a : A) :
  never_raises e (ret (W:=W) a).
Proof. intros s. simpl. discriminate. Qed.

Lemma never_raises_raise {A : Type} e e' :
  e <> e' -> never_raises e (raise (W:=W) (A:=A) e').
Proof. intros Hne s. simpl. congruence. Qed.

Lemma never_raises_get e : never_raises e (get (W:=W)).
Proof. intros s. simpl. discriminate. Qed.

Lemma never_raises_modify e f : never_raises e (modify (W:=W) f).
Proof. intros s. simpl. discriminate. Qed.

Lemma never_raises_bind {A B : Type} e (m : M W A) (f : A -> M W B) :
  never_raises e m -> (forall a, never_raises e (f a)) ->
  never_raises e (bind m f).
Proof.
  intros Hm Hf s. unfold bind. specialize (Hm s).
  destruct (m s) as [[e1|a] s1]; simpl in *; [|apply Hf].
  intros [= ->]. apply Hm. reflexivity.
Qed.

Lemma never_raises_lift_opt {A : Type} e e' (o : option A) :
  e <> e' -> never_raises e (lift_opt (W:=W) e' o).
Proof.
  intro Hne. destruct o;
    [apply never_raises_ret | apply never_raises_raise; assumption].
Qed.

Lemma never_raises_assign_slice e (a v : list Q) :
  e <> ShapeError -> never_raises e (assign_slice (W:=W) a v).
Proof.
  intro Hne. unfold assign_slice. destruct (length a =? length v)%nat;
    [apply never_raises_ret | apply never_raises_raise; assumption].
Qed.

(** *** Normal returns *)

Lemma returns_bind_last {A B : Type} (m : M W A) (f : A -> M W B) Q :
  (forall a, returns (f a) Q) -> returns (bind m f) Q.
Proof.
  intros Hf s b s' E. apply bind_ok_inv in E.
  destruct E as (a & s1 & _ & E). eapply Hf. eassumption.
Qed.

End MonadFacts.

(** * The calls of a step operation *)

Create HintDb emits discriminated.

#[export] Hint Resolve emits_ret emits_raise emits_get emits_lift_opt
  emits_assign_slice emits_float_division_by : emits.

#[export] Hint Extern 1 (emits (modify _) []) =>
  (apply emits_modify; intro; reflexivity) : emits.

(** Peels one statement off a computation: a component call first, a silent
    statement otherwise. *)
Ltac emits_step :=
  match goal with
  | |- emits (let '(_, _) := ?x in _) _ => destruct x
  | |- emits (match ?x with (_, _) => _ end) _ => destruct x
  | |- emits (bind _ _) (_ :: _) =>
      first [ apply emits_bind_cons; [solve [auto with emits] | intro]
            | apply emits_bind_nil; [solve [auto with emits] | intro] ]
  | |- emits (bind _ _) _ =>
      apply emits_bind_nil; [solve [auto with emits] | intro]
  | |- emits _ _ => solve [auto with emits]
  end.

Ltac emits_steps := repeat emits_step.

Section Calls.
Context {W : Type} `{Collaborators W}.

Lemma emits_emit c : emits (emit (W:=W) c) [c].
Proof.
  intro s. exists [c]. simpl.
  repeat split; eauto; try (exists []; rewrite app_nil_r; reflexivity).
Qed.

Lemma emits_set_recharge v : emits (set_recharge (W:=W) v) [].
Proof. apply emits_modify. reflexivity. Qed.

Lemma emits_run_solver p dt :
  emits (run_with_adaptive_time_step_solver p dt) [gw_advance_call p dt].
Proof.
  unfold run_with_adaptive_time_step_solver.
  apply emits_bind_cons; [apply emits_emit | intros _].
  apply emits_bind_nil; [apply emits_get | intros s].
  destruct (gdp_run_with_adaptive_time_step_solver _ _ _).
  - apply emits_modify. reflexivity.
  - apply emits_raise.
Qed.

Lemma emits_store_accumulation (res : option (W * (list Q * list Q))) :
  emits (store_accumulation res) [].
Proof.
  unfold store_accumulation. destruct res as [[w [a q]]|].
  - apply emits_bind_nil; [apply emits_modify; reflexivity | intros _].
    apply emits_ret.
  - apply emits_raise.
Qed.

Lemma emits_accumulate_flow b :
  emits (accumulate_flow b) [accumulate_flow_call b].
Proof.
  unfold accumulate_flow.
  apply emits_bind_cons; [apply emits_emit | intros _].
  apply emits_bind_nil; [apply emits_get | intros s].
  apply emits_store_accumulation.
Qed.

Lemma emits_number_of_substeps : emits number_of_substeps [].
Proof.
  unfold number_of_substeps.
  apply emits_bind_nil; [apply emits_get | intros s]. apply emits_ret.
Qed.

Lemma emits_shear_stress : emits shear_stress [].
Proof.
  unfold shear_stress.
  apply emits_bind_nil; [apply emits_get | intros s]. apply emits_ret.
Qed.

Lemma emits_erosion_from_shear_stress : emits erosion_from_shear_stress [].
Proof.
  unfold erosion_from_shear_stress.
  apply emits_bind_nil; [apply emits_get | intros s]. apply emits_ret.
Qed.

Lemma emits_assign_tau v : emits (assign_tau (W:=W) v) [].
Proof.
  unfold assign_tau.
  apply emits_bind_nil; [apply emits_get | intros s].
  apply emits_bind_nil; [apply emits_assign_slice | intros t].
  apply emits_modify. reflexivity.
Qed.

Lemma emits_iadd_dzdt f x : emits (iadd_dzdt (W:=W) f x) [].
Proof.
  unfold iadd_dzdt.
  apply emits_bind_nil; [apply emits_get | intros s].
  destruct (dzdt s).
  - apply emits_bind_nil; [apply emits_lift_opt | intros d].
    apply emits_modify. reflexivity.
  - apply emits_raise.
Qed.

Lemma emits_update_max_substeps_storm : emits update_max_substeps_storm [].
Proof.
  unfold update_max_substeps_storm.
  apply emits_bind_nil; [apply emits_number_of_substeps | intros n].
  apply emits_modify. reflexivity.
Qed.

Lemma emits_update_max_substeps_interstorm :
  emits update_max_substeps_interstorm [].
Proof.
  unfold update_max_substeps_interstorm.
  apply emits_bind_nil; [apply emits_number_of_substeps | intros n].
  apply emits_modify. reflexivity.
Qed.

Lemma emits_reset_max_substeps : emits (reset_max_substeps (W:=W)) [].
Proof.
  unfold reset_max_substeps.
  apply emits_bind_nil; [apply emits_modify; reflexivity | intros _].
  apply emits_modify. reflexivity.
Qed.

Lemma emits_assign_q_an q : emits (assign_q_an q) [].
Proof.
  unfold assign_q_an.
  apply emits_bind_nil; [apply emits_get | intros s].
  apply emits_bind_nil; [apply emits_lift_opt | intros n].
  apply emits_bind_nil; [apply emits_assign_slice | intros a].
  apply emits_modify. reflexivity.
Qed.

Lemma emits_modify_world (f : W -> W) :
  emits (modify (fun s => set_world (f (world s)) s)) [].
Proof. apply emits_modify. reflexivity. Qed.

End Calls.

#[export] Hint Resolve emits_set_recharge emits_run_solver
  emits_accumulate_flow emits_number_of_substeps emits_shear_stress
  emits_erosion_from_shear_stress emits_assign_tau emits_iadd_dzdt
  emits_update_max_substeps_storm emits_update_max_substeps_interstorm
  emits_reset_max_substeps emits_assign_q_an emits_modify_world : emits.

Section LoopCalls.
Context {W : Type} `{Collaborators W} (P : params).

Lemma emits_finalize v : emits (HydrologyEventStreamPower.finalize P v) [].
Proof.
  unfold HydrologyEventStreamPower.finalize.
  apply emits_bind_nil; [apply emits_get | intros s].
  apply emits_bind_nil; [apply emits_assign_slice | intros e].
  apply emits_bind_nil; [apply emits_modify; reflexivity | intros _].
  apply emits_assign_q_an.
Qed.

Lemma emits_integrate_body tau2 st :
  emits (HydrologyIntegrateShearStress.event_body P tau2 st)
    (iteration_calls true st).
Proof.
  unfold HydrologyIntegrateShearStress.event_body, iteration_calls.
  emits_steps.
Qed.

Lemma emits_shear_body dzdt2 st :
  emits (HydrologyEventShearStress.event_body P dzdt2 st)
    (iteration_calls true st).
Proof.
  unfold HydrologyEventShearStress.event_body, iteration_calls.
  emits_steps.
Qed.

Lemma emits_record_wtrel :
  emits (HydrologyEventShearStress.record_wtrel (W:=W) P) [].
Proof.
  unfold HydrologyEventShearStress.record_wtrel.
  destruct (has_wt_base_elev P); auto with emits.
Qed.

Lemma emits_shear_body_record_state dzdt2 st :
  emits (HydrologyEventShearStress.event_body_record_state P dzdt2 st)
    (iteration_calls false st).
Proof.
  pose proof emits_record_wtrel.
  unfold HydrologyEventShearStress.event_body_record_state, iteration_calls.
  emits_steps.
Qed.

Lemma emits_stream_power_body acc st :
  emits (HydrologyEventStreamPower.event_body acc st)
    (iteration_calls true st).
Proof.
  unfold HydrologyEventStreamPower.event_body, iteration_calls.
  emits_steps.
Qed.

Lemma emits_threshold_body acc st :
  emits (HydrologyEventThresholdStreamPower.event_body acc st)
    (iteration_calls true st).
Proof.
  unfold HydrologyEventThresholdStreamPower.event_body, iteration_calls.
  emits_steps.
Qed.

Lemma emits_vadose_recharge st :
  emits (HydrologyEventVadoseStreamPower.vadose_recharge st) [].
Proof.
  unfold HydrologyEventVadoseStreamPower.vadose_recharge.
  emits_steps.
Qed.

Lemma emits_vadose_body acc st :
  emits (HydrologyEventVadoseStreamPower.event_body acc st)
    (iteration_calls true st).
Proof.
  pose proof emits_vadose_recharge.
  unfold HydrologyEventVadoseStreamPower.event_body, iteration_calls.
  emits_steps.
Qed.

End LoopCalls.

(** * What the loops leave untouched *)

Create HintDb preserves discriminated.

#[export] Hint Resolve preserves_ret preserves_raise preserves_get
  preserves_lift_opt preserves_assign_slice preserves_float_division_by
  : preserves.

#[export] Hint Extern 1 (Framed _) => exact _ : preserves.

Ltac preserves_step :=
  match goal with
  | |- preserves _ (let '(_, _) := ?x in _) => destruct x
  | |- preserves _ (match ?x with (_, _) => _ end) => destruct x
  | |- preserves _ (bind _ _) =>
      apply preserves_bind; [solve [auto with preserves] | intro]
  | |- preserves _ _ => solve [auto with preserves]
  end.

Ltac preserves_steps := repeat preserves_step.

Section Frames.
Context {W : Type} `{Collaborators W}.
Context (I : model W -> Prop) `{!Framed I}.

Lemma preserves_emit c : preserves I (emit c).
Proof. apply preserves_modify. intros s. apply framed_log. Qed.

Lemma preserves_modify_world (f : model W -> W) :
  preserves I (modify (fun s => set_world (f s) s)).
Proof. apply preserves_modify. intros s. apply framed_world. Qed.

Lemma preserves_find_pits : preserves I find_pits.
Proof.
  unfold find_pits. apply preserves_bind; [apply preserves_emit | intros _].
  apply preserves_modify. intros s. apply framed_world.
Qed.

Lemma preserves_lmb_run : preserves I lmb_run.
Proof.
  unfold lmb_run. apply preserves_bind; [apply preserves_emit | intros _].
  apply preserves_modify. intros s. apply framed_world.
Qed.

Lemma preserves_find_and_route_pits : preserves I find_and_route_pits.
Proof.
  unfold find_and_route_pits, number_of_pits.
  apply preserves_bind; [apply preserves_find_pits | intros _].
  apply preserves_bind.
  - apply preserves_bind; [apply preserves_get | intros s].
    apply preserves_ret.
  - intros n. destruct (0 <? n)%nat;
      [apply preserves_lmb_run | apply preserves_ret].
Qed.

Lemma preserves_fd_run : preserves I fd_run.
Proof.
  unfold fd_run. apply preserves_bind; [apply preserves_emit | intros _].
  apply preserves_modify. intros s. apply framed_world.
Qed.

Lemma preserves_set_recharge v : preserves I (set_recharge v).
Proof. apply preserves_modify. intros s. apply framed_gdp_recharge. Qed.

Lemma preserves_run_solver p dt :
  preserves I (run_with_adaptive_time_step_solver p dt).
Proof.
  unfold run_with_adaptive_time_step_solver.
  apply preserves_bind; [apply preserves_emit | intros _].
  apply preserves_bind; [apply preserves_get | intros s].
  destruct (gdp_run_with_adaptive_time_step_solver _ _ _).
  - apply preserves_modify. intros s'. apply framed_world.
  - apply preserves_raise.
Qed.

Lemma preserves_store_accumulation (res : option (W * (list Q * list Q))) :
  preserves I (store_accumulation res).
Proof.
  unfold store_accumulation. destruct res as [[w [a q]]|].
  - apply preserves_bind; [|intros _; apply preserves_ret].
    apply preserves_modify. intros s Hs.
    apply framed_world, framed_drainage_area, framed_discharge, Hs.
  - apply preserves_raise.
Qed.

Lemma preserves_accumulate_flow b : preserves I (accumulate_flow b).
Proof.
  unfold accumulate_flow.
  apply preserves_bind; [apply preserves_emit | intros _].
  apply preserves_bind; [apply preserves_get | intros s].
  apply preserves_store_accumulation.
Qed.

Lemma preserves_fa_run : preserves I fa_run.
Proof.
  unfold fa_run.
  apply preserves_bind; [apply preserves_emit | intros _].
  apply preserves_bind; [apply preserves_get | intros s].
  apply preserves_store_accumulation.
Qed.

Lemma preserves_number_of_substeps : preserves I number_of_substeps.
Proof.
  unfold number_of_substeps.
  apply preserves_bind; [apply preserves_get | intros s].
  apply preserves_ret.
Qed.

Lemma preserves_shear_stress : preserves I shear_stress.
Proof.
  unfold shear_stress.
  apply preserves_bind; [apply preserves_get | intros s].
  apply preserves_ret.
Qed.

Lemma preserves_erosion_from_shear_stress :
  preserves I erosion_from_shear_stress.
Proof.
  unfold erosion_from_shear_stress.
  apply preserves_bind; [apply preserves_get | intros s].
  apply preserves_ret.
Qed.

Lemma preserves_assign_tau v : preserves I (assign_tau v).
Proof.
  unfold assign_tau.
  apply preserves_bind; [apply preserves_get | intros s].
  apply preserves_bind; [apply preserves_assign_slice | intros t].
  apply preserves_modify. intros s'. apply framed_tau.
Qed.

Lemma preserves_iadd_dzdt f x : preserves I (iadd_dzdt f x).
Proof.
  unfold iadd_dzdt.
  apply preserves_bind; [apply preserves_get | intros s].
  destruct (dzdt s).
  - apply preserves_bind; [apply preserves_lift_opt | intros d].
    apply preserves_modify. intros s'. apply framed_dzdt.
  - apply preserves_raise.
Qed.

Lemma preserves_set_dzdt d : preserves I (modify (set_dzdt d)).
Proof. apply preserves_modify. intros s. apply framed_dzdt. Qed.

Lemma preserves_update_max_substeps_storm :
  preserves I update_max_substeps_storm.
Proof.
  unfold update_max_substeps_storm.
  apply preserves_bind; [apply preserves_number_of_substeps | intros n].
  apply preserves_modify. intros s. apply framed_max_substeps_storm.
Qed.

Lemma preserves_update_max_substeps_interstorm :
  preserves I update_max_substeps_interstorm.
Proof.
  unfold update_max_substeps_interstorm.
  apply preserves_bind; [apply preserves_number_of_substeps | intros n].
  apply preserves_modify. intros s. apply framed_max_substeps_interstorm.
Qed.

Lemma preserves_reset_max_substeps : preserves I reset_max_substeps.
Proof.
  unfold reset_max_substeps.
  apply preserves_bind; [|intros _].
  - apply preserves_modify. intros s. apply framed_max_substeps_storm.
  - apply preserves_modify. intros s. apply framed_max_substeps_interstorm.
Qed.

Lemma preserves_set_r x : preserves I (modify (set_r x)).
Proof. apply preserves_modify. intros s. apply framed_r. Qed.

End Frames.

#[export] Hint Resolve preserves_emit preserves_modify_world
  preserves_find_and_route_pits preserves_fd_run preserves_set_recharge
  preserves_run_solver preserves_accumulate_flow preserves_fa_run
  preserves_number_of_substeps preserves_shear_stress
  preserves_erosion_from_shear_stress preserves_assign_tau
  preserves_iadd_dzdt preserves_set_dzdt preserves_update_max_substeps_storm
  preserves_update_max_substeps_interstorm preserves_reset_max_substeps
  preserves_set_r : preserves.

Section LoopFrames.
Context {W : Type} `{Collaborators W} (P : params).
Context (I : model W -> Prop) `{!Framed I}.

Lemma preserves_integrate_body tau2 st :
  preserves I (HydrologyIntegrateShearStress.event_body P tau2 st).
Proof.
  unfold HydrologyIntegrateShearStress.event_body. preserves_steps.
Qed.

Lemma preserves_shear_body dzdt2 st :
  preserves I (HydrologyEventShearStress.event_body P dzdt2 st).
Proof.
  unfold HydrologyEventShearStress.event_body. preserves_steps.
Qed.

Lemma preserves_record_wtrel :
  preserves I (HydrologyEventShearStress.record_wtrel P).
Proof.
  unfold HydrologyEventShearStress.record_wtrel.
  destruct (has_wt_base_elev P); auto with preserves.
Qed.

Lemma preserves_shear_body_record_state dzdt2 st :
  preserves I (HydrologyEventShearStress.event_body_record_state P dzdt2 st).
Proof.
  pose proof preserves_record_wtrel.
  unfold HydrologyEventShearStress.event_body_record_state.
  preserves_steps.
Qed.

Lemma preserves_stream_power_body acc st :
  preserves I (HydrologyEventStreamPower.event_body acc st).
Proof.
  unfold HydrologyEventStreamPower.event_body. preserves_steps.
Qed.

Lemma preserves_threshold_body acc st :
  preserves I (HydrologyEventThresholdStreamPower.event_body acc st).
Proof.
  unfold HydrologyEventThresholdStreamPower.event_body. preserves_steps.
Qed.

Lemma preserves_vadose_recharge st :
  preserves I (HydrologyEventVadoseStreamPower.vadose_recharge st).
Proof.
  unfold HydrologyEventVadoseStreamPower.vadose_recharge. preserves_steps.
Qed.

Lemma preserves_vadose_body acc st :
  preserves I (HydrologyEventVadoseStreamPower.event_body acc st).
Proof.
  pose proof preserves_vadose_recharge.
  unfold HydrologyEventVadoseStreamPower.event_body. preserves_steps.
Qed.

End LoopFrames.

(** * The order of the component calls *)

#[export] Instance Framed_forcing_is {W : Type} (f : list storm) :
  Framed (W:=W) (forcing_is f).
Proof. split; intros x s Hs; exact Hs. Qed.

#[export] Instance Framed_committed_fields {W : Type} (e n : list Q) :
  Framed (W:=W) (committed_fields e n).
Proof. split; intros x s Hs; exact Hs. Qed.

#[export] Instance Framed_Q0_is {W : Type} (c : list Q) :
  Framed (W:=W) (Q0_is c).
Proof. split; intros x s Hs; exact Hs. Qed.

Section Prologue.
Context {W : Type} `{Collaborators W}.

Lemma bind_run {A B : Type} (m : M W A) (f : A -> M W B) s a s1 :
  m s = (inr a, s1) -> bind m f s = f a s1.
Proof. intro E. unfold bind. rewrite E. reflexivity. Qed.

Lemma find_and_route_pits_run s :
  find_and_route_pits s = (inr tt, after_pits s).
Proof.
  unfold after_pits, find_and_route_pits, find_pits, number_of_pits,
    lmb_run, emit, bind, modify, get, ret. simpl.
  destruct (0 <? dfr_number_of_pits (dfr_find_pits (world s)))%nat;
    reflexivity.
Qed.

Lemma log_after_pits s :
  log (after_pits s)
  = log s ++ pit_calls (dfr_number_of_pits (dfr_find_pits (world s))).
Proof.
  unfold after_pits, find_and_route_pits, find_pits, number_of_pits,
    lmb_run, emit, bind, modify, get, ret, pit_calls. simpl.
  destruct (0 <? dfr_number_of_pits (dfr_find_pits (world s)))%nat; simpl.
  - rewrite <- app_assoc. reflexivity.
  - reflexivity.
Qed.

Lemma world_after_pits_eq s :
  world (after_pits s) = world_after_pits (world s).
Proof.
  unfold after_pits, find_and_route_pits, find_pits, number_of_pits,
    lmb_run, emit, bind, modify, get, ret, world_after_pits. simpl.
  destruct (0 <? dfr_number_of_pits (dfr_find_pits (world s)))%nat;
    reflexivity.
Qed.

Lemma gdp_recharge_after_pits s :
  gdp_recharge (after_pits s) = gdp_recharge s.
Proof.
  unfold after_pits, find_and_route_pits, find_pits, number_of_pits,
    lmb_run, emit, bind, modify, get, ret. simpl.
  destruct (0 <? dfr_number_of_pits (dfr_find_pits (world s)))%nat;
    reflexivity.
Qed.

Lemma after_pits_preserves (I : model W -> Prop) `{!Framed I} s :
  I s -> I (after_pits s).
Proof. intro Hs. apply (preserves_find_and_route_pits I s Hs). Qed.

Lemma fd_run_run s : fd_run s = (inr tt, after_fd s).
Proof. reflexivity. Qed.

Lemma log_after_fd s : log (after_fd s) = log s ++ [fd_run_one_step_call].
Proof. reflexivity. Qed.

Lemma world_after_fd s : world (after_fd s) = fd_run_one_step (world s).
Proof. reflexivity. Qed.

Lemma after_fd_preserves (I : model W -> Prop) `{!Framed I} s :
  I s -> I (after_fd s).
Proof. intro Hs. apply (preserves_fd_run I s Hs). Qed.

Lemma generate_exp_precip_run storms (s : model W) :
  generate_exp_precip storms s = (inr tt, set_forcing (Some storms) s).
Proof. reflexivity. Qed.

Lemma reset_max_substeps_run (s : model W) :
  reset_max_substeps s
  = (inr tt,
     set_max_substeps_interstorm 0%nat (set_max_substeps_storm 0%nat s)).
Proof. reflexivity. Qed.

Lemma stored_forcing_run f (s : model W) :
  forcing s = Some f -> stored_forcing s = (inr f, s).
Proof.
  intro E. unfold stored_forcing, bind, get. rewrite E. reflexivity.
Qed.

(** *** Calls under an invariant *)

Lemma emits_under_intro {A : Type} I (m : M W A) t :
  emits m t -> preserves I m -> emits_under I m t.
Proof. intros He Hp s Hs. split; [apply Hp, Hs | apply He]. Qed.

Lemma emits_under_bind {A B : Type} I (m : M W A) (f : A -> M W B) t1 t2 :
  emits_under I m t1 -> (forall a, emits_under I (f a) t2) ->
  emits_under I (bind m f) (t1 ++ t2).
Proof.
  intros Hm Hf s Hs. unfold bind.
  destruct (Hm s Hs) as (I1 & e1 & L1 & [r1 P1] & F1).
  destruct (m s) as [[e|a] s1]; simpl in *.
  - split; [assumption|]. exists e1. split; [assumption|]. split.
    + exists (r1 ++ t2). rewrite P1, app_assoc. reflexivity.
    + intros a [=].
  - specialize (F1 a eq_refl). subst e1.
    destruct (Hf a s1 I1) as (I2 & e2 & L2 & [r2 P2] & F2).
    split; [assumption|].
    exists (t1 ++ e2). split; [|split].
    + rewrite L2, L1, app_assoc. reflexivity.
    + exists r2. rewrite P2, app_assoc. reflexivity.
    + intros b Hb. rewrite (F2 b Hb). reflexivity.
Qed.

Lemma emits_under_bind_nil {A B : Type} I (m : M W A) (f : A -> M W B) t :
  emits m [] -> preserves I m -> (forall a, emits_under I (f a) t) ->
  emits_under I (bind m f) t.
Proof.
  intros He Hp Hf.
  apply (emits_under_bind I m f [] t); [|assumption].
  apply emits_under_intro; assumption.
Qed.

Lemma emits_under_stored_forcing {B : Type} f (k : list storm -> M W B) t :
  emits_under (forcing_is f) (k f) t ->
  emits_under (forcing_is f) (bind stored_forcing k) t.
Proof.
  intros Hk s Hs. rewrite (bind_run _ _ _ _ _ (stored_forcing_run f s Hs)).
  apply Hk, Hs.
Qed.

Lemma emits_under_at {A : Type} I (m : M W A) t s :
  emits_under I m t -> I s ->
  exists evs,
    log (snd (m s)) = log s ++ evs
    /\ (exists rest, t = evs ++ rest)
    /\ (forall a, fst (m s) = inr a -> evs = t).
Proof. intros Hm Hs. apply (Hm s Hs). Qed.

End Prologue.

#[export] Instance Framed_True {W : Type} : Framed (W:=W) (fun _ => True).
Proof. split; intros; exact Logic.I. Qed.

Section OperationCalls.
Context {W : Type} `{Collaborators W} (P : params).

Lemma preserves_finalize (I : model W -> Prop) v :
  (forall x s, I s -> I (set_q_eff x s)) ->
  (forall x s, I s -> I (set_q_an x s)) ->
  preserves I (HydrologyEventStreamPower.finalize P v).
Proof.
  intros He Hn.
  unfold HydrologyEventStreamPower.finalize, assign_q_an.
  repeat first
    [ apply preserves_bind; [|intro]
    | apply preserves_get | apply preserves_assign_slice
    | apply preserves_lift_opt
    | apply preserves_modify; intros s'; first [apply He | apply Hn] ].
Qed.

Lemma emits_calc_critical_discharge :
  emits (HydrologyEventThresholdStreamPower.calc_critical_discharge P)
    [accumulate_flow_call false].
Proof.
  unfold HydrologyEventThresholdStreamPower.calc_critical_discharge.
  emits_steps.
Qed.

Lemma preserves_calc_critical_discharge (I : model W -> Prop) `{!Framed I} :
  (forall x s, I s -> I (set_Q0 x s)) ->
  preserves I (HydrologyEventThresholdStreamPower.calc_critical_discharge P).
Proof.
  intros HQ.
  unfold HydrologyEventThresholdStreamPower.calc_critical_discharge.
  preserves_steps. apply preserves_modify. intros s'. apply HQ.
Qed.

End OperationCalls.

(** The lemma of a loop body, chosen by its name. *)
Ltac body_calls :=
  lazymatch goal with
  | |- emits (HydrologyIntegrateShearStress.event_body _ _ _) _ =>
      apply emits_integrate_body
  | |- emits (HydrologyEventShearStress.event_body _ _ _) _ =>
      apply emits_shear_body
  | |- emits (HydrologyEventShearStress.event_body_record_state _ _ _) _ =>
      apply emits_shear_body_record_state
  | |- emits (HydrologyEventStreamPower.event_body _ _) _ =>
      apply emits_stream_power_body
  | |- emits (HydrologyEventThresholdStreamPower.event_body _ _) _ =>
      apply emits_threshold_body
  | |- emits (HydrologyEventVadoseStreamPower.event_body _ _) _ =>
      apply emits_vadose_body
  end.

Ltac body_frame :=
  lazymatch goal with
  | |- preserves _ (HydrologyIntegrateShearStress.event_body _ _ _) =>
      apply preserves_integrate_body
  | |- preserves _ (HydrologyEventShearStress.event_body _ _ _) =>
      apply preserves_shear_body
  | |- preserves _
         (HydrologyEventShearStress.event_body_record_state _ _ _) =>
      apply preserves_shear_body_record_state
  | |- preserves _ (HydrologyEventStreamPower.event_body _ _) =>
      apply preserves_stream_power_body
  | |- preserves _ (HydrologyEventThresholdStreamPower.event_body _ _) =>
      apply preserves_threshold_body
  | |- preserves _ (HydrologyEventVadoseStreamPower.event_body _ _) =>
      apply preserves_vadose_body
  end; exact _.

(** The statements between the flow direction update and the loop are
    silent; the loop adds the calls of its iterations; what follows the loop
    is silent. *)
Ltac under_step I :=
  match goal with
  | |- emits_under _ (let '(_, _) := ?x in _) _ => destruct x
  | |- emits_under _ (match ?x with (_, _) => _ end) _ => destruct x
  | |- emits_under _ (bind stored_forcing _) _ =>
      apply emits_under_stored_forcing
  | |- emits_under _ (bind (for_each _ _ _) _) ?t =>
      rewrite <- (app_nil_r t); apply emits_under_bind;
      [ apply emits_under_intro;
        [ apply emits_for_each; intros; body_calls
        | apply preserves_for_each; intros; body_frame ]
      | intro ]
  | |- emits_under _
         (bind (HydrologyEventThresholdStreamPower.calc_critical_discharge _) _)
         (_ :: _) =>
      apply (emits_under_bind I _ _ [accumulate_flow_call false]);
      [ apply emits_under_intro;
        [ apply emits_calc_critical_discharge
        | apply preserves_calc_critical_discharge;
          [exact _ | intros ? ? Hs; exact Hs] ]
      | intro ]
  | |- emits_under _ (bind _ _) _ =>
      apply emits_under_bind_nil;
      [ solve [auto with emits] | solve [auto with preserves] | intro ]
  | |- emits_under _ (HydrologyEventStreamPower.finalize _ _) _ =>
      apply emits_under_intro;
      [ apply emits_finalize
      | apply preserves_finalize; intros ? ? Hs; exact Hs ]
  | |- emits_under _ (ret _) _ =>
      apply emits_under_intro; [apply emits_ret | apply preserves_ret]
  end.

(** From the state [s0] in which pit detection starts (its log and world are
    those of [s], and [H0] proves [I s0]): run the prologue, then follow the
    rest under [I]. *)
Ltac calls_from I s s0 H0 T :=
  rewrite (bind_run _ _ _ _ _ (find_and_route_pits_run _));
  rewrite (bind_run _ _ _ _ _ (fd_run_run _));
  let s3 := fresh "s3" in
  set (s3 := after_fd (after_pits s0));
  assert (H3 : I s3)
    by exact (after_fd_preserves I _ (after_pits_preserves I s0 H0));
  assert (L3 : log s3
               = log s ++ pit_calls
                   (dfr_number_of_pits (dfr_find_pits (world s)))
                   ++ [fd_run_one_step_call])
    by (unfold s3; rewrite log_after_fd, log_after_pits;
        cbn; rewrite <- app_assoc; reflexivity);
  match goal with
  | |- context [fst (?m s3)] =>
      assert (HR : emits_under I m T) by (repeat under_step I);
      destruct (emits_under_at _ _ _ s3 HR H3) as (evs & L & Pf & Fu);
      exists evs; rewrite L, L3, <- !app_assoc; simpl;
      repeat split; assumption
  end.

Section OperationCalls2.
Context {W : Type} `{Collaborators W} (P : params).

(** The calls of an operation with an event loop: pit detection, filling if
    there are pits, the update of the flow directions, and then a prefix of
    the calls of the loop, all of them when the operation returns. *)
Lemma run_op_calls (op : step_op) (storms : list storm) (s : model W) :
  has_event_loop op = true ->
  (op = EventShearStress_run_step_record_state -> forcing s <> None) ->
  exists evs,
    log (snd (run_op P op storms s))
    = log s ++ pit_calls (dfr_number_of_pits (dfr_find_pits (world s)))
        ++ fd_run_one_step_call :: evs
    /\ (exists rest,
          area_update_calls op
            ++ flat_map (iteration_calls (floors_interstorm op))
                 (loop_forcing op storms s)
          = evs ++ rest)
    /\ (forall a, fst (run_op P op storms s) = inr a ->
        evs = area_update_calls op
                ++ flat_map (iteration_calls (floors_interstorm op))
                     (loop_forcing op storms s)).
Proof.
  intros Hloop Hf.
  destruct op; try discriminate Hloop;
    cbn [run_op loop_forcing floors_interstorm area_update_calls app].
  - unfold HydrologyIntegrateShearStress.run_step.
    rewrite (bind_run _ _ _ _ _ (generate_exp_precip_run storms s)).
    calls_from (forcing_is (W:=W) storms) s
      (set_forcing (Some storms) s) (eq_refl (Some storms))
      (flat_map (iteration_calls true) storms).
  - unfold HydrologyEventShearStress.run_step.
    rewrite (bind_run _ _ _ _ _ (generate_exp_precip_run storms s)).
    calls_from (forcing_is (W:=W) storms) s
      (set_forcing (Some storms) s) (eq_refl (Some storms))
      (flat_map (iteration_calls true) storms).
  - unfold HydrologyEventShearStress.run_step_record_state.
    destruct (forcing s) as [f|] eqn:Ef; [|exfalso; apply Hf; reflexivity].
    rewrite (bind_run _ _ _ _ _ (stored_forcing_run f s Ef)).
    rewrite (bind_run _ _ _ _ _ (reset_max_substeps_run s)).
    calls_from (forcing_is (W:=W) f) s
      (set_max_substeps_interstorm 0%nat (set_max_substeps_storm 0%nat s))
      Ef
      (flat_map (iteration_calls false) f).
  - unfold HydrologyEventStreamPower.run_step.
    calls_from (fun _ : model W => True) s s Logic.I
      (flat_map (iteration_calls true) storms).
  - unfold HydrologyEventStreamPower.run_step_record_state.
    rewrite (bind_run _ _ _ _ _ (generate_exp_precip_run storms s)).
    calls_from (forcing_is (W:=W) storms) s
      (set_forcing (Some storms) s) (eq_refl (Some storms))
      (flat_map (iteration_calls true) storms).
  - unfold HydrologyEventThresholdStreamPower.run_step.
    calls_from (fun _ : model W => True) s s Logic.I
      (accumulate_flow_call false
         :: flat_map (iteration_calls true) storms).
  - unfold HydrologyEventThresholdStreamPower.run_step_record_state.
    rewrite (bind_run _ _ _ _ _ (generate_exp_precip_run storms s)).
    calls_from (forcing_is (W:=W) storms) s
      (set_forcing (Some storms) s) (eq_refl (Some storms))
      (accumulate_flow_call false
         :: flat_map (iteration_calls true) storms).
  - unfold HydrologyEventVadoseStreamPower.run_step.
    calls_from (fun _ : model W => True) s s Logic.I
      (flat_map (iteration_calls true) storms).
  - unfold HydrologyEventVadoseStreamPower.run_step_record_state.
    rewrite (bind_run _ _ _ _ _ (generate_exp_precip_run storms s)).
    calls_from (forcing_is (W:=W) storms) s
      (set_forcing (Some storms) s) (eq_refl (Some storms))
      (flat_map (iteration_calls true) storms).
Qed.

End OperationCalls2.

(** ** Traces of whole iterations and their prefixes *)

Lemma is_loop_call_iteration b st :
  Forall is_loop_call (iteration_calls b st).
Proof.
  unfold iteration_calls, is_loop_call.
  repeat (apply Forall_cons; [first [left; reflexivity | right; eauto]|]).
  apply Forall_nil.
Qed.

Lemma Forall_flat_map_iterations b f :
  Forall is_loop_call (flat_map (iteration_calls b) f).
Proof.
  induction f as [|st f IH]; cbn [flat_map].
  - constructor.
  - apply Forall_app. split; [apply is_loop_call_iteration | exact IH].
Qed.

Lemma prefix_loop_calls b f evs rest :
  flat_map (iteration_calls b) f = evs ++ rest -> Forall is_loop_call evs.
Proof.
  intro E. pose proof (Forall_flat_map_iterations b f) as HF.
  rewrite E in HF. apply Forall_app in HF. tauto.
Qed.

Lemma prefix_advance_then_accumulate b f :
  forall evs rest,
    flat_map (iteration_calls b) f = evs ++ rest ->
    advance_then_accumulate evs = true.
Proof.
  induction f as [|st f IH]; intros evs rest E; simpl in E.
  - symmetry in E. apply app_eq_nil in E. destruct E as [-> _]. reflexivity.
  - destruct evs as [|c1 evs]; [reflexivity|]. injection E as <- E.
    destruct evs as [|c2 evs]; [reflexivity|]. injection E as <- E.
    destruct evs as [|c3 evs]; [reflexivity|]. injection E as <- E.
    destruct evs as [|c4 evs]; [reflexivity|]. injection E as <- E.
    simpl. apply (IH evs rest E).
Qed.

Lemma count_app f l1 l2 : count f (l1 ++ l2) = (count f l1 + count f l2)%nat.
Proof. unfold count. rewrite filter_app, length_app. reflexivity. Qed.

Lemma count_loop_calls f evs :
  (forall c, is_loop_call c -> f c = false) ->
  Forall is_loop_call evs -> count f evs = 0%nat.
Proof.
  intros Hf HF. unfold count. induction HF as [|c evs Hc _ IH]; simpl.
  - reflexivity.
  - rewrite (Hf c Hc). exact IH.
Qed.

Lemma loop_call_not_find_pits c : is_loop_call c -> is_find_pits c = false.
Proof. intros [->|(p & d & ->)]; reflexivity. Qed.

Lemma loop_call_not_lmb_run c : is_loop_call c -> is_lmb_run c = false.
Proof. intros [->|(p & d & ->)]; reflexivity. Qed.

Lemma loop_call_not_direction_update c :
  is_loop_call c -> is_direction_update c = false.
Proof. intros [->|(p & d & ->)]; reflexivity. Qed.

Lemma in_iterations b f p d :
  In (gw_advance_call p d) (flat_map (iteration_calls b) f) ->
  exists st, In st f
    /\ ((p = Event /\ d = storm_dt st)
        \/ (p = Interevent
            /\ d = if b then Qmax (interstorm_dt st) eps
                   else interstorm_dt st)).
Proof.
  intro Hin. apply in_flat_map in Hin. destruct Hin as (st & Hst & Hc).
  exists st. split; [exact Hst|].
  unfold iteration_calls in Hc. simpl in Hc.
  destruct Hc as [E|[E|[E|[E|[]]]]]; try discriminate E.
  - injection E as <- <-. left. auto.
  - injection E as <- <-. right. auto.
Qed.

Section Order.
Context {W : Type} `{Collaborators W} (P : params).

(** The calls of a step operation with an event loop, whether it returns or
    a solver call raises. *)
Lemma event_loop_call_order (op : step_op) (storms : list storm)
  (s : model W) :
  has_event_loop op = true ->
  (op = EventShearStress_run_step_record_state -> forcing s <> None) ->
  let pits := dfr_number_of_pits (dfr_find_pits (world s)) in
  let iterations :=
    flat_map (iteration_calls (floors_interstorm op))
      (loop_forcing op storms s) in
  exists new upd loop,
    log (snd (run_op P op storms s)) = log s ++ new
    /\ new = pit_calls pits ++ fd_run_one_step_call :: upd ++ loop
    /\ count is_find_pits new = 1%nat
    /\ count is_lmb_run new = (if (0 <? pits)%nat then 1 else 0)%nat
    /\ count is_direction_update new = 1%nat
    /\ Forall is_loop_call (upd ++ loop)
    /\ (exists rest, area_update_calls op = upd ++ rest)
    /\ (loop <> [] -> upd = area_update_calls op)
    /\ advance_then_accumulate loop = true
    /\ (exists rest, iterations = loop ++ rest)
    /\ (forall a, fst (run_op P op storms s) = inr a ->
        upd = area_update_calls op /\ loop = iterations).
Proof.
  intros Hloop Hf pits iterations.
  destruct (run_op_calls P op storms s Hloop Hf) as (evs & L & [rest Pf] & Fu).
  fold pits in L. fold iterations in Pf, Fu.
  assert (Hsplit : exists upd loop,
             evs = upd ++ loop
             /\ (exists r, area_update_calls op = upd ++ r)
             /\ (loop <> [] -> upd = area_update_calls op)
             /\ (exists r, iterations = loop ++ r)
             /\ (evs = area_update_calls op ++ iterations ->
                 upd = area_update_calls op /\ loop = iterations)).
  { destruct (area_update_calls op) as [|c [|c' l]] eqn:Ea.
    - exists [], evs. simpl in *. repeat split; eauto.
    - destruct evs as [|c0 evs].
      + exists [], []. simpl.
        split; [reflexivity|]. split; [exists [c]; reflexivity|].
        split; [intro Hne; exfalso; apply Hne; reflexivity|].
        split; [exists iterations; reflexivity|].
        intro E. discriminate E.
      + simpl in Pf. injection Pf as <- Pf.
        exists [c], evs. simpl.
        split; [reflexivity|]. split; [exists []; reflexivity|].
        split; [intros _; reflexivity|].
        split; [exists rest; exact Pf|].
        intro E. injection E as ->. split; reflexivity.
    - destruct op; discriminate Ea. }
  destruct Hsplit as (upd & loop & -> & Hupd & Hne & [r Hloop'] & Hfull).
  assert (HF : Forall is_loop_call (upd ++ loop)).
  { assert (HA : Forall is_loop_call (area_update_calls op ++ iterations)).
    { apply Forall_app. split.
      - destruct op; simpl;
          repeat (apply Forall_cons; [left; reflexivity|]);
          apply Forall_nil.
      - apply Forall_flat_map_iterations. }
    rewrite Pf in HA. apply Forall_app in HA. tauto. }
  exists (pit_calls pits ++ fd_run_one_step_call :: upd ++ loop), upd, loop.
  split; [exact L|]. split; [reflexivity|].
  assert (Hrest : forall f,
             (forall c, is_loop_call c -> f c = false) ->
             count f (pit_calls pits ++ fd_run_one_step_call :: upd ++ loop)
             = (count f (pit_calls pits) + count f [fd_run_one_step_call])%nat).
  { intros f Hfc.
    change (fd_run_one_step_call :: upd ++ loop)
      with ([fd_run_one_step_call] ++ (upd ++ loop)).
    rewrite (count_app f (pit_calls pits)).
    rewrite (count_app f [fd_run_one_step_call]).
    rewrite (count_loop_calls f _ Hfc HF). lia. }
  split; [|split; [|split]].
  - rewrite (Hrest _ loop_call_not_find_pits). unfold pit_calls.
    destruct (0 <? pits)%nat; reflexivity.
  - rewrite (Hrest _ loop_call_not_lmb_run). unfold pit_calls.
    destruct (0 <? pits)%nat; reflexivity.
  - rewrite (Hrest _ loop_call_not_direction_update). unfold pit_calls.
    destruct (0 <? pits)%nat; reflexivity.
  - split; [exact HF|]. split; [exact Hupd|]. split; [exact Hne|].
    split; [eapply prefix_advance_then_accumulate; exact Hloop'|].
    split; [exists r; exact Hloop'|].
    intros a Ha. apply Hfull. apply (Fu a Ha).
Qed.

(** Where the interevent duration is floored, every interevent advance of
    the loop is called with [max(interstorm_dt, 1e-15)] of a pair of the
    forcing. *)
Lemma interevent_advance_floored (op : step_op) (storms : list storm)
  (s : model W) (d : Q) :
  has_event_loop op = true -> floors_interstorm op = true ->
  In (gw_advance_call Interevent d) (log (snd (run_op P op storms s))) ->
  In (gw_advance_call Interevent d) (log s)
  \/ exists st, In st storms /\ d = Qmax (interstorm_dt st) eps.
Proof.
  intros Hloop Hfl Hin.
  assert (Hne : op <> EventShearStress_run_step_record_state)
    by (intros ->; discriminate Hfl).
  destruct (run_op_calls P op storms s Hloop) as (evs & L & [rest Pf] & _).
  { intro E. contradiction. }
  rewrite L in Hin. rewrite Hfl in Pf.
  replace (loop_forcing op storms s) with storms in Pf
    by (destruct op; try reflexivity; contradiction).
  apply in_app_or in Hin. destruct Hin as [Hin|Hin]; [left; exact Hin|].
  right. apply in_app_or in Hin. destruct Hin as [Hin|Hin].
  { unfold pit_calls in Hin. simpl in Hin.
    destruct (0 <? _)%nat; simpl in Hin;
      repeat (destruct Hin as [Hin|Hin]; try discriminate Hin);
      contradiction. }
  simpl in Hin. destruct Hin as [Hin|Hin]; [discriminate Hin|].
  assert (Hin' : In (gw_advance_call Interevent d) (evs ++ rest))
    by (apply in_or_app; left; exact Hin).
  rewrite <- Pf in Hin'. apply in_app_or in Hin'.
  destruct Hin' as [Hin'|Hin'].
  { destruct op; simpl in Hin';
      repeat (destruct Hin' as [Hin'|Hin']; try discriminate Hin');
      contradiction. }
  apply in_iterations in Hin'. destruct Hin' as (st & Hst & [[E _]|[_ E]]).
  - discriminate E.
  - exists st. split; assumption.
Qed.

End Order.


(** * The fields a step leaves behind *)

Section Inversion.
Context {W : Type} `{Collaborators W}.

Lemma get_ok_inv (s : model W) a s' :
  get s = (inr a, s') -> a = s /\ s' = s.
Proof. unfold get. intros E. inversion E. auto. Qed.

Lemma modify_ok_inv (f : model W -> model W) s a s' :
  modify f s = (inr a, s') -> s' = f s.
Proof. unfold modify. intros E. inversion E. reflexivity. Qed.

Lemma ret_ok_inv {A : Type} (x : A) (s : model W) a s' :
  ret x s = (inr a, s') -> a = x /\ s' = s.
Proof. unfold ret. intros E. inversion E. auto. Qed.

Lemma run_solver_ok_inv p dt (s : model W) a s' :
  run_with_adaptive_time_step_solver p dt s = (inr a, s') ->
  exists w,
    gdp_run_with_adaptive_time_step_solver (gdp_recharge s) dt (world s)
    = Some w
    /\ s' = set_world w (set_log (log s ++ [gw_advance_call p dt]) s).
Proof.
  unfold run_with_adaptive_time_step_solver, bind, emit, modify, get.
  simpl.
  destruct (gdp_run_with_adaptive_time_step_solver _ _ _) as [w|];
    simpl; [|discriminate].
  intros E. inversion E. eauto.
Qed.

Lemma accumulate_flow_ok_inv b (s : model W) a q s' :
  accumulate_flow b s = (inr (a, q), s') ->
  exists w,
    fa_accumulate_flow b (world s) = Some (w, (a, q))
    /\ s' = set_world w
              (set_drainage_area a
                 (set_surface_water__discharge q
                    (set_log (log s ++ [accumulate_flow_call b]) s))).
Proof.
  unfold accumulate_flow, store_accumulation, bind, emit, modify, get, ret.
  simpl.
  destruct (fa_accumulate_flow b (world s)) as [[w [a0 q0]]|];
    simpl; [|discriminate].
  intros E. inversion E. subst. eauto.
Qed.

Lemma fa_run_ok_inv (s : model W) a q s' :
  fa_run s = (inr (a, q), s') ->
  exists w,
    fa_run_one_step (world s) = Some (w, (a, q))
    /\ s' = set_world w
              (set_drainage_area a
                 (set_surface_water__discharge q
                    (set_log (log s ++ [fa_run_one_step_call]) s))).
Proof.
  unfold fa_run, store_accumulation, bind, emit, modify, get, ret.
  simpl.
  destruct (fa_run_one_step (world s)) as [[w [a0 q0]]|];
    simpl; [|discriminate].
  intros E. inversion E. subst. eauto.
Qed.

Lemma update_max_substeps_storm_ok_inv (s : model W) a s' :
  update_max_substeps_storm s = (inr a, s') ->
  s' = set_max_substeps_storm
         (Nat.max (max_substeps_storm s) (gdp_number_of_substeps (world s)))
         s.
Proof. intros E. inversion E. reflexivity. Qed.

Lemma update_max_substeps_interstorm_ok_inv (s : model W) a s' :
  update_max_substeps_interstorm s = (inr a, s') ->
  s' = set_max_substeps_interstorm
         (Nat.max (max_substeps_interstorm s)
            (gdp_number_of_substeps (world s)))
         s.
Proof. intros E. inversion E. reflexivity. Qed.

(** [assign_q_an] when it returns. *)
Lemma assign_q_an_ok_inv q (s : model W) a s' :
  assign_q_an q s = (inr a, s') ->
  exists n,
    area_norm np_sqrt q (drainage_area s) = Some n
    /\ length (q_an s) = length n
    /\ s' = set_q_an n s.
Proof.
  unfold assign_q_an. intro E.
  apply bind_ok_inv in E. destruct E as (s0 & s1 & E0 & E).
  apply get_ok_inv in E0. destruct E0 as [-> ->].
  apply bind_ok_inv in E. destruct E as (n & s1 & E0 & E).
  apply lift_opt_ok_inv in E0. destruct E0 as [En ->].
  apply bind_ok_inv in E. destruct E as (x & s1 & E0 & E).
  apply assign_slice_ok_inv in E0. destruct E0 as (-> & L & ->).
  apply modify_ok_inv in E. eauto.
Qed.

Lemma returns_assign_q_an q :
  returns (assign_q_an q)
    (fun _ s' =>
       area_norm np_sqrt q (drainage_area s') = Some (q_an s')).
Proof.
  intros s a s' E. apply assign_q_an_ok_inv in E.
  destruct E as (n & En & _ & ->). exact En.
Qed.

Lemma finalize_ok_inv P v (s : model W) a s' :
  HydrologyEventStreamPower.finalize P v s = (inr a, s') ->
  exists n,
    area_norm np_sqrt (map (fun x => x / T_h P) v) (drainage_area s)
    = Some n
    /\ length (q_eff s) = length v
    /\ s' = set_q_an n (set_q_eff (map (fun x => x / T_h P) v) s).
Proof.
  unfold HydrologyEventStreamPower.finalize. intro E.
  apply bind_ok_inv in E. destruct E as (s0 & s1 & E0 & E).
  apply get_ok_inv in E0. destruct E0 as [-> ->].
  apply bind_ok_inv in E. destruct E as (e & s1 & E0 & E).
  apply assign_slice_ok_inv in E0. destruct E0 as (-> & L & ->).
  apply bind_ok_inv in E. destruct E as (x & s1 & E0 & E).
  apply modify_ok_inv in E0. subst s1.
  apply assign_q_an_ok_inv in E. destruct E as (n & En & _ & ->).
  exists n. rewrite length_map in L. auto.
Qed.

Lemma returns_finalize P v :
  returns (HydrologyEventStreamPower.finalize P v)
    (fun _ s' =>
       area_norm np_sqrt (q_eff s') (drainage_area s') = Some (q_an s')).
Proof.
  intros s a s' E. apply finalize_ok_inv in E.
  destruct E as (n & En & _ & ->). exact En.
Qed.

End Inversion.

(** ** The order of the calls, for every step operation *)

Section StepOrder.
Context {W : Type} `{Collaborators W} (P : params).

Lemma silent_tail {A : Type} (m : M W A) (s : model W) a s' :
  emits m [] -> m s = (inr a, s') -> log s' = log s.
Proof.
  intros Hm E. destruct (Hm s) as (evs & L & _ & Fu).
  rewrite E in L, Fu. simpl in L, Fu.
  rewrite (Fu a eq_refl), app_nil_r in L. exact L.
Qed.

(** The calls of a steady step operation that returns: the groundwater
    advance over [T_h], pit detection and filling, and [fa.run_one_step()],
    which directs and accumulates the flow. *)
Lemma steady_call_order (op : step_op) (storms : list storm)
  (s s' : model W) :
  has_event_loop op = false ->
  run_op P op storms s = (inr tt, s') ->
  exists w1,
    gdp_run_with_adaptive_time_step_solver (gdp_recharge s) (T_h P) (world s)
    = Some w1
    /\ log s'
       = log s ++ gw_advance_call Steady (T_h P)
           :: pit_calls (dfr_number_of_pits (dfr_find_pits w1))
           ++ [fa_run_one_step_call].
Proof.
  intros Hop E.
  assert (Hstart : forall (k : M W unit),
             emits k [] ->
             (run_with_adaptive_time_step_solver Steady (T_h P) ;;
              n <- number_of_substeps ;;
              modify (set_number_substeps n) ;;
              find_and_route_pits ;;
              _ <- fa_run ;;
              k)%step s = (inr tt, s') ->
             exists w1,
               gdp_run_with_adaptive_time_step_solver (gdp_recharge s)
                 (T_h P) (world s) = Some w1
               /\ log s'
                  = log s ++ gw_advance_call Steady (T_h P)
                      :: pit_calls (dfr_number_of_pits (dfr_find_pits w1))
                      ++ [fa_run_one_step_call]).
  { intros k Hk E0.
    apply bind_ok_inv in E0. destruct E0 as (x0 & s1 & E0 & E1).
    apply run_solver_ok_inv in E0. destruct E0 as (w1 & G & ->).
    apply bind_ok_inv in E1. destruct E1 as (n & s1 & E0 & E1).
    inversion E0; subst; clear E0.
    apply bind_ok_inv in E1. destruct E1 as (x1 & s1 & E0 & E1).
    apply modify_ok_inv in E0. subst s1.
    rewrite (bind_run _ _ _ _ _ (find_and_route_pits_run _)) in E1.
    apply bind_ok_inv in E1. destruct E1 as ([a1 q1] & s1 & E0 & E1).
    apply fa_run_ok_inv in E0. destruct E0 as (w2 & _ & ->).
    apply (silent_tail k _ _ _ Hk) in E1.
    exists w1. split; [exact G|].
    rewrite E1. cbn [log set_world set_drainage_area
                       set_surface_water__discharge set_log].
    rewrite log_after_pits. cbn. rewrite <- !app_assoc. reflexivity. }
  destruct op; try discriminate Hop; cbn [run_op] in E.
  - apply (Hstart (t <- shear_stress ;; assign_tau t ;;
                   dz <- erosion_from_shear_stress ;;
                   modify (set_dzdt (Some dz)))%step); [|exact E].
    emits_steps.
  - apply (Hstart (s0 <- get ;;
                   qmax <- lift_opt ShapeError
                     (recharge_times_area (gdp_recharge s0)
                        (drainage_area s0)) ;;
                   q <- lift_opt ShapeError
                     (clip_discharge (surface_water__discharge s0) qmax) ;;
                   modify (set_surface_water__discharge q) ;;
                   assign_q_an q)%step); [|exact E].
    emits_steps.
Qed.

(** C8.  In every step operation, pit detection is called once, and
    depression filling once if and only if the pit count is positive, before
    the single update of the flow directions.  In an operation with an event
    loop that update is [fd.run_one_step()] and comes before the loop;
    everything after it is a groundwater advance or a flow accumulation with
    [update_flow_director=False] (flow directions are never computed
    again), and in the loop every groundwater advance comes first and is
    followed by the flow accumulation of its sub-period; the calls of the
    loop are a prefix of the calls of the iterations when a solver call
    raises, and all of them when the operation returns.  (The threshold
    operations accumulate flow once more between the direction update and
    the loop, "to update area".)  A steady operation has no loop: when it
    returns it has advanced the groundwater, detected and filled pits, and
    called [fa.run_one_step()], which directs and accumulates the flow. *)
Theorem step_call_order (op : step_op) (storms : list storm) (s : model W) :
  (op = EventShearStress_run_step_record_state -> forcing s <> None) ->
  (has_event_loop op = true ->
   let pits := dfr_number_of_pits (dfr_find_pits (world s)) in
   let iterations :=
     flat_map (iteration_calls (floors_interstorm op))
       (loop_forcing op storms s) in
   exists new upd loop,
     log (snd (run_op P op storms s)) = log s ++ new
     /\ new = pit_calls pits ++ fd_run_one_step_call :: upd ++ loop
     /\ count is_find_pits new = 1%nat
     /\ count is_lmb_run new = (if (0 <? pits)%nat then 1 else 0)%nat
     /\ count is_direction_update new = 1%nat
     /\ Forall is_loop_call (upd ++ loop)
     /\ (exists rest, area_update_calls op = upd ++ rest)
     /\ (loop <> [] -> upd = area_update_calls op)
     /\ advance_then_accumulate loop = true
     /\ (exists rest, iterations = loop ++ rest)
     /\ (forall a, fst (run_op P op storms s) = inr a ->
         upd = area_update_calls op /\ loop = iterations))
  /\ (has_event_loop op = false ->
      forall s', run_op P op storms s = (inr tt, s') ->
      exists w1 new,
        gdp_run_with_adaptive_time_step_solver (gdp_recharge s) (T_h P)
          (world s) = Some w1
        /\ log s' = log s ++ new
        /\ new = gw_advance_call Steady (T_h P)
                   :: pit_calls (dfr_number_of_pits (dfr_find_pits w1))
                   ++ [fa_run_one_step_call]
        /\ count is_find_pits new = 1%nat
        /\ count is_lmb_run new
           = (if (0 <? dfr_number_of_pits (dfr_find_pits w1))%nat
              then 1 else 0)%nat
        /\ count is_direction_update new = 1%nat).
Proof.
  intros Hf. split.
  - intro Hloop. apply event_loop_call_order; assumption.
  - intros Hloop s' E.
    destruct (steady_call_order op storms s s' Hloop E) as (w1 & G & L).
    exists w1. eexists. split; [exact G|]. split; [exact L|].
    split; [reflexivity|].
    unfold pit_calls.
    destruct (0 <? dfr_number_of_pits (dfr_find_pits w1))%nat;
      repeat split; reflexivity.
Qed.

End StepOrder.

(** The order of the calls in [HydrologyEventStreamPower.run_step] on a
    forcing of two pairs. *)
Lemma step_call_order_witness :
  (exists new upd loop,
     log (snd (run_op (H:=Toy.collab Toy.never) Toy.prm
                 EventStreamPower_run_step Toy.storms Toy.init))
     = log Toy.init ++ new
     /\ new = pit_calls 1 ++ fd_run_one_step_call :: upd ++ loop
     /\ count is_find_pits new = 1%nat
     /\ count is_lmb_run new = 1%nat
     /\ count is_direction_update new = 1%nat
     /\ Forall is_loop_call (upd ++ loop)
     /\ (exists rest, @nil call = upd ++ rest)
     /\ (loop <> [] -> upd = [])
     /\ advance_then_accumulate loop = true
     /\ (exists rest,
           flat_map (iteration_calls true) Toy.storms = loop ++ rest)
     /\ (forall a,
           fst (run_op (H:=Toy.collab Toy.never) Toy.prm
                  EventStreamPower_run_step Toy.storms Toy.init) = inr a ->
           upd = [] /\ loop = flat_map (iteration_calls true) Toy.storms)).
Proof.
  refine (proj1 (step_call_order (H:=Toy.collab Toy.never) Toy.prm
                   EventStreamPower_run_step Toy.storms Toy.init _)
            eq_refl).
  discriminate.
Defined.

(** ** Area normalisation and clipping *)

Ltac returns_last :=
  repeat match goal with
         | |- returns (modify (set_surface_water__discharge _) ;; _)%step _ =>
             fail 1
         | |- returns (bind _ _) _ => apply returns_bind_last; intro
         | |- returns (match ?x with (_, _) => _ end) _ => destruct x
         | |- returns (let '(_, _) := ?x in _) _ => destruct x
         end.

Section AreaNormalisation.
Context {W : Type} `{Collaborators W} (P : params).

Lemma returns_clip_and_normalise q :
  returns (modify (set_surface_water__discharge q) ;; assign_q_an q)%step
    (fun _ s' =>
       surface_water__discharge s' = q
       /\ area_norm np_sqrt q (drainage_area s') = Some (q_an s')).
Proof.
  intros s a s' E.
  apply bind_ok_inv in E. destruct E as (x & s1 & E0 & E).
  apply modify_ok_inv in E0. subst s1.
  apply assign_q_an_ok_inv in E. destruct E as (n & En & _ & ->).
  split; [reflexivity | exact En].
Qed.

Lemma returns_normalised (op : step_op) (storms : list storm) :
  writes_q_an op = true ->
  returns (run_op P op storms)
    (fun _ s' =>
       area_norm np_sqrt (normalised_field op s') (drainage_area s')
       = Some (q_an s')).
Proof.
  intro Hop. destruct op; try discriminate Hop;
    cbn [run_op normalised_field].
  - unfold HydrologySteadyStreamPower.run_step. returns_last.
    intros s0 r0 s0' E0.
    destruct (returns_clip_and_normalise _ s0 r0 s0' E0) as [-> En].
    exact En.
  - unfold HydrologyEventStreamPower.run_step. returns_last.
    apply returns_finalize.
  - unfold HydrologyEventStreamPower.run_step_record_state. returns_last.
    apply returns_finalize.
  - unfold HydrologyEventThresholdStreamPower.run_step. returns_last.
    apply returns_finalize.
  - unfold HydrologyEventThresholdStreamPower.run_step_record_state.
    returns_last. apply returns_finalize.
  - unfold HydrologyEventVadoseStreamPower.run_step. returns_last.
    apply returns_finalize.
  - unfold HydrologyEventVadoseStreamPower.run_step_record_state.
    returns_last. apply returns_finalize.
Qed.

(** C7.  After a step that writes the area-normalised discharge, at every
    node: where the drainage area is 0 (or negative) [q_an] is exactly 0,
    whatever the effective discharge is; where the area is positive it is
    the effective discharge divided by [sqrt(area)].  The quotient is
    taken only where [area > 0]. *)
Theorem area_normalised_discharge_guarded (op : step_op)
  (storms : list storm) (s s' : model W) (i : nat) (a : Q) :
  writes_q_an op = true ->
  run_op P op storms s = (inr tt, s') ->
  nth_error (drainage_area s') i = Some a ->
  exists e,
    nth_error (normalised_field op s') i = Some e
    /\ (a == 0 -> nth_error (q_an s') i = Some 0)
    /\ (a < 0 -> nth_error (q_an s') i = Some 0)
    /\ (0 < a -> nth_error (q_an s') i = Some (e / np_sqrt a)).
Proof.
  intros Hop E Ha.
  pose proof (returns_normalised op storms Hop s tt s' E) as En.
  destruct (area_norm_nth _ _ _ _ i a En Ha) as (e & He & Hq).
  exists e. split; [exact He|].
  repeat split; intro Hc; rewrite Hq.
  - replace (Qgtb a 0) with false; [reflexivity|].
    symmetry. apply Qgtb_false. lra.
  - replace (Qgtb a 0) with false; [reflexivity|].
    symmetry. apply Qgtb_false. lra.
  - replace (Qgtb a 0) with true; [reflexivity|].
    symmetry. apply Qgtb_true. exact Hc.
Qed.

(** Every node of the field gets a value. *)
Lemma area_normalised_discharge_length (op : step_op)
  (storms : list storm) (s s' : model W) :
  writes_q_an op = true ->
  run_op P op storms s = (inr tt, s') ->
  length (q_an s') = length (normalised_field op s')
  /\ length (drainage_area s') = length (normalised_field op s').
Proof.
  intros Hop E.
  pose proof (returns_normalised op storms Hop s tt s' E) as En.
  apply area_norm_length in En. exact En.
Qed.

(** C9.  After [HydrologySteadyStreamPower.run_step] the discharge of every
    node is at most recharge times drainage area, and the area-normalised
    discharge is computed from the clipped discharge. *)
Theorem steady_discharge_clipped (storms : list storm) (s s' : model W)
  (i : nat) (q : Q) :
  run_op P SteadyStreamPower_run_step storms s = (inr tt, s') ->
  nth_error (surface_water__discharge s') i = Some q ->
  gdp_recharge s' = gdp_recharge s
  /\ exists w w' area accumulated,
       fa_run_one_step w = Some (w', (area, accumulated))
       /\ drainage_area s' = area
       /\ exists a x raw,
            nth_error area i = Some a
            /\ nth_error accumulated i = Some raw
            /\ recharge_at (gdp_recharge s') i = Some x
            /\ q = (if Qgtb raw (x * a) then x * a else raw)
            /\ q <= x * a
            /\ nth_error (q_an s') i
               = Some (if Qgtb a 0 then q / np_sqrt a else 0).
Proof.
  cbn [run_op]. unfold HydrologySteadyStreamPower.run_step.
  intros E Hq.
  apply bind_ok_inv in E. destruct E as (x0 & s1 & E0 & E).
  apply run_solver_ok_inv in E0. destruct E0 as (w1 & _ & ->).
  apply bind_ok_inv in E. destruct E as (n & s1 & E0 & E).
  inversion E0; subst; clear E0.
  apply bind_ok_inv in E. destruct E as (x1 & s1 & E0 & E).
  apply modify_ok_inv in E0. subst s1.
  rewrite (bind_run _ _ _ _ _ (find_and_route_pits_run _)) in E.
  apply bind_ok_inv in E. destruct E as ([a1 q1] & s1 & E0 & E).
  apply fa_run_ok_inv in E0. destruct E0 as (w2 & Efa & ->).
  apply bind_ok_inv in E. destruct E as (s2 & s1 & E0 & E).
  apply get_ok_inv in E0. destruct E0 as [-> ->].
  apply bind_ok_inv in E. destruct E as (qmax & s1 & E0 & E).
  apply lift_opt_ok_inv in E0. destruct E0 as [Em ->].
  apply bind_ok_inv in E. destruct E as (qc & s1 & E0 & E).
  apply lift_opt_ok_inv in E0. destruct E0 as [Ec ->].
  cbn in Em, Ec.
  apply bind_ok_inv in E. destruct E as (x2 & s1 & E0 & E).
  apply modify_ok_inv in E0. subst s1.
  apply assign_q_an_ok_inv in E. destruct E as (n' & En' & _ & ->).
  cbn in Hq, En' |- *.
  rewrite gdp_recharge_after_pits in Em |- *. cbn in Em |- *.
  split; [reflexivity|].
  destruct (clip_discharge_length _ _ _ Ec) as [L1 L2].
  destruct (nth_error_same_length qc q1 i q L1 Hq) as [x Hx].
  destruct (clip_discharge_nth _ _ _ i x Ec Hx) as (m & Hm & Hr).
  rewrite Hq in Hr. injection Hr as Hqx.
  destruct (recharge_times_area_nth _ _ _ i m Em Hm) as (a & Ha & Hrv).
  destruct (area_norm_nth _ _ _ _ i a En' Ha) as (e & He & Hn).
  rewrite Hq in He. injection He as <-.
  assert (Hle : q <= m) by (rewrite Hqx; apply clip_le).
  eexists _, w2, a1, q1. split; [exact Efa|]. split; [reflexivity|].
  exists a. destruct (gdp_recharge s) as [r0|ra]; cbn [recharge_at].
  - exists r0, x. subst m. repeat split; assumption.
  - destruct Hrv as (r0 & Hr0 & ->). exists r0, x.
    repeat split; assumption.
Qed.

End AreaNormalisation.

(** ** The runoff volume of the stream power loops *)

Lemma one_event_volume (q1 : list Q) (dt T : Q) :
  forall n, length q1 = n ->
  Forall2 (fun e q => e == half * (0 + q) * dt / T)
    (map (fun x => x / T)
       (map2 Qplus (repeat 0 n)
          (map2 (fun x0 x1 => half * (x0 + x1) * dt) (repeat 0 n) q1)))
    q1.
Proof.
  induction q1 as [|q q1 IH]; intros n Hn; destruct n as [|n];
    try discriminate Hn; simpl.
  - constructor.
  - constructor.
    + unfold Qdiv. ring.
    + apply IH. simpl in Hn. lia.
Qed.

Section Volume.
Context {W : Type} `{Collaborators W} (P : params).

(** One iteration of the loop of [HydrologyEventStreamPower], when it
    returns. *)
Lemma stream_power_body_ok (q_total_vol q2 : list Q) (st : storm)
  (s : model W) acc' s' :
  HydrologyEventStreamPower.event_body (q_total_vol, q2) st s
  = (inr acc', s') ->
  exists w1 w2 a1 q1 w3 w4 a2 q2' v q_total_vol',
    gdp_run_with_adaptive_time_step_solver (RScalar (intensity st))
      (storm_dt st) (world s) = Some w1
    /\ fa_accumulate_flow false w1 = Some (w2, (a1, q1))
    /\ gdp_run_with_adaptive_time_step_solver (RScalar 0)
         (Qmax (interstorm_dt st) eps) w2 = Some w3
    /\ fa_accumulate_flow false w3 = Some (w4, (a2, q2'))
    /\ event_volume q2 q1 (storm_dt st) = Some v
    /\ iadd q_total_vol v = Some q_total_vol'
    /\ acc' = (q_total_vol', q2')
    /\ world s' = w4 /\ drainage_area s' = a2
    /\ q_eff s' = q_eff s /\ q_an s' = q_an s.
Proof.
  unfold HydrologyEventStreamPower.event_body. intro E.
  apply bind_ok_inv in E. destruct E as (x0 & s1 & E0 & E).
  apply modify_ok_inv in E0. subst s1.
  apply bind_ok_inv in E. destruct E as (x1 & s1 & E0 & E).
  apply run_solver_ok_inv in E0. destruct E0 as (w1 & G1 & ->).
  apply bind_ok_inv in E. destruct E as ([a1 q1] & s1 & E0 & E).
  apply accumulate_flow_ok_inv in E0. destruct E0 as (w2 & A1 & ->).
  apply bind_ok_inv in E. destruct E as (x2 & s1 & E0 & E).
  apply update_max_substeps_storm_ok_inv in E0. subst s1.
  apply bind_ok_inv in E. destruct E as (x3 & s1 & E0 & E).
  apply modify_ok_inv in E0. subst s1.
  apply bind_ok_inv in E. destruct E as (x4 & s1 & E0 & E).
  apply run_solver_ok_inv in E0. destruct E0 as (w3 & G2 & ->).
  apply bind_ok_inv in E. destruct E as ([a2 q2'] & s1 & E0 & E).
  apply accumulate_flow_ok_inv in E0. destruct E0 as (w4 & A2 & ->).
  apply bind_ok_inv in E. destruct E as (x5 & s1 & E0 & E).
  apply update_max_substeps_interstorm_ok_inv in E0. subst s1.
  apply bind_ok_inv in E. destruct E as (v & s1 & E0 & E).
  apply lift_opt_ok_inv in E0. destruct E0 as [Ev ->].
  apply bind_ok_inv in E. destruct E as (qtv' & s1 & E0 & E).
  apply lift_opt_ok_inv in E0. destruct E0 as [Eq ->].
  apply ret_ok_inv in E. destruct E as [-> ->].
  cbn in G1, A1, G2, A2.
  exists w1, w2, a1, q1, w3, w4, a2, q2', v, qtv'.
  repeat split; assumption || reflexivity.
Qed.

(** The loop of [HydrologyEventStreamPower] when it returns: the volume
    it has accumulated is the trapezoid sum of the snapshots the flow
    accumulator returned, and the output fields are untouched. *)
Lemma stream_power_loop_volume (storms : list storm) :
  forall (acc q0 : list Q) (s : model W) r s',
    for_each HydrologyEventStreamPower.event_body storms (acc, q0) s
    = (inr r, s') ->
    exists snaps,
      discharge_snapshots (world s) storms = Some (snaps, world s')
      /\ runoff_volume Some q0 acc storms snaps = Some (fst r)
      /\ q_eff s' = q_eff s.
Proof.
  induction storms as [|st storms IH]; intros acc q0 s r s' E.
  - cbn [for_each] in E. apply ret_ok_inv in E. destruct E as [-> ->].
    exists []. repeat split.
  - cbn [for_each] in E.
    apply bind_ok_inv in E. destruct E as (acc1 & s1 & E0 & E).
    apply stream_power_body_ok in E0.
    destruct E0 as (w1 & w2 & a1 & q1 & w3 & w4 & a2 & q2' & v & qtv'
                    & G1 & A1 & G2 & A2 & Ev & Eq & -> & Hw & _ & Qe & _).
    apply IH in E. destruct E as (snaps & Sn & Rv & Qe').
    exists ((q1, q2') :: snaps). rewrite Hw in Sn.
    split; [|split].
    + cbn [discharge_snapshots]. rewrite G1, A1, G2, A2, Sn. reflexivity.
    + cbn [runoff_volume]. rewrite Ev, Eq. exact Rv.
    + congruence.
Qed.

Lemma first_volume_from_zero (q1 : list Q) (dt : Q) :
  forall n, length q1 = n ->
  Forall2 (fun v x => v == half * (0 + x) * dt)
    (map2 Qplus (repeat 0 n)
       (map2 (fun x0 x1 => half * (x0 + x1) * dt) (repeat 0 n) q1))
    q1.
Proof.
  induction q1 as [|q q1 IH]; intros n Hn; destruct n as [|n];
    try discriminate Hn; simpl.
  - constructor.
  - constructor.
    + ring.
    + apply IH. simpl in Hn. lia.
Qed.

(** C10.  [HydrologyEventStreamPower.run_step] on any forcing of at least
    one pair, from any state a previous step has left: the loop starts
    from the all-zero snapshot and a zero volume, so the first event
    contributes [0.5 * (0 + q1) * storm_dt] at every node, where [q1] is
    the discharge accumulated at the end of the event; the later events
    add their trapezoids, each from the interevent snapshot before it
    ([q2] for the second event), and the effective discharge is the
    volume divided by [T_h].  For a forcing of one pair it is
    [0.5 * (0 + q1) * storm_dt / T_h]. *)
Theorem first_event_starts_from_zero (st : storm) (rest : list storm)
  (s s' : model W) :
  run_op P EventStreamPower_run_step (st :: rest) s = (inr tt, s') ->
  exists w1 w2 a1 q1 w3 w4 a2 q2 snaps wend vol1 vol,
    gdp_run_with_adaptive_time_step_solver (RScalar (intensity st))
      (storm_dt st) (world_before_loop (world s)) = Some w1
    /\ fa_accumulate_flow false w1 = Some (w2, (a1, q1))
    /\ gdp_run_with_adaptive_time_step_solver (RScalar 0)
         (Qmax (interstorm_dt st) eps) w2 = Some w3
    /\ fa_accumulate_flow false w3 = Some (w4, (a2, q2))
    /\ discharge_snapshots w4 rest = Some (snaps, wend)
    /\ Forall2 (fun v x => v == half * (0 + x) * storm_dt st) vol1 q1
    /\ runoff_volume Some q2 vol1 rest snaps = Some vol
    /\ q_eff s' = map (fun v => v / T_h P) vol
    /\ (rest = [] ->
        Forall2 (fun e q => e == half * (0 + q) * storm_dt st / T_h P)
          (q_eff s') q1).
Proof.
  cbn [run_op]. unfold HydrologyEventStreamPower.run_step. intro E.
  rewrite (bind_run _ _ _ _ _ (find_and_route_pits_run _)) in E.
  rewrite (bind_run _ _ _ _ _ (fd_run_run _)) in E.
  rewrite (bind_run _ _ _ _ _ (reset_max_substeps_run _)) in E.
  apply bind_ok_inv in E. destruct E as (s0 & s1 & E0 & E).
  apply get_ok_inv in E0. destruct E0 as [-> ->].
  apply bind_ok_inv in E. destruct E as ([qtv q2f] & s1 & E0 & E).
  cbn [for_each] in E0.
  apply bind_ok_inv in E0. destruct E0 as (acc' & s2 & E0 & E1).
  apply stream_power_body_ok in E0.
  destruct E0 as (w1 & w2 & a1 & q1 & w3 & w4 & a2 & q2' & v & qtv'
                  & G1 & A1 & G2 & A2 & Ev & Eq & -> & Hw & _ & _ & _).
  apply stream_power_loop_volume in E1.
  destruct E1 as (snaps & Sn & Rv & _). cbn [fst] in Rv.
  cbn beta iota in E. apply finalize_ok_inv in E.
  destruct E as (n & _ & _ & ->).
  cbn in G1. rewrite world_after_pits_eq in G1. rewrite Hw in Sn.
  apply map2_chk_Some in Ev. destruct Ev as [Lv ->].
  apply map2_chk_Some in Eq. destruct Eq as [Lq' ->].
  unfold zeros_like in *. rewrite repeat_length in Lv.
  exists w1, w2, a1, q1, w3, w4, a2, q2', snaps, (world s1).
  eexists. exists qtv.
  split; [exact G1|]. split; [exact A1|]. split; [exact G2|].
  split; [exact A2|]. split; [exact Sn|].
  split; [apply first_volume_from_zero; symmetry; exact Lv|].
  split; [exact Rv|]. split; [reflexivity|].
  intros ->. cbn [discharge_snapshots] in Sn. injection Sn as <- _.
  cbn [runoff_volume] in Rv. injection Rv as <-.
  cbn [q_eff set_q_an set_q_eff].
  apply one_event_volume. symmetry. exact Lv.
Qed.

End Volume.

(** ** The critical discharge of the threshold model *)

Section Threshold.
Context {W : Type} `{Collaborators W} (P : params).

Lemma calc_critical_discharge_ok_inv (s : model W) a s' :
  HydrologyEventThresholdStreamPower.calc_critical_discharge P s
  = (inr a, s') ->
  exists g w area0 q00 c,
    gather (calc_grad (world s)) (flow__link_to_receiver_node (world s))
    = Some g
    /\ fa_accumulate_flow false (world s) = Some (w, (area0, q00))
    /\ critical_discharge np_sqrt (E0 P) (Ksp P) area0 (map Qabs g)
       = Some c
    /\ Q0 s' = c /\ world s' = w /\ q_eff s' = q_eff s.
Proof.
  unfold HydrologyEventThresholdStreamPower.calc_critical_discharge.
  intro E.
  apply bind_ok_inv in E. destruct E as (s0 & s1 & E0 & E).
  apply get_ok_inv in E0. destruct E0 as [-> ->].
  apply bind_ok_inv in E. destruct E as (g & s1 & E0 & E).
  apply lift_opt_ok_inv in E0. destruct E0 as [Eg ->].
  apply bind_ok_inv in E. destruct E as ([area0 q00] & s1 & E0 & E).
  apply accumulate_flow_ok_inv in E0. destruct E0 as (w & Ea & ->).
  apply bind_ok_inv in E. destruct E as (s0 & s1 & E0 & E).
  apply get_ok_inv in E0. destruct E0 as [-> ->].
  apply bind_ok_inv in E. destruct E as (c & s1 & E0 & E).
  apply lift_opt_ok_inv in E0. destruct E0 as [Ec ->].
  apply bind_ok_inv in E. destruct E as (v & s1 & E0 & E).
  apply assign_slice_ok_inv in E0. destruct E0 as (-> & _ & ->).
  apply modify_ok_inv in E. subst s'.
  cbn in Ec. exists g, w, area0, q00, c. cbn. auto 7.
Qed.

(** One iteration of the loop of [HydrologyEventThresholdStreamPower], when
    it returns: both raw snapshots go through [np.maximum(q - Q0, 0.0)]
    before they enter the volume. *)
Lemma threshold_body_ok (q_total_vol q2 : list Q) (st : storm)
  (s : model W) acc' s' :
  HydrologyEventThresholdStreamPower.event_body (q_total_vol, q2) st s
  = (inr acc', s') ->
  Q0 s' = Q0 s
  /\ exists w1 w2 a1 raw1 w3 w4 a2 raw2 q1 q2' v q_total_vol',
    gdp_run_with_adaptive_time_step_solver (RScalar (intensity st))
      (storm_dt st) (world s) = Some w1
    /\ fa_accumulate_flow false w1 = Some (w2, (a1, raw1))
    /\ gdp_run_with_adaptive_time_step_solver (RScalar 0)
         (Qmax (interstorm_dt st) eps) w2 = Some w3
    /\ fa_accumulate_flow false w3 = Some (w4, (a2, raw2))
    /\ excess_discharge raw1 (Q0 s) = Some q1
    /\ excess_discharge raw2 (Q0 s) = Some q2'
    /\ event_volume q2 q1 (storm_dt st) = Some v
    /\ iadd q_total_vol v = Some q_total_vol'
    /\ acc' = (q_total_vol', q2')
    /\ world s' = w4 /\ q_eff s' = q_eff s.
Proof.
  unfold HydrologyEventThresholdStreamPower.event_body. intro E.
  apply bind_ok_inv in E. destruct E as (x0 & s1 & E0 & E).
  apply modify_ok_inv in E0. subst s1.
  apply bind_ok_inv in E. destruct E as (x1 & s1 & E0 & E).
  apply run_solver_ok_inv in E0. destruct E0 as (w1 & G1 & ->).
  apply bind_ok_inv in E. destruct E as ([a1 raw1] & s1 & E0 & E).
  apply accumulate_flow_ok_inv in E0. destruct E0 as (w2 & A1 & ->).
  apply bind_ok_inv in E. destruct E as (s0 & s1 & E0 & E).
  apply get_ok_inv in E0. destruct E0 as [-> ->].
  apply bind_ok_inv in E. destruct E as (q1 & s1 & E0 & E).
  apply lift_opt_ok_inv in E0. destruct E0 as [X1 ->].
  apply bind_ok_inv in E. destruct E as (x2 & s1 & E0 & E).
  apply update_max_substeps_storm_ok_inv in E0. subst s1.
  apply bind_ok_inv in E. destruct E as (x3 & s1 & E0 & E).
  apply modify_ok_inv in E0. subst s1.
  apply bind_ok_inv in E. destruct E as (x4 & s1 & E0 & E).
  apply run_solver_ok_inv in E0. destruct E0 as (w3 & G2 & ->).
  apply bind_ok_inv in E. destruct E as ([a2 raw2] & s1 & E0 & E).
  apply accumulate_flow_ok_inv in E0. destruct E0 as (w4 & A2 & ->).
  apply bind_ok_inv in E. destruct E as (s0 & s1 & E0 & E).
  apply get_ok_inv in E0. destruct E0 as [-> ->].
  apply bind_ok_inv in E. destruct E as (q2' & s1 & E0 & E).
  apply lift_opt_ok_inv in E0. destruct E0 as [X2 ->].
  apply bind_ok_inv in E. destruct E as (x5 & s1 & E0 & E).
  apply update_max_substeps_interstorm_ok_inv in E0. subst s1.
  apply bind_ok_inv in E. destruct E as (v & s1 & E0 & E).
  apply lift_opt_ok_inv in E0. destruct E0 as [Ev ->].
  apply bind_ok_inv in E. destruct E as (qtv' & s1 & E0 & E).
  apply lift_opt_ok_inv in E0. destruct E0 as [Eq ->].
  apply ret_ok_inv in E. destruct E as [-> ->].
  cbn in G1, A1, G2, A2, X1, X2.
  split; [reflexivity|].
  exists w1, w2, a1, raw1, w3, w4, a2, raw2, q1, q2', v, qtv'.
  repeat split; assumption || reflexivity.
Qed.

Lemma Q0_after_threshold_loop c (storms : list storm) acc :
  preserves (Q0_is c)
    ('(q_total_vol, _) <-
       for_each HydrologyEventThresholdStreamPower.event_body storms acc ;;
     HydrologyEventStreamPower.finalize P q_total_vol)%step.
Proof.
  apply preserves_bind.
  - apply preserves_for_each. intros acc0 st.
    apply preserves_threshold_body. exact _.
  - intros [q_total_vol q2].
    apply preserves_finalize; intros x s Hs; exact Hs.
Qed.

(** The critical discharge the step leaves in [critical_erosion__discharge]
    is the one computed before the loop. *)
Lemma threshold_run_step_Q0 (storms : list storm) (s s' : model W) :
  HydrologyEventThresholdStreamPower.run_step P storms s = (inr tt, s') ->
  exists g w area0 q00,
    let w0 := world_before_loop (world s) in
    gather (calc_grad w0) (flow__link_to_receiver_node w0) = Some g
    /\ fa_accumulate_flow false w0 = Some (w, (area0, q00))
    /\ critical_discharge np_sqrt (E0 P) (Ksp P) area0 (map Qabs g)
       = Some (Q0 s').
Proof.
  unfold HydrologyEventThresholdStreamPower.run_step. intro E.
  rewrite (bind_run _ _ _ _ _ (find_and_route_pits_run _)) in E.
  rewrite (bind_run _ _ _ _ _ (fd_run_run _)) in E.
  apply bind_ok_inv in E. destruct E as (x0 & s1 & E0 & E).
  apply calc_critical_discharge_ok_inv in E0.
  destruct E0 as (g & w & area0 & q00 & c & Eg & Ea & Ec & HQ & _ & _).
  rewrite world_after_fd, world_after_pits_eq in Eg, Ea.
  rewrite (bind_run _ _ _ _ _ (reset_max_substeps_run _)) in E.
  apply bind_ok_inv in E. destruct E as (s0 & s2 & E0 & E).
  apply get_ok_inv in E0. destruct E0 as [-> ->].
  assert (HQ' : Q0 s' = c).
  { match type of E with
    | bind (for_each _ _ ?acc) _ ?st = _ =>
        pose proof (Q0_after_threshold_loop c storms acc st HQ) as X
    end.
    rewrite E in X. exact X. }
  exists g, w, area0, q00. cbn zeta. rewrite HQ'. auto.
Qed.

Lemma Qabs_nonneg_nth g i sl :
  nth_error (map Qabs g) i = Some sl -> 0 <= sl.
Proof.
  rewrite nth_error_map. destruct (nth_error g i); [|discriminate].
  intros [= <-]. apply Qabs_nonneg.
Qed.

(** The loop of [HydrologyEventThresholdStreamPower] when it returns: the
    volume it has accumulated is the trapezoid sum of the snapshots the
    flow accumulator returned, each of them corrected by
    [np.maximum(q - Q0, 0.0)] first. *)
Lemma threshold_loop_volume (storms : list storm) :
  forall (acc q0 : list Q) (s : model W) r s',
    for_each HydrologyEventThresholdStreamPower.event_body storms (acc, q0) s
    = (inr r, s') ->
    exists snaps,
      discharge_snapshots (world s) storms = Some (snaps, world s')
      /\ runoff_volume (fun q => excess_discharge q (Q0 s)) q0 acc storms
           snaps
         = Some (fst r)
      /\ q_eff s' = q_eff s /\ Q0 s' = Q0 s.
Proof.
  induction storms as [|st storms IH]; intros acc q0 s r s' E.
  - cbn [for_each] in E. apply ret_ok_inv in E. destruct E as [-> ->].
    exists []. repeat split.
  - cbn [for_each] in E.
    apply bind_ok_inv in E. destruct E as (acc1 & s1 & E0 & E).
    apply threshold_body_ok in E0.
    destruct E0 as (HQ & w1 & w2 & a1 & raw1 & w3 & w4 & a2 & raw2 & q1
                    & q2' & v & qtv' & G1 & A1 & G2 & A2 & X1 & X2 & Ev & Eq
                    & -> & Hw & Qe).
    apply IH in E. destruct E as (snaps & Sn & Rv & Qe' & HQ').
    exists ((raw1, raw2) :: snaps). rewrite Hw in Sn. rewrite HQ in Rv.
    split; [|split; [|split]].
    + cbn [discharge_snapshots]. rewrite G1, A1, G2, A2, Sn. reflexivity.
    + cbn [runoff_volume]. rewrite X1, X2, Ev, Eq. exact Rv.
    + congruence.
    + congruence.
Qed.

Lemma q_eff_before_loop (s : model W) :
  q_eff (after_fd (after_pits s)) = q_eff s.
Proof.
  unfold after_fd, after_pits, find_and_route_pits, find_pits,
    number_of_pits, lmb_run, fd_run, emit, bind, modify, get, ret. simpl.
  destruct (0 <? dfr_number_of_pits (dfr_find_pits (world s)))%nat;
    reflexivity.
Qed.

(** C6.  [HydrologyEventThresholdStreamPower.run_step] with a streampower
    coefficient [Ksp] that is not zero, when it returns.  Before the loop
    the critical discharge of a node is [E0 * sqrt(area) / (Ksp * S)],
    with a divisor that is not zero, where the slope magnitude [S] along
    the flow direction is positive, and 0 where it is not.  The effective
    discharge the step writes is the trapezoid volume of the snapshots the
    flow accumulator returned in the loop, divided by [T_h], where every
    snapshot [q] has been replaced by [max(q - Q0, 0)] before it entered
    the volume.  With [E0 = 0] and areas that are not negative the
    critical discharge is zero at every node, and the corrected discharge
    of a node equals its raw discharge (discharge is not negative). *)
Theorem threshold_critical_discharge (storms : list storm)
  (s s' : model W) :
  ~ Ksp P == 0 ->
  run_op P EventThresholdStreamPower_run_step storms s = (inr tt, s') ->
  exists g w area0 q00 snaps wend vol,
    let w0 := world_before_loop (world s) in
    let S := map Qabs g in
    let correct := fun q => excess_discharge q (Q0 s') in
    gather (calc_grad w0) (flow__link_to_receiver_node w0) = Some g
    /\ fa_accumulate_flow false w0 = Some (w, (area0, q00))
    /\ length (Q0 s') = length S /\ length area0 = length S
    /\ (forall i sl, nth_error S i = Some sl ->
          0 <= sl
          /\ exists a, nth_error area0 i = Some a
               /\ (0 < sl ->
                   ~ Ksp P * sl == 0
                   /\ nth_error (Q0 s') i
                      = Some (E0 P * np_sqrt a / (Ksp P * sl)))
               /\ (sl <= 0 -> nth_error (Q0 s') i = Some 0))
    /\ discharge_snapshots w storms = Some (snaps, wend)
    /\ runoff_volume correct (zeros_like (q_eff s)) (zeros_like (q_eff s))
         storms snaps
       = Some vol
    /\ q_eff s' = map (fun v => v / T_h P) vol
    /\ (forall q c i x x0,
          correct q = Some c ->
          nth_error q i = Some x -> nth_error (Q0 s') i = Some x0 ->
          nth_error c i = Some (Qmax (x - x0) 0)
          /\ (E0 P == 0 -> Forall (fun a => 0 <= a) area0 -> 0 <= x ->
              Qmax (x - x0) 0 == x))
    /\ (E0 P == 0 -> Forall (fun a => 0 <= a) area0 ->
        Forall (fun x => x == 0) (Q0 s')).
Proof.
  cbn [run_op]. intros HK E.
  destruct (threshold_run_step_Q0 storms s s' E)
    as (g & w & area0 & q00 & Eg & Ea & Ec).
  cbn zeta in Eg, Ea.
  assert (Hzero : E0 P == 0 -> Forall (fun x => x == 0) (Q0 s'))
    by (intro Hz; eapply critical_discharge_zero; eassumption).
  unfold HydrologyEventThresholdStreamPower.run_step in E.
  rewrite (bind_run _ _ _ _ _ (find_and_route_pits_run _)) in E.
  rewrite (bind_run _ _ _ _ _ (fd_run_run _)) in E.
  apply bind_ok_inv in E. destruct E as (x0 & s1 & E0 & E).
  apply calc_critical_discharge_ok_inv in E0.
  destruct E0 as (g' & w' & area0' & q00' & c & _ & Ea' & _ & HQ & Hw & Qe).
  rewrite world_after_fd, world_after_pits_eq in Ea'.
  change (fd_run_one_step (world_after_pits (world s)))
    with (world_before_loop (world s)) in Ea'.
  rewrite Ea in Ea'. injection Ea' as <- <- <-.
  rewrite (bind_run _ _ _ _ _ (reset_max_substeps_run _)) in E.
  apply bind_ok_inv in E. destruct E as (s0 & s2 & E0 & E).
  apply get_ok_inv in E0. destruct E0 as [-> ->].
  apply bind_ok_inv in E. destruct E as ([qtv q2f] & s2 & E0 & E).
  apply threshold_loop_volume in E0.
  destruct E0 as (snaps & Sn & Rv & Qe' & HQ').
  cbn beta iota in E. apply finalize_ok_inv in E.
  destruct E as (n & _ & _ & ->).
  cbn [fst] in Rv.
  cbn [world q_eff Q0 set_max_substeps_interstorm set_max_substeps_storm
       set_q_an set_q_eff] in *.
  pose proof (q_eff_before_loop s) as Qs.
  cbn [world q_eff Q0 set_max_substeps_interstorm set_max_substeps_storm
       set_q_an set_q_eff] in Qs.
  rewrite Hw in Sn. rewrite Qe, Qs in Rv. rewrite <- HQ' in Rv.
  exists g, w, area0, q00, snaps, (world s2), qtv. cbn zeta.
  destruct (critical_discharge_length _ _ _ _ _ _ Ec) as [L1 L2].
  split; [exact Eg|]. split; [exact Ea|]. split; [exact L1|].
  split; [exact L2|]. split; [|split; [exact Sn|split; [exact Rv|split;
    [reflexivity|split; [|intros Hz _; exact (Hzero Hz)]]]]].
  - intros i sl Hs. split; [eapply Qabs_nonneg_nth; eassumption|].
    destruct (critical_discharge_nth _ _ _ _ _ _ i sl Ec Hs)
      as (a & Ha & Hq).
    exists a. split; [exact Ha|]. split; intro Hsl.
    + split.
      * intro Hm. apply Qmult_integral in Hm. destruct Hm as [Hm|Hm].
        -- exact (HK Hm).
        -- rewrite Hm in Hsl. exact (Qlt_irrefl 0 Hsl).
      * rewrite Hq. replace (Qgtb sl 0) with true; [reflexivity|].
        symmetry. apply Qgtb_true. exact Hsl.
    + rewrite Hq. replace (Qgtb sl 0) with false; [reflexivity|].
      symmetry. apply Qgtb_false. exact Hsl.
  - intros q c0 i x x1 Hc Hx Hx1. split.
    + eapply excess_discharge_nth; eassumption.
    + intros Hz _ Hx0. apply Qmax_excess_zero; [|exact Hx0].
      specialize (Hzero Hz). rewrite Forall_forall in Hzero.
      apply Hzero. eapply nth_error_In. eassumption.
Qed.

End Threshold.

(** ** What a solver exception leaves behind *)

Section Commit.
Context {W : Type} `{Collaborators W} (P : params).

Lemma commits_late_bind {A B : Type} (I : model W -> Prop) (m : M W A)
  (f : A -> M W B) :
  preserves I m -> (forall a, commits_late I (f a)) ->
  commits_late I (bind m f).
Proof.
  intros Hm Hf s Hs. unfold bind. specialize (Hm s Hs).
  destruct (m s) as [[e|a] s1]; simpl in *.
  - intros _. exact Hm.
  - apply Hf. exact Hm.
Qed.

Lemma commits_late_never {A : Type} (I : model W -> Prop) (m : M W A) :
  never_raises SolverError m -> commits_late I m.
Proof. intros Hn s _ Hfail. exfalso. apply (Hn s Hfail). Qed.

Lemma never_raises_finalize v :
  never_raises SolverError (HydrologyEventStreamPower.finalize P v).
Proof.
  unfold HydrologyEventStreamPower.finalize, assign_q_an.
  repeat first
    [ apply never_raises_bind; [|intro]
    | apply never_raises_get | apply never_raises_modify
    | apply never_raises_assign_slice; discriminate
    | apply never_raises_lift_opt; discriminate ].
Qed.

Lemma preserves_generate_exp_precip (I : model W -> Prop) storms :
  (forall x s, I s -> I (set_forcing x s)) ->
  preserves I (generate_exp_precip storms).
Proof. intro Hf. apply preserves_modify. intro s. apply Hf. Qed.

Lemma preserves_stored_forcing (I : model W -> Prop) :
  preserves I stored_forcing.
Proof.
  unfold stored_forcing.
  apply preserves_bind; [apply preserves_get | intros s].
  destruct (forcing s); [apply preserves_ret | apply preserves_raise].
Qed.

(** The stream power loops write their results when they have finished:
    until then the effective and the area-normalised discharge are
    untouched. *)
Lemma stream_power_commits_late (op : step_op) (storms : list storm)
  (e n : list Q) :
  is_event_stream_power op = true ->
  commits_late (committed_fields e n) (run_op P op storms).
Proof.
  intro Hop.
  pose proof (preserves_stored_forcing (committed_fields e n)) as Hsf.
  assert (Hg : forall st, preserves (committed_fields e n)
                            (generate_exp_precip (W:=W) st))
    by (intro st; apply preserves_generate_exp_precip;
        intros x s Hs; exact Hs).
  assert (Hc : preserves (committed_fields e n)
                 (HydrologyEventThresholdStreamPower.calc_critical_discharge
                    P))
    by (apply preserves_calc_critical_discharge;
        [exact _ | intros x s Hs; exact Hs]).
  destruct op; try discriminate Hop; cbn [run_op];
    unfold HydrologyEventStreamPower.run_step,
      HydrologyEventStreamPower.run_step_record_state,
      HydrologyEventThresholdStreamPower.run_step,
      HydrologyEventThresholdStreamPower.run_step_record_state,
      HydrologyEventVadoseStreamPower.run_step,
      HydrologyEventVadoseStreamPower.run_step_record_state;
    repeat match goal with
           | |- commits_late _ (bind (for_each _ _ _) _) =>
               apply commits_late_bind;
               [ apply preserves_for_each; intros; body_frame
               | intros [q_total_vol q2]; apply commits_late_never;
                 apply never_raises_finalize ]
           | |- commits_late _ (bind _ _) =>
               apply commits_late_bind;
               [ solve [auto with preserves] | intro ]
           end.
Qed.

(** C5, as the program has it.  In a step operation of a stream power
    class with an event loop, when an exception propagates from a solver
    call the effective discharge and the area-normalised discharge hold
    what they held before the step: they are committed only after the
    whole loop has finished. *)
Theorem stream_power_commit_after_loop (op : step_op)
  (storms : list storm) (s : model W) :
  is_event_stream_power op = true ->
  fst (run_op P op storms s) = inl SolverError ->
  q_eff (snd (run_op P op storms s)) = q_eff s
  /\ q_an (snd (run_op P op storms s)) = q_an s.
Proof.
  intros Hop Hfail.
  apply (stream_power_commits_late op storms (q_eff s) (q_an s) Hop s);
    [split; reflexivity | exact Hfail].
Qed.

End Commit.

(** The fifth solver call raises, in the second iteration: the fields keep
    their values. *)
Lemma stream_power_commit_after_loop_witness :
  q_eff (snd (run_op (H:=Toy.collab 5) Toy.prm EventStreamPower_run_step
                Toy.storms Toy.init)) = q_eff Toy.init
  /\ q_an (snd (run_op (H:=Toy.collab 5) Toy.prm EventStreamPower_run_step
                  Toy.storms Toy.init)) = q_an Toy.init.
Proof.
  apply (stream_power_commit_after_loop (H:=Toy.collab 5) Toy.prm
           EventStreamPower_run_step Toy.storms Toy.init).
  - reflexivity.
  - vm_compute. reflexivity.
Defined.

(** C5, as stated, fails for the shear stress classes: [self.dzdt] is
    accumulated in place.  With [dzdt = [7, 7]] left by an earlier step and a
    solver call that raises in the second iteration,
    [HydrologyIntegrateShearStress.run_step] leaves [dzdt = [0.8, 0.4]], the
    contribution of the first iteration alone; the step that runs to its
    end gives [2.8, 0.9]. *)
Lemma integrate_shear_stress_partial_dzdt :
  fst (run_op (H:=Toy.collab 5) Toy.prm IntegrateShearStress_run_step
         Toy.storms (set_dzdt (Some [7; 7]) Toy.init))
  = inl SolverError
  /\ option_map (map Qred)
       (dzdt (snd (run_op (H:=Toy.collab 5) Toy.prm
                     IntegrateShearStress_run_step Toy.storms
                     (set_dzdt (Some [7; 7]) Toy.init))))
     = Some [4 # 5; 2 # 5]
  /\ option_map (map Qred)
       (dzdt (snd (run_op (H:=Toy.collab Toy.never) Toy.prm
                     IntegrateShearStress_run_step Toy.storms
                     (set_dzdt (Some [7; 7]) Toy.init))))
     = Some [14 # 5; 9 # 10]
  /\ ~ (forall op, has_event_loop op = true ->
          all_or_nothing (H:=Toy.collab 5) Toy.prm op).
Proof.
  split; [vm_compute; reflexivity|].
  split; [vm_compute; reflexivity|].
  split; [vm_compute; reflexivity|].
  intro Hall.
  specialize (Hall IntegrateShearStress_run_step eq_refl Toy.storms
                (set_dzdt (Some [7; 7]) Toy.init)).
  assert (Hfail : fst (run_op (H:=Toy.collab 5) Toy.prm
                         IntegrateShearStress_run_step Toy.storms
                         (set_dzdt (Some [7; 7]) Toy.init))
                  = inl SolverError) by (vm_compute; reflexivity).
  specialize (Hall Hfail). vm_compute in Hall. discriminate Hall.
Qed.

(** * Concrete runs *)

(** C7 on the small world: node 1 has drainage area 0. *)
Lemma area_normalised_discharge_guarded_witness :
  exists e,
    nth_error
      (normalised_field EventStreamPower_run_step
         (snd (run_op (H:=Toy.collab Toy.never) Toy.prm
                 EventStreamPower_run_step Toy.storms Toy.init))) 1
    = Some e
    /\ (0 == 0 ->
        nth_error
          (q_an (snd (run_op (H:=Toy.collab Toy.never) Toy.prm
                        EventStreamPower_run_step Toy.storms Toy.init))) 1
        = Some 0)
    /\ (0 < 0 ->
        nth_error
          (q_an (snd (run_op (H:=Toy.collab Toy.never) Toy.prm
                        EventStreamPower_run_step Toy.storms Toy.init))) 1
        = Some 0)
    /\ (0 < 0 ->
        nth_error
          (q_an (snd (run_op (H:=Toy.collab Toy.never) Toy.prm
                        EventStreamPower_run_step Toy.storms Toy.init))) 1
        = Some (e / Toy.sqrt_toy 0)).
Proof.
  apply (area_normalised_discharge_guarded (H:=Toy.collab Toy.never) Toy.prm
           EventStreamPower_run_step Toy.storms Toy.init
           (snd (run_op (H:=Toy.collab Toy.never) Toy.prm
                   EventStreamPower_run_step Toy.storms Toy.init))
           1%nat 0).
  - reflexivity.
  - vm_compute. reflexivity.
  - vm_compute. reflexivity.
Defined.

(** C9 on the small world: the accumulated discharge 1 of node 1 exceeds
    recharge times area, [1 * 0], and is clipped to it. *)
Lemma steady_discharge_clipped_witness :
  gdp_recharge
    (snd (run_op (H:=Toy.collab Toy.never) Toy.prm
            SteadyStreamPower_run_step [] Toy.init))
  = gdp_recharge Toy.init
  /\ exists w w' area accumulated,
       fa_run_one_step (Collaborators:=Toy.collab Toy.never) w
       = Some (w', (area, accumulated))
       /\ drainage_area
            (snd (run_op (H:=Toy.collab Toy.never) Toy.prm
                    SteadyStreamPower_run_step [] Toy.init)) = area
       /\ exists a x raw,
            nth_error area 1 = Some a
            /\ nth_error accumulated 1 = Some raw
            /\ recharge_at
                 (gdp_recharge
                    (snd (run_op (H:=Toy.collab Toy.never) Toy.prm
                            SteadyStreamPower_run_step [] Toy.init))) 1
               = Some x
            /\ 0 = (if Qgtb raw (x * a) then x * a else raw)
            /\ 0 <= x * a
            /\ nth_error
                 (q_an (snd (run_op (H:=Toy.collab Toy.never) Toy.prm
                               SteadyStreamPower_run_step [] Toy.init))) 1
               = Some (if Qgtb a 0 then 0 / Toy.sqrt_toy a else 0).
Proof.
  apply (steady_discharge_clipped (H:=Toy.collab Toy.never) Toy.prm []
           Toy.init
           (snd (run_op (H:=Toy.collab Toy.never) Toy.prm
                   SteadyStreamPower_run_step [] Toy.init))
           1%nat 0).
  - vm_compute. reflexivity.
  - vm_compute. reflexivity.
Defined.

(** C10 on the small world, with the forcing of two pairs. *)
Lemma first_event_starts_from_zero_witness :
  exists w1 w2 a1 q1 w3 w4 a2 q2 snaps wend vol1 vol,
    gdp_run_with_adaptive_time_step_solver
      (Collaborators:=Toy.collab Toy.never)
      (RScalar (1 # 1000000)) 100
      (world_before_loop (H:=Toy.collab Toy.never) (world Toy.init))
    = Some w1
    /\ fa_accumulate_flow (Collaborators:=Toy.collab Toy.never) false w1
       = Some (w2, (a1, q1))
    /\ gdp_run_with_adaptive_time_step_solver
         (Collaborators:=Toy.collab Toy.never)
         (RScalar 0) (Qmax 400 eps) w2
       = Some w3
    /\ fa_accumulate_flow (Collaborators:=Toy.collab Toy.never) false w3
       = Some (w4, (a2, q2))
    /\ discharge_snapshots (H:=Toy.collab Toy.never) w4
         [mk_storm 500 0 (1 # 1000000)]
       = Some (snaps, wend)
    /\ Forall2 (fun v x => v == half * (0 + x) * 100) vol1 q1
    /\ runoff_volume Some q2 vol1 [mk_storm 500 0 (1 # 1000000)] snaps
       = Some vol
    /\ q_eff (snd (run_op (H:=Toy.collab Toy.never) Toy.prm
                     EventStreamPower_run_step Toy.storms Toy.init))
       = map (fun v => v / 1000) vol
    /\ ([mk_storm 500 0 (1 # 1000000)] = [] ->
        Forall2 (fun e q => e == half * (0 + q) * 100 / 1000)
          (q_eff (snd (run_op (H:=Toy.collab Toy.never) Toy.prm
                         EventStreamPower_run_step Toy.storms Toy.init)))
          q1).
Proof.
  apply (first_event_starts_from_zero (H:=Toy.collab Toy.never) Toy.prm
           (mk_storm 100 400 (1 # 1000000))
           [mk_storm 500 0 (1 # 1000000)] Toy.init
           (snd (run_op (H:=Toy.collab Toy.never) Toy.prm
                   EventStreamPower_run_step Toy.storms Toy.init))).
  vm_compute. reflexivity.
Defined.

(** C6 on the small world, with [E0 = 2] and [Ksp = 1]: the slope magnitudes
    are [3, 0] and the areas [4, 0], so the critical discharge is
    [2 * sqrt(4) / (1 * 3)] at node 0 and 0 at node 1. *)
Lemma threshold_critical_discharge_witness :
  ~ Ksp Toy.prm_threshold == 0
  /\ run_op (H:=Toy.collab Toy.never) Toy.prm_threshold
       EventThresholdStreamPower_run_step Toy.storms Toy.init
     = (inr tt,
        snd (run_op (H:=Toy.collab Toy.never) Toy.prm_threshold
               EventThresholdStreamPower_run_step Toy.storms Toy.init))
  /\ exists g w area0 q00 snaps wend vol,
       gather [-3; 0] [0; -1]%Z = Some g
       /\ fa_accumulate_flow (Collaborators:=Toy.collab Toy.never) false
            (world_before_loop (H:=Toy.collab Toy.never) (world Toy.init))
          = Some (w, (area0, q00))
       /\ length
            (Q0 (snd (run_op (H:=Toy.collab Toy.never) Toy.prm_threshold
                        EventThresholdStreamPower_run_step Toy.storms
                        Toy.init)))
          = length (map Qabs g)
       /\ discharge_snapshots (H:=Toy.collab Toy.never) w Toy.storms
          = Some (snaps, wend)
       /\ runoff_volume
            (fun q =>
               excess_discharge q
                 (Q0 (snd (run_op (H:=Toy.collab Toy.never)
                             Toy.prm_threshold
                             EventThresholdStreamPower_run_step Toy.storms
                             Toy.init))))
            (zeros_like (q_eff Toy.init)) (zeros_like (q_eff Toy.init))
            Toy.storms snaps
          = Some vol
       /\ q_eff (snd (run_op (H:=Toy.collab Toy.never) Toy.prm_threshold
                        EventThresholdStreamPower_run_step Toy.storms
                        Toy.init))
          = map (fun v => v / 1000) vol.
Proof.
  split; [intro HK; discriminate HK|].
  split; [vm_compute; reflexivity|].
  destruct (threshold_critical_discharge (H:=Toy.collab Toy.never)
              Toy.prm_threshold Toy.storms Toy.init
              (snd (run_op (H:=Toy.collab Toy.never) Toy.prm_threshold
                      EventThresholdStreamPower_run_step Toy.storms
                      Toy.init)))
    as (g & w & area0 & q00 & snaps & wend & vol
        & Hg & Ha & HL & _ & _ & Sn & Rv & Qe & _).
  - intro HK. discriminate HK.
  - vm_compute. reflexivity.
  - exists g, w, area0, q00, snaps, wend, vol. repeat split; assumption.
Defined.

(** The zero critical discharge of C6 needs a coefficient [Ksp] that is not
    zero.  In binary64, with [E0 = 0] and [Ksp = 0], a node of area 4 and
    slope magnitude 3 gets [0 * sqrt(4) / (0 * 3)], which is [0 / 0]: the
    critical discharge is not a number, and it is not zero. *)
Lemma critical_discharge_zero_coefficient :
  (0 <? 3)%float = true
  /\ Binary64.critical_discharge 0 0 [4%float] [3%float]
     = Some [PrimFloat.nan]
  /\ PrimFloat.is_nan PrimFloat.nan = true
  /\ (PrimFloat.nan =? 0)%float = false.
Proof. vm_compute. repeat split. Qed.

Example toy_critical_discharge_values :
  map Qred
    (Q0 (snd (run_op (H:=Toy.collab Toy.never) Toy.prm_threshold
                EventThresholdStreamPower_run_step Toy.storms Toy.init)))
  = [4 # 3; 0].
Proof. vm_compute. reflexivity. Qed.

(** C4.  [HydrologyEventShearStress.run_step_record_state] on a stored
    forcing whose second interevent has duration 0: the groundwater solver
    is called with duration 0, where [run_step] of the same class calls it
    with [1e-15].  And on an object as [__init__] leaves it, without
    [_wt], [_base] and [_elev], the operation raises [AttributeError] when
    it records the first event, before any interevent advance. *)
Theorem record_state_interevent_not_floored :
  log (snd (run_op (H:=Toy.collab Toy.never) Toy.prm_recording
              EventShearStress_run_step_record_state [] Toy.generated))
  = [ find_pits_call; lmb_run_one_step_call; fd_run_one_step_call;
      gw_advance_call Event 100; accumulate_flow_call false;
      gw_advance_call Interevent 400; accumulate_flow_call false;
      gw_advance_call Event 500; accumulate_flow_call false;
      gw_advance_call Interevent 0; accumulate_flow_call false ]
  /\ log (snd (run_op (H:=Toy.collab Toy.never) Toy.prm_recording
                 EventShearStress_run_step Toy.storms Toy.init))
     = [ find_pits_call; lmb_run_one_step_call; fd_run_one_step_call;
         gw_advance_call Event 100; accumulate_flow_call false;
         gw_advance_call Interevent 400; accumulate_flow_call false;
         gw_advance_call Event 500; accumulate_flow_call false;
         gw_advance_call Interevent eps; accumulate_flow_call false ]
  /\ run_op (H:=Toy.collab Toy.never) Toy.prm
       EventShearStress_run_step_record_state [] Toy.generated
     = (inl AttributeError,
        snd (run_op (H:=Toy.collab Toy.never) Toy.prm
               EventShearStress_run_step_record_state [] Toy.generated))
  /\ log (snd (run_op (H:=Toy.collab Toy.never) Toy.prm
                 EventShearStress_run_step_record_state [] Toy.generated))
     = [ find_pits_call; lmb_run_one_step_call; fd_run_one_step_call;
         gw_advance_call Event 100; accumulate_flow_call false ].
Proof.
  split; [vm_compute; reflexivity|].
  split; [vm_compute; reflexivity|].
  split; vm_compute; reflexivity.
Qed.

(** * Further properties of the temporal aggregator *)

(** The four comparisons of one sub-interval, as propositions. *)
Ltac node_cases a e tauc :=
  let Ga := fresh "Ga" in let Ge := fresh "Ge" in
  let La := fresh "La" in let Le := fresh "Le" in
  destruct (Qgtb a tauc) eqn:Ga; destruct (Qgtb e tauc) eqn:Ge;
  destruct (Qltb a tauc) eqn:La; destruct (Qltb e tauc) eqn:Le;
  cbn [andb];
  repeat match goal with
         | H : Qgtb _ _ = true |- _ => apply Qgtb_true in H
         | H : Qgtb _ _ = false |- _ => apply Qgtb_false in H
         | H : Qltb _ _ = true |- _ => apply Qltb_true in H
         | H : Qltb _ _ = false |- _ => apply Qltb_false in H
         end;
  try (exfalso; lra).

Lemma triangle_nonneg (dt v u tauc : Q) :
  0 <= dt -> u < tauc -> tauc < v ->
  0 <= half * dt * (v - tauc) * ((v - tauc) / (v - u)).
Proof.
  intros Hdt Hu Hv.
  apply Qmult_le_0_compat.
  - apply Qmult_le_0_compat; [|lra].
    apply Qmult_le_0_compat; [unfold half; lra | exact Hdt].
  - apply Qle_shift_div_l; lra.
Qed.

(** The integral of the excess over one sub-interval is not negative. *)
Lemma node_tauint_nonneg a e tauc dt :
  0 <= dt -> 0 <= node_tauint a e tauc dt.
Proof.
  intros Hdt. unfold node_tauint. node_cases a e tauc; try lra.
  - (* both above *)
    apply Qmult_le_0_compat; [|lra].
    apply Qmult_le_0_compat; [unfold half; lra | exact Hdt].
  - (* falling *)
    apply triangle_nonneg; assumption.
  - (* rising *)
    apply triangle_nonneg; assumption.
Qed.

Lemma node_taueff_at_least_threshold t0 t1 t2 tauc tr tb :
  0 <= tr -> 0 <= tb -> 0 < tr + tb ->
  tauc <= node_taueff t0 t1 t2 tauc tr tb.
Proof.
  intros Hr Hb Hs. unfold node_taueff.
  pose proof (node_tauint_nonneg t0 t1 tauc tr Hr) as A0.
  pose proof (node_tauint_nonneg t1 t2 tauc tb Hb) as B0.
  set (I := node_tauint t0 t1 tauc tr + node_tauint t1 t2 tauc tb) in *.
  assert (H0 : 0 <= I / (tr + tb))
    by (apply Qle_shift_div_l; [exact Hs | unfold I; lra]).
  lra.
Qed.

(** X1.  The effective shear stress of a node is never below the
    threshold, whatever the three snapshots are, for durations that are
    not negative and not both zero: both integrals of the excess are
    products and quotients of quantities that are not negative. *)
Theorem calc_storm_eff_shear_stress_at_least_threshold
  (tau0 tau1 tau2 : list Q) (tauc tr tb : Q) (i : nat) (t0 t1 t2 : Q) :
  length tau1 = length tau0 -> length tau2 = length tau0 ->
  nth_error tau0 i = Some t0 -> nth_error tau1 i = Some t1 ->
  nth_error tau2 i = Some t2 ->
  0 <= tr -> 0 <= tb -> 0 < tr + tb ->
  exists taueff x,
    calc_storm_eff_shear_stress tau0 tau1 tau2 tauc tr tb = Some taueff
    /\ nth_error taueff i = Some x
    /\ tauc <= x.
Proof.
  intros L1 L2 N0 N1 N2 Hr Hb Hs.
  destruct (calc_storm_eff_shear_stress_total tau0 tau1 tau2 tauc tr tb L1 L2)
    as [taueff E].
  exists taueff, (node_taueff t0 t1 t2 tauc tr tb).
  split; [exact E|]. split.
  - eapply calc_storm_eff_shear_stress_nth; eassumption.
  - apply node_taueff_at_least_threshold; assumption.
Qed.

Lemma calc_storm_eff_shear_stress_at_least_threshold_witness :
  exists taueff x,
    calc_storm_eff_shear_stress [0; 5] [3; 5] [2; 1] 1 100 0 = Some taueff
    /\ nth_error taueff 1 = Some x
    /\ 1 <= x.
Proof.
  apply (calc_storm_eff_shear_stress_at_least_threshold
           [0; 5] [3; 5] [2; 1] 1 100 0 1%nat 5 5 1);
    solve [reflexivity | lra].
Defined.

(** X3.  Where none of the three snapshots exceeds the threshold, the
    effective value is the threshold itself, whatever the durations are,
    as long as they do not add up to zero. *)
Theorem calc_storm_eff_shear_stress_below
  (tau0 tau1 tau2 : list Q) (tauc tr tb : Q) (i : nat) (t0 t1 t2 : Q) :
  length tau1 = length tau0 -> length tau2 = length tau0 ->
  nth_error tau0 i = Some t0 -> nth_error tau1 i = Some t1 ->
  nth_error tau2 i = Some t2 ->
  t0 <= tauc -> t1 <= tauc -> t2 <= tauc -> ~ tr + tb == 0 ->
  exists taueff x,
    calc_storm_eff_shear_stress tau0 tau1 tau2 tauc tr tb = Some taueff
    /\ nth_error taueff i = Some x
    /\ x == tauc.
Proof.
  intros L1 L2 N0 N1 N2 H0 H1 H2 Hs.
  destruct (calc_storm_eff_shear_stress_total tau0 tau1 tau2 tauc tr tb L1 L2)
    as [taueff E].
  exists taueff, (node_taueff t0 t1 t2 tauc tr tb).
  split; [exact E|]. split.
  - eapply calc_storm_eff_shear_stress_nth; eassumption.
  - unfold node_taueff.
    rewrite (node_tauint_none_above t0 t1 tauc tr H0 H1).
    rewrite (node_tauint_none_above t1 t2 tauc tb H1 H2).
    field. exact Hs.
Qed.

Lemma calc_storm_eff_shear_stress_below_witness :
  exists taueff x,
    calc_storm_eff_shear_stress [0; 1] [1; 1] [0; 1] 1 100 0 = Some taueff
    /\ nth_error taueff 0 = Some x
    /\ x == 1.
Proof.
  apply (calc_storm_eff_shear_stress_below
           [0; 1] [1; 1] [0; 1] 1 100 0 0%nat 0 1 0);
    solve [reflexivity | lra].
Defined.

(** One sub-interval does not tell its start from its end. *)
Lemma node_tauint_sym a e tauc dt :
  node_tauint a e tauc dt == node_tauint e a tauc dt.
Proof.
  unfold node_tauint. node_cases a e tauc; try reflexivity.
  ring.
Qed.

(** X4.  Reversing time (the snapshots in the opposite order, the two
    durations exchanged) gives the same effective shear stress at every
    node.  The durations do not add up to zero. *)
Theorem calc_storm_eff_shear_stress_reversed
  (tau0 tau1 tau2 : list Q) (tauc tr tb : Q) (taueff : list Q) :
  ~ tr + tb == 0 ->
  calc_storm_eff_shear_stress tau0 tau1 tau2 tauc tr tb = Some taueff ->
  exists taueff',
    calc_storm_eff_shear_stress tau2 tau1 tau0 tauc tb tr = Some taueff'
    /\ length taueff' = length taueff
    /\ forall i x, nth_error taueff i = Some x ->
         exists y, nth_error taueff' i = Some y /\ x == y.
Proof.
  intros Hs E.
  destruct (calc_storm_eff_shear_stress_length _ _ _ _ _ _ _ E)
    as (L & L1 & L2).
  destruct (calc_storm_eff_shear_stress_total tau2 tau1 tau0 tauc tb tr)
    as [taueff' E']; try congruence.
  exists taueff'. split; [exact E'|].
  destruct (calc_storm_eff_shear_stress_length _ _ _ _ _ _ _ E')
    as (L' & _ & _).
  split; [congruence|].
  intros i x Hx.
  destruct (nth_error_same_length taueff tau0 i x L Hx) as [t0 H0].
  destruct (nth_error_same_length taueff tau1 i x) as [t1 H1];
    [congruence | exact Hx |].
  destruct (nth_error_same_length taueff tau2 i x) as [t2 H2];
    [congruence | exact Hx |].
  rewrite (calc_storm_eff_shear_stress_nth _ _ _ _ _ _ _ i t0 t1 t2 E H0 H1 H2)
    in Hx.
  injection Hx as <-.
  exists (node_taueff t2 t1 t0 tauc tb tr). split.
  - eapply calc_storm_eff_shear_stress_nth; eassumption.
  - unfold node_taueff.
    rewrite (node_tauint_sym t0 t1), (node_tauint_sym t1 t2).
    setoid_replace (tb + tr) with (tr + tb) by ring.
    unfold Qdiv. ring.
Qed.

Lemma calc_storm_eff_shear_stress_reversed_witness :
  exists taueff',
    calc_storm_eff_shear_stress [0; 5] [3; 5] [2; 1] 1 900 100 = Some taueff'
    /\ length taueff' = 2%nat
    /\ forall i x,
         nth_error
           (map2 (fun i1 i2 => (i1 + i2) / (100 + 900) + 1)
              (tauint [2; 1] [2; 1] [3; 5] 1 100)
              (tauint [2; 1] [3; 5] [0; 5] 1 900)) i = Some x ->
         exists y, nth_error taueff' i = Some y /\ x == y.
Proof.
  refine (calc_storm_eff_shear_stress_reversed
           [2; 1] [3; 5] [0; 5] 1 100 900
           (map2 (fun i1 i2 => (i1 + i2) / (100 + 900) + 1)
              (tauint [2; 1] [2; 1] [3; 5] 1 100)
              (tauint [2; 1] [3; 5] [0; 5] 1 900))
           _ eq_refl).
  intro Hs. discriminate Hs.
Defined.

(** * Further properties of the step operations *)

(** ** The floor of the interevent duration *)

Lemma eps_positive : 0 < eps.
Proof. reflexivity. Qed.

Section Floor.
Context {W : Type} `{Collaborators W} (P : params).

(** X5.  Every step operation with an event loop other than
    [HydrologyEventShearStress.run_step_record_state] calls the groundwater
    solver for an interevent with a duration that is positive and at least
    [1e-15]: it is [max(interstorm_dt, 1e-15)] of a pair of the forcing,
    also when a later call raises. *)
Theorem interevent_duration_positive (op : step_op) (storms : list storm)
  (s : model W) :
  has_event_loop op = true -> floors_interstorm op = true ->
  exists new,
    log (snd (run_op P op storms s)) = log s ++ new
    /\ forall d, In (gw_advance_call Interevent d) new ->
         0 < d /\ eps <= d
         /\ exists st, In st storms /\ d = Qmax (interstorm_dt st) eps.
Proof.
  intros Hloop Hfl.
  assert (Hne : op <> EventShearStress_run_step_record_state)
    by (intros ->; discriminate Hfl).
  destruct (run_op_calls P op storms s Hloop) as (evs & L & [rest Pf] & _).
  { intro E. contradiction. }
  eexists. split; [exact L|].
  intros d Hin.
  assert (Hst : exists st, In st storms /\ d = Qmax (interstorm_dt st) eps).
  { rewrite Hfl in Pf.
    replace (loop_forcing op storms s) with storms in Pf
      by (destruct op; try reflexivity; contradiction).
    apply in_app_or in Hin. destruct Hin as [Hin|Hin].
    { unfold pit_calls in Hin. simpl in Hin.
      destruct (0 <? _)%nat; simpl in Hin;
        repeat (destruct Hin as [Hin|Hin]; try discriminate Hin);
        contradiction. }
    simpl in Hin. destruct Hin as [Hin|Hin]; [discriminate Hin|].
    assert (Hin' : In (gw_advance_call Interevent d) (evs ++ rest))
      by (apply in_or_app; left; exact Hin).
    rewrite <- Pf in Hin'. apply in_app_or in Hin'.
    destruct Hin' as [Hin'|Hin'].
    { destruct op; simpl in Hin';
        repeat (destruct Hin' as [Hin'|Hin']; try discriminate Hin');
        contradiction. }
    apply in_iterations in Hin'.
    destruct Hin' as (st & Hst & [[E _]|[_ E]]).
    - discriminate E.
    - exists st. split; assumption. }
  destruct Hst as (st & Hst & ->).
  assert (Hle : eps <= Qmax (interstorm_dt st) eps) by apply Q.le_max_r.
  split; [|split; [exact Hle | exists st; split; [exact Hst | reflexivity]]].
  eapply Qlt_le_trans; [exact eps_positive | exact Hle].
Qed.

End Floor.

(** [HydrologyEventVadoseStreamPower.run_step] on a forcing whose second
    interevent has no duration. *)
Lemma interevent_duration_positive_witness :
  exists new,
    log (snd (run_op (H:=Toy.collab Toy.never) Toy.prm
                EventVadoseStreamPower_run_step Toy.storms Toy.init))
    = log Toy.init ++ new
    /\ forall d, In (gw_advance_call Interevent d) new ->
         0 < d /\ eps <= d
         /\ exists st, In st Toy.storms /\ d = Qmax (interstorm_dt st) eps.
Proof.
  apply (interevent_duration_positive (H:=Toy.collab Toy.never) Toy.prm
           EventVadoseStreamPower_run_step Toy.storms Toy.init);
    reflexivity.
Defined.

(** ** Loops that return *)

Section LoopFacts.
Context {W : Type}.

(** An invariant of the accumulator and the state that every iteration
    which returns keeps holds when the loop returns. *)
Lemma for_each_ok_inv {A B : Type} (body : B -> A -> M W B)
  (Inv : B -> model W -> Prop) (xs : list A) :
  (forall acc x s acc' s',
     In x xs -> Inv acc s -> body acc x s = (inr acc', s') -> Inv acc' s') ->
  forall acc s r s',
    Inv acc s -> for_each body xs acc s = (inr r, s') -> Inv r s'.
Proof.
  induction xs as [|x xs IH]; intros Hb acc s r s' Hi E.
  - cbn [for_each] in E. unfold ret in E. inversion E. subst. exact Hi.
  - cbn [for_each] in E. apply bind_ok_inv in E.
    destruct E as (acc1 & s1 & E0 & E).
    apply (IH (fun acc0 x0 s0 acc' s0' Hin => Hb acc0 x0 s0 acc' s0'
                 (or_intror Hin)) acc1 s1 r s'); [|exact E].
    apply (Hb acc x s acc1 s1 (or_introl eq_refl) Hi E0).
Qed.

(** What every iteration that returns establishes holds after a loop with
    at least one iteration. *)
Lemma for_each_last {A B : Type} (body : B -> A -> M W B)
  (I : model W -> Prop) (xs : list A) :
  (forall acc x s acc' s', body acc x s = (inr acc', s') -> I s') ->
  xs <> [] ->
  forall acc s r s', for_each body xs acc s = (inr r, s') -> I s'.
Proof.
  intros Hb Hne acc s r s' E.
  destruct xs as [|x xs]; [contradiction|].
  cbn [for_each] in E. apply bind_ok_inv in E.
  destruct E as (acc1 & s1 & E0 & E).
  apply (for_each_ok_inv body (fun _ s0 => I s0) xs
           (fun acc0 x0 s0 acc' s0' _ _ E' => Hb acc0 x0 s0 acc' s0' E')
           acc1 s1 r s'); [|exact E].
  apply (Hb acc x s acc1 s1 E0).
Qed.

(** A loop over nothing. *)
Lemma for_each_nil_inv {A B : Type} (body : B -> A -> M W B) acc s r s' :
  for_each body [] acc s = (inr r, s') -> r = acc /\ s' = s.
Proof. cbn [for_each]. unfold ret. intro E. inversion E. auto. Qed.

End LoopFacts.

Lemma Forall_map2 {A B C : Type} (f : A -> B -> C) (PA : A -> Prop)
  (PB : B -> Prop) (PC : C -> Prop) :
  (forall x y, PA x -> PB y -> PC (f x y)) ->
  forall xs ys, Forall PA xs -> Forall PB ys -> Forall PC (map2 f xs ys).
Proof.
  intros Hf xs. induction xs as [|x xs IH]; intros ys Hx Hy; simpl.
  - constructor.
  - destruct ys as [|y ys]; [constructor|].
    inversion Hx; subst. inversion Hy; subst.
    constructor; [apply Hf; assumption | apply IH; assumption].
Qed.

Lemma Forall_map2_any {A B C : Type} (f : A -> B -> C) (PC : C -> Prop) :
  (forall x y, PC (f x y)) ->
  forall xs ys, Forall PC (map2 f xs ys).
Proof.
  intros Hf xs. induction xs as [|x xs IH]; intros ys; simpl.
  - constructor.
  - destruct ys as [|y ys]; constructor; [apply Hf | apply IH].
Qed.

Lemma all_nonneg_zeros {A : Type} (a : list A) : all_nonneg (zeros_like a).
Proof.
  unfold all_nonneg, zeros_like. apply Forall_forall. intros x Hx.
  apply repeat_spec in Hx. subst x. apply Qle_refl.
Qed.

Lemma all_zero_zeros {A : Type} (a : list A) : all_zero (zeros_like a).
Proof.
  unfold all_zero, zeros_like. apply Forall_forall. intros x Hx.
  apply repeat_spec in Hx. subst x. reflexivity.
Qed.

Lemma excess_discharge_nonneg q q0 res :
  excess_discharge q q0 = Some res -> all_nonneg res.
Proof.
  intro E. apply map2_chk_Some in E. destruct E as [_ ->].
  apply Forall_map2_any. intros x y. apply Q.le_max_r.
Qed.

Lemma event_volume_nonneg q0 q1 dt v :
  0 <= dt -> all_nonneg q0 -> all_nonneg q1 ->
  event_volume q0 q1 dt = Some v -> all_nonneg v.
Proof.
  intros Hdt H0 H1 E. apply map2_chk_Some in E. destruct E as [_ ->].
  apply (Forall_map2 _ (fun x => 0 <= x) (fun x => 0 <= x)); try assumption.
  intros x y Hx Hy. unfold half.
  apply Qmult_le_0_compat; [|exact Hdt].
  apply Qmult_le_0_compat; [discriminate | lra].
Qed.

Lemma iadd_nonneg acc v res :
  all_nonneg acc -> all_nonneg v -> iadd acc v = Some res -> all_nonneg res.
Proof.
  intros H0 H1 E. apply map2_chk_Some in E. destruct E as [_ ->].
  apply (Forall_map2 _ (fun x => 0 <= x) (fun x => 0 <= x)); try assumption.
  intros x y Hx Hy. lra.
Qed.

Lemma all_nonneg_div (T : Q) (v : list Q) :
  0 < T -> all_nonneg v -> all_nonneg (map (fun x => x / T) v).
Proof.
  intros HT Hv. unfold all_nonneg in *. apply Forall_map.
  eapply Forall_impl; [|exact Hv]. cbn beta. intros x Hx.
  apply Qle_shift_div_l; [exact HT | lra].
Qed.

(** ** The effective discharge of the threshold model *)

Section ThresholdSign.
Context {W : Type} `{Collaborators W} (P : params).

Lemma threshold_loop_nonneg (storms : list storm) (acc : list Q * list Q)
  (s : model W) r s' :
  Forall (fun st => 0 <= storm_dt st) storms ->
  all_nonneg (fst acc) -> all_nonneg (snd acc) ->
  for_each (HydrologyEventThresholdStreamPower.event_body) storms acc s
  = (inr r, s') ->
  all_nonneg (fst r).
Proof.
  intros Hdt Ha Hb E.
  refine (proj1 (for_each_ok_inv _
            (fun acc0 _ => all_nonneg (fst acc0) /\ all_nonneg (snd acc0))
            storms _ acc s r s' (conj Ha Hb) E)).
  intros [qtv q2] st s0 acc' s0' Hin [Hq Hq2] Eb.
  apply threshold_body_ok in Eb.
  destruct Eb as (_ & w1 & w2 & a1 & raw1 & w3 & w4 & a2 & raw2 & q1 & q2'
                  & v & qtv' & _ & _ & _ & _ & X1 & X2 & Ev & Eq & -> & _ & _).
  cbn [fst snd] in *.
  assert (Hst : 0 <= storm_dt st)
    by (rewrite Forall_forall in Hdt; apply Hdt; exact Hin).
  split.
  - eapply iadd_nonneg; [exact Hq | | exact Eq].
    eapply event_volume_nonneg; [exact Hst | exact Hq2 | | exact Ev].
    eapply excess_discharge_nonneg; exact X1.
  - eapply excess_discharge_nonneg; exact X2.
Qed.

(** X6.  When a step of [HydrologyEventThresholdStreamPower] returns, the
    effective discharge it has written is negative at no node, whatever
    discharges the flow accumulator has returned: every snapshot enters the
    volume as [max(q - Q0, 0)].  The streampower coefficient [Ksp] is not
    zero, so that the critical discharge is a number at every node; the
    storm durations are not negative and the total time is positive. *)
Theorem threshold_effective_discharge_nonneg (op : step_op)
  (storms : list storm) (s s' : model W) :
  is_threshold op = true -> ~ Ksp P == 0 ->
  0 < T_h P -> Forall (fun st => 0 <= storm_dt st) storms ->
  run_op P op storms s = (inr tt, s') ->
  all_nonneg (q_eff s').
Proof.
  intros Hop _ HT Hdt E.
  destruct op; try discriminate Hop; cbn [run_op] in E.
  - unfold HydrologyEventThresholdStreamPower.run_step in E.
    rewrite (bind_run _ _ _ _ _ (find_and_route_pits_run _)) in E.
    rewrite (bind_run _ _ _ _ _ (fd_run_run _)) in E.
    apply bind_ok_inv in E. destruct E as (x0 & s1 & _ & E).
    rewrite (bind_run _ _ _ _ _ (reset_max_substeps_run _)) in E.
    apply bind_ok_inv in E. destruct E as (s0 & s2 & E0 & E).
    apply get_ok_inv in E0. destruct E0 as [-> ->].
    apply bind_ok_inv in E. destruct E as ([qtv q2] & s2 & E0 & E).
    apply threshold_loop_nonneg in E0;
      [| exact Hdt | apply all_nonneg_zeros | apply all_nonneg_zeros].
    cbn beta iota in E. apply finalize_ok_inv in E.
    destruct E as (n & _ & _ & ->). cbn.
    apply all_nonneg_div; assumption.
  - unfold HydrologyEventThresholdStreamPower.run_step_record_state in E.
    rewrite (bind_run _ _ _ _ _ (generate_exp_precip_run _ _)) in E.
    rewrite (bind_run _ _ _ _ _ (find_and_route_pits_run _)) in E.
    rewrite (bind_run _ _ _ _ _ (fd_run_run _)) in E.
    apply bind_ok_inv in E. destruct E as (x0 & s1 & E0 & E).
    assert (HF : forcing_is storms s1).
    { pose proof (preserves_calc_critical_discharge P (forcing_is storms)
                    (fun _ _ Hs => Hs) _
                    (after_fd_preserves (forcing_is storms) _
                       (after_pits_preserves (forcing_is storms)
                          (set_forcing (Some storms) s) eq_refl))) as X.
      rewrite E0 in X. exact X. }
    rewrite (bind_run _ _ _ _ _ (reset_max_substeps_run _)) in E.
    apply bind_ok_inv in E. destruct E as (s0 & s2 & E1 & E).
    apply get_ok_inv in E1. destruct E1 as [-> ->].
    match type of E with
    | bind stored_forcing _ ?st = _ =>
        rewrite (bind_run _ _ _ _ _ (stored_forcing_run storms st HF)) in E
    end.
    apply bind_ok_inv in E. destruct E as ([qtv q2] & s2 & E1 & E).
    apply threshold_loop_nonneg in E1;
      [| exact Hdt | apply all_nonneg_zeros | apply all_nonneg_zeros].
    cbn beta iota in E. apply finalize_ok_inv in E.
    destruct E as (n & _ & _ & ->). cbn.
    apply all_nonneg_div; assumption.
Qed.

End ThresholdSign.

(** On the small world the raw discharge of node 0 stays below its critical
    discharge [4/3] in the first event. *)
Lemma threshold_effective_discharge_nonneg_witness :
  all_nonneg
    (q_eff (snd (run_op (H:=Toy.collab Toy.never) Toy.prm_threshold
                   EventThresholdStreamPower_run_step Toy.storms Toy.init))).
Proof.
  apply (threshold_effective_discharge_nonneg (H:=Toy.collab Toy.never)
           Toy.prm_threshold EventThresholdStreamPower_run_step Toy.storms
           Toy.init).
  - reflexivity.
  - intro HK. discriminate HK.
  - reflexivity.
  - repeat constructor; discriminate.
  - vm_compute. reflexivity.
Defined.

(** ** Returns under an invariant *)

Section ReturnsUnder.
Context {W : Type} `{Collaborators W}.

Lemma returns_under_bind {A B : Type} I (m : M W A) (f : A -> M W B) Q :
  preserves I m -> (forall a, returns_under I (f a) Q) ->
  returns_under I (bind m f) Q.
Proof.
  intros Hm Hf s b s' Hs E. apply bind_ok_inv in E.
  destruct E as (a & s1 & E0 & E).
  apply (Hf a s1 b s'); [|exact E].
  specialize (Hm s Hs). rewrite E0 in Hm. exact Hm.
Qed.

Lemma returns_under_weaken {A : Type} I (m : M W A) Q :
  returns m Q -> returns_under I m Q.
Proof. intros Hm s a s' _ E. apply (Hm s a s' E). Qed.

Lemma returns_under_stored_forcing {B : Type} f (k : list storm -> M W B) Q :
  returns_under (forcing_is f) (k f) Q ->
  returns_under (forcing_is f) (bind stored_forcing k) Q.
Proof.
  intros Hk s b s' Hs E.
  rewrite (bind_run _ _ _ _ _ (stored_forcing_run f s Hs)) in E.
  apply (Hk s b s' Hs E).
Qed.

Lemma returns_generate_exp_precip {B : Type} storms (m : M W B) Q :
  returns_under (forcing_is storms) m Q ->
  returns (bind (generate_exp_precip storms) (fun _ => m)) Q.
Proof.
  intros Hm s b s' E.
  rewrite (bind_run _ _ _ _ _ (generate_exp_precip_run _ _)) in E.
  apply (Hm (set_forcing (Some storms) s) b s'); [reflexivity | exact E].
Qed.

Lemma returns_bind_raise {A B : Type} e (f : A -> M W B) Q :
  returns (bind (raise e) f) Q.
Proof. intros s b s' E. discriminate E. Qed.

(** After a loop of at least one iteration and what follows it. *)
Lemma returns_loop_last {A B C : Type} (body : B -> A -> M W B)
  (xs : list A) (acc : B) (k : B -> M W C) (J : model W -> Prop) :
  xs <> [] ->
  (forall acc0 x, returns (body acc0 x) (fun _ s => J s)) ->
  (forall b, preserves J (k b)) ->
  returns (bind (for_each body xs acc) k) (fun _ s => J s).
Proof.
  intros Hne Hb Hk s c s' E. apply bind_ok_inv in E.
  destruct E as (b & s1 & E0 & E).
  assert (H1 : J s1).
  { apply (for_each_last body J xs) in E0; [exact E0 | | exact Hne].
    intros acc0 x s0 acc' s0' Eb. apply (Hb acc0 x s0 acc' s0' Eb). }
  specialize (Hk b s1 H1). rewrite E in Hk. exact Hk.
Qed.

End ReturnsUnder.

(** ** The recharge a step leaves in the groundwater component *)

(** The statements that do not assign [gdp.recharge]. *)
Ltac keeps_recharge_step :=
  lazymatch goal with
  | |- preserves _ (bind _ _) => apply preserves_bind; [|intros ?]
  | |- preserves _ (ret _) => apply preserves_ret
  | |- preserves _ (raise _) => apply preserves_raise
  | |- preserves _ get => apply preserves_get
  | |- preserves _ (lift_opt _ _) => apply preserves_lift_opt
  | |- preserves _ (assign_slice _ _) => apply preserves_assign_slice
  | |- preserves _ (float_division_by _) =>
      apply preserves_float_division_by
  | |- preserves _ (modify _) =>
      apply preserves_modify; intros ? Hs; exact Hs
  | |- preserves _ (match ?x with _ => _ end) => destruct x
  | |- preserves _ (emit _) => unfold emit
  | |- preserves _ (run_with_adaptive_time_step_solver _ _) =>
      unfold run_with_adaptive_time_step_solver
  | |- preserves _ (accumulate_flow _) => unfold accumulate_flow
  | |- preserves _ (store_accumulation _) => unfold store_accumulation
  | |- preserves _ number_of_substeps => unfold number_of_substeps
  | |- preserves _ shear_stress => unfold shear_stress
  | |- preserves _ erosion_from_shear_stress =>
      unfold erosion_from_shear_stress
  | |- preserves _ (assign_tau _) => unfold assign_tau
  | |- preserves _ (iadd_dzdt _ _) => unfold iadd_dzdt
  | |- preserves _ update_max_substeps_storm =>
      unfold update_max_substeps_storm
  | |- preserves _ update_max_substeps_interstorm =>
      unfold update_max_substeps_interstorm
  | |- preserves _ (HydrologyEventShearStress.record_wtrel _) =>
      unfold HydrologyEventShearStress.record_wtrel
  | |- preserves _ (assign_q_an _) => unfold assign_q_an
  | |- preserves _ (HydrologyEventStreamPower.finalize _ _) =>
      unfold HydrologyEventStreamPower.finalize
  end.

Ltac keeps_recharge := repeat keeps_recharge_step.

(** Walk to the statement [self.gdp.recharge = 0.0] of a loop body. *)
Ltac to_interevent :=
  repeat lazymatch goal with
         | |- returns (bind (set_recharge (RScalar 0)) _) _ => fail
         | |- returns (bind _ _) _ => apply returns_bind_last; intros ?
         | |- returns (match ?x with _ => _ end) _ => destruct x
         end.

Section Recharge.
Context {W : Type} `{Collaborators W} (P : params).

Lemma returns_after_set_recharge {A : Type} v (m : M W A) :
  preserves (recharge_is v) m ->
  returns (bind (set_recharge v) (fun _ => m)) (fun _ s' => recharge_is v s').
Proof.
  intros Hm s a s' E. apply bind_ok_inv in E.
  destruct E as (x & s1 & E0 & E). apply modify_ok_inv in E0. subst s1.
  specialize (Hm (set_gdp_recharge v s) eq_refl). rewrite E in Hm. exact Hm.
Qed.

Lemma integrate_body_recharge tau2 st :
  returns (HydrologyIntegrateShearStress.event_body P tau2 st)
    (fun _ s' => recharge_is (RScalar 0) s').
Proof.
  unfold HydrologyIntegrateShearStress.event_body. to_interevent.
  apply returns_after_set_recharge. keeps_recharge.
Qed.

Lemma shear_body_recharge dzdt2 st :
  returns (HydrologyEventShearStress.event_body P dzdt2 st)
    (fun _ s' => recharge_is (RScalar 0) s').
Proof.
  unfold HydrologyEventShearStress.event_body. to_interevent.
  apply returns_after_set_recharge. keeps_recharge.
Qed.

Lemma shear_body_record_state_recharge dzdt2 st :
  returns (HydrologyEventShearStress.event_body_record_state P dzdt2 st)
    (fun _ s' => recharge_is (RScalar 0) s').
Proof.
  unfold HydrologyEventShearStress.event_body_record_state. to_interevent.
  apply returns_after_set_recharge. keeps_recharge.
Qed.

Lemma stream_power_body_recharge acc st :
  returns (HydrologyEventStreamPower.event_body acc st)
    (fun _ s' => recharge_is (RScalar 0) s').
Proof.
  unfold HydrologyEventStreamPower.event_body. destruct acc.
  to_interevent. apply returns_after_set_recharge. keeps_recharge.
Qed.

Lemma threshold_body_recharge acc st :
  returns (HydrologyEventThresholdStreamPower.event_body acc st)
    (fun _ s' => recharge_is (RScalar 0) s').
Proof.
  unfold HydrologyEventThresholdStreamPower.event_body. destruct acc.
  to_interevent. apply returns_after_set_recharge. keeps_recharge.
Qed.

Lemma vadose_body_recharge acc st :
  returns (HydrologyEventVadoseStreamPower.event_body acc st)
    (fun _ s' => recharge_is (RScalar 0) s').
Proof.
  unfold HydrologyEventVadoseStreamPower.event_body. destruct acc.
  to_interevent. apply returns_after_set_recharge. keeps_recharge.
Qed.

Lemma finalize_keeps_recharge v q :
  preserves (recharge_is v) (HydrologyEventStreamPower.finalize P q).
Proof. keeps_recharge. Qed.

End Recharge.

Section ReturnsAt.
Context {W : Type}.

Lemma returns_at {A : Type} (m : M W A) Q s a s' :
  returns m Q -> m s = (inr a, s') -> Q a s'.
Proof. intros Hm E. apply (Hm s a s' E). Qed.

Lemma returns_under_at {A : Type} I (m : M W A) Q s a s' :
  returns_under I m Q -> I s -> m s = (inr a, s') -> Q a s'.
Proof. intros Hm Hs E. apply (Hm s a s' Hs E). Qed.

End ReturnsAt.

(** From the first statement of a step operation to its loop, under an
    invariant the statements before the loop keep. *)
Ltac to_loop :=
  repeat lazymatch goal with
         | |- returns_under _ (bind stored_forcing _) _ =>
             apply returns_under_stored_forcing
         | |- returns_under _ (bind (for_each _ _ _) _) _ => fail
         | |- returns_under _
                (bind
                   (HydrologyEventThresholdStreamPower.calc_critical_discharge
                      _) _) _ =>
             apply returns_under_bind;
             [ apply preserves_calc_critical_discharge;
               [exact _ | intros ? ? Hs; exact Hs]
             | intros ? ]
         | |- returns_under _ (bind _ _) _ =>
             apply returns_under_bind;
             [ solve [auto with preserves] | intros ? ]
         end.

Ltac body_recharge :=
  lazymatch goal with
  | |- returns (HydrologyIntegrateShearStress.event_body _ _ _) _ =>
      apply integrate_body_recharge
  | |- returns (HydrologyEventShearStress.event_body _ _ _) _ =>
      apply shear_body_recharge
  | |- returns (HydrologyEventShearStress.event_body_record_state _ _ _) _ =>
      apply shear_body_record_state_recharge
  | |- returns (HydrologyEventStreamPower.event_body _ _) _ =>
      apply stream_power_body_recharge
  | |- returns (HydrologyEventThresholdStreamPower.event_body _ _) _ =>
      apply threshold_body_recharge
  | |- returns (HydrologyEventVadoseStreamPower.event_body _ _) _ =>
      apply vadose_body_recharge
  end.

Section RechargeAfterStep.
Context {W : Type} `{Collaborators W} (P : params).

Lemma loop_leaves_zero_recharge (I : model W -> Prop) {A B C : Type}
  (body : B -> A -> M W B) (xs : list A) (acc : B) (k : B -> M W C) :
  xs <> [] ->
  (forall acc0 x,
     returns (body acc0 x) (fun _ s => recharge_is (RScalar 0) s)) ->
  (forall b, preserves (recharge_is (RScalar 0)) (k b)) ->
  returns_under I (bind (for_each body xs acc) k)
    (fun _ s' => recharge_is (RScalar 0) s').
Proof.
  intros Hne Hb Hk. apply returns_under_weaken.
  apply (returns_loop_last body xs acc k (recharge_is (RScalar 0)));
    assumption.
Qed.

(** X7.  When a step operation with an event loop has run at least one
    event/interevent pair and returns, the recharge it leaves in the
    groundwater component is [0.0], the value of the last interevent,
    whatever the recharge was before the step. *)
Theorem event_step_leaves_zero_recharge (op : step_op)
  (storms : list storm) (s s' : model W) :
  has_event_loop op = true -> loop_forcing op storms s <> [] ->
  run_op P op storms s = (inr tt, s') ->
  gdp_recharge s' = RScalar 0.
Proof.
  intros Hloop Hne E.
  change (recharge_is (RScalar 0) s').
  destruct op; try discriminate Hloop; cbn [run_op loop_forcing] in *.
  - refine (returns_at _ (fun _ s0 => recharge_is (RScalar 0) s0)
              s tt s' _ E).
    unfold HydrologyIntegrateShearStress.run_step.
    apply returns_generate_exp_precip. to_loop.
    apply loop_leaves_zero_recharge;
      [exact Hne | intros; body_recharge | intros; apply preserves_ret].
  - refine (returns_at _ (fun _ s0 => recharge_is (RScalar 0) s0)
              s tt s' _ E).
    unfold HydrologyEventShearStress.run_step.
    apply returns_generate_exp_precip. to_loop.
    apply loop_leaves_zero_recharge;
      [exact Hne | intros; body_recharge | intros; apply preserves_ret].
  - destruct (forcing s) as [f|] eqn:F; [|contradiction].
    refine (returns_under_at (forcing_is f) _
              (fun _ s0 => recharge_is (RScalar 0) s0) s tt s' _ F E).
    unfold HydrologyEventShearStress.run_step_record_state. to_loop.
    apply loop_leaves_zero_recharge;
      [exact Hne | intros; body_recharge | intros; apply preserves_ret].
  - refine (returns_under_at (fun _ => True) _
              (fun _ s0 => recharge_is (RScalar 0) s0) s tt s' _ Logic.I E).
    unfold HydrologyEventStreamPower.run_step. to_loop.
    apply loop_leaves_zero_recharge;
      [ exact Hne | intros; body_recharge
      | intros [q ?]; apply finalize_keeps_recharge ].
  - refine (returns_at _ (fun _ s0 => recharge_is (RScalar 0) s0)
              s tt s' _ E).
    unfold HydrologyEventStreamPower.run_step_record_state.
    apply returns_generate_exp_precip. to_loop.
    apply loop_leaves_zero_recharge;
      [ exact Hne | intros; body_recharge
      | intros [q ?]; apply finalize_keeps_recharge ].
  - refine (returns_under_at (fun _ => True) _
              (fun _ s0 => recharge_is (RScalar 0) s0) s tt s' _ Logic.I E).
    unfold HydrologyEventThresholdStreamPower.run_step. to_loop.
    apply loop_leaves_zero_recharge;
      [ exact Hne | intros; body_recharge
      | intros [q ?]; apply finalize_keeps_recharge ].
  - refine (returns_at _ (fun _ s0 => recharge_is (RScalar 0) s0)
              s tt s' _ E).
    unfold HydrologyEventThresholdStreamPower.run_step_record_state.
    apply returns_generate_exp_precip. to_loop.
    apply loop_leaves_zero_recharge;
      [ exact Hne | intros; body_recharge
      | intros [q ?]; apply finalize_keeps_recharge ].
  - refine (returns_under_at (fun _ => True) _
              (fun _ s0 => recharge_is (RScalar 0) s0) s tt s' _ Logic.I E).
    unfold HydrologyEventVadoseStreamPower.run_step. to_loop.
    apply loop_leaves_zero_recharge;
      [ exact Hne | intros; body_recharge
      | intros [q ?]; apply finalize_keeps_recharge ].
  - refine (returns_at _ (fun _ s0 => recharge_is (RScalar 0) s0)
              s tt s' _ E).
    unfold HydrologyEventVadoseStreamPower.run_step_record_state.
    apply returns_generate_exp_precip. to_loop.
    apply loop_leaves_zero_recharge;
      [ exact Hne | intros; body_recharge
      | intros [q ?]; apply finalize_keeps_recharge ].
Qed.

End RechargeAfterStep.

(** The small world starts with a recharge of 1. *)
Lemma event_step_leaves_zero_recharge_witness :
  gdp_recharge
    (snd (run_op (H:=Toy.collab Toy.never) Toy.prm
            IntegrateShearStress_run_step Toy.storms Toy.init))
  = RScalar 0.
Proof.
  apply (event_step_leaves_zero_recharge (H:=Toy.collab Toy.never) Toy.prm
           IntegrateShearStress_run_step Toy.storms Toy.init).
  - reflexivity.
  - discriminate.
  - vm_compute. reflexivity.
Defined.

(** ** [HydrologyEventShearStress.run_step_record_state] *)

Section RecordState.
Context {W : Type} `{Collaborators W} (P : params).

Lemma record_state_body_raises dzdt2 st :
  has_wt_base_elev P = false ->
  returns (HydrologyEventShearStress.event_body_record_state P dzdt2 st)
    (fun _ _ => False).
Proof.
  intro Hwt. unfold HydrologyEventShearStress.event_body_record_state.
  repeat lazymatch goal with
         | |- returns (bind (HydrologyEventShearStress.record_wtrel _) _) _ =>
             fail
         | |- returns (bind _ _) _ => apply returns_bind_last; intros ?
         end.
  unfold HydrologyEventShearStress.record_wtrel. rewrite Hwt.
  apply returns_bind_raise.
Qed.

(** X8.  [HydrologyEventShearStress.__init__] creates no [_wt], [_base] or
    [_elev], which "record event" reads: on such an object
    [run_step_record_state] returns only when a forcing has been stored and
    it is empty.  With no stored forcing and with a forcing of at least one
    pair it raises. *)
Theorem record_state_needs_water_table (storms : list storm)
  (s s' : model W) :
  has_wt_base_elev P = false ->
  run_op P EventShearStress_run_step_record_state storms s = (inr tt, s') ->
  forcing s = Some [].
Proof.
  intros Hwt E. cbn [run_op] in E.
  destruct (forcing s) as [[|st f]|] eqn:F.
  - reflexivity.
  - exfalso.
    refine (returns_under_at (forcing_is (st :: f)) _ (fun _ _ => False)
              s tt s' _ F E).
    unfold HydrologyEventShearStress.run_step_record_state. to_loop.
    apply returns_under_weaken.
    apply (returns_loop_last _ _ _ _ (fun _ => False)).
    + discriminate.
    + intros. apply record_state_body_raises. exact Hwt.
    + intros b s0 [].
  - exfalso.
    unfold HydrologyEventShearStress.run_step_record_state in E.
    apply bind_ok_inv in E. destruct E as (f & s1 & E0 & _).
    unfold stored_forcing, bind, get in E0. rewrite F in E0.
    discriminate E0.
Qed.

End RecordState.

(** With an empty stored forcing the operation returns. *)
Lemma record_state_needs_water_table_witness :
  forcing (set_forcing (Some []) Toy.init) = Some [].
Proof.
  apply (record_state_needs_water_table (H:=Toy.collab Toy.never) Toy.prm
           [] (set_forcing (Some []) Toy.init)
           (snd (run_op (H:=Toy.collab Toy.never) Toy.prm
                   EventShearStress_run_step_record_state []
                   (set_forcing (Some []) Toy.init)))).
  - reflexivity.
  - vm_compute. reflexivity.
Defined.

(** ** A step over an empty forcing *)

Lemma all_zero_div (T : Q) (v : list Q) :
  ~ T == 0 -> all_zero v -> all_zero (map (fun x => x / T) v).
Proof.
  intros HT Hv. unfold all_zero in *. apply Forall_map.
  eapply Forall_impl; [|exact Hv]. cbn beta. intros x Hx.
  rewrite Hx. field. exact HT.
Qed.

(** From the first statement to [self.dzdt = np.zeros_like(self._tau)]. *)
Ltac to_dzdt :=
  repeat lazymatch goal with
         | |- returns_under _ (bind (modify (set_dzdt _)) _) _ => fail
         | |- returns_under _ (bind _ _) _ =>
             apply returns_under_bind;
             [ solve [auto with preserves] | intros ? ]
         end.

Section EmptyForcing.
Context {W : Type} `{Collaborators W} (P : params).

Lemma shear_stress_loop_empty {B : Type} (z : list Q) (acc : B)
  (body : B -> storm -> M W B) :
  returns_under (forcing_is [])
    (bind (modify (set_dzdt (Some z)))
       (fun _ => bind stored_forcing
          (fun f => bind (for_each body f acc) (fun _ => ret tt))))
    (fun _ s' => dzdt s' = Some z).
Proof.
  intros s a s' Hs E.
  rewrite (bind_run (modify (set_dzdt (Some z))) _ s tt
             (set_dzdt (Some z) s) eq_refl) in E.
  rewrite (bind_run _ _ _ _ _
             (stored_forcing_run [] (set_dzdt (Some z) s) Hs)) in E.
  cbn [for_each] in E. cbv [bind ret] in E. inversion E. reflexivity.
Qed.

Lemma stream_power_loop_empty (I : model W -> Prop) {A : Type}
  (body : list Q * list Q -> A -> M W (list Q * list Q)) (z z2 : list Q) :
  ~ T_h P == 0 -> all_zero z ->
  returns_under I
    (bind (for_each body [] (z, z2))
       (fun x => let '(q_total_vol, _) := x in
                 HydrologyEventStreamPower.finalize P q_total_vol))
    (fun _ s' => all_zero (q_eff s')).
Proof.
  intros HT Hz s a s' _ E. cbn [for_each] in E.
  rewrite (bind_run (ret (z, z2)) _ s (z, z2) s eq_refl) in E.
  apply finalize_ok_inv in E. destruct E as (n & _ & _ & ->). cbn.
  apply all_zero_div; assumption.
Qed.

(** X9.  A step operation with an event loop that runs over an empty forcing
    and returns leaves zeros in its output field, the erosion rate
    [self.dzdt] or the effective discharge, whatever an earlier step has
    left there.  The total time [T_h] is not zero. *)
Theorem empty_forcing_zero_output (op : step_op) (storms : list storm)
  (s s' : model W) :
  has_event_loop op = true -> loop_forcing op storms s = [] ->
  ~ T_h P == 0 ->
  run_op P op storms s = (inr tt, s') ->
  exists d, output_field op s' = Some d /\ all_zero d.
Proof.
  intros Hloop Hnil HT E.
  destruct op; try discriminate Hloop;
    cbn [run_op loop_forcing output_field is_event_stream_power] in *.
  - subst storms.
    refine (returns_at _ (fun _ s0 => exists d, dzdt s0 = Some d /\ all_zero d)
              s tt s' _ E).
    unfold HydrologyIntegrateShearStress.run_step.
    apply returns_generate_exp_precip. to_dzdt.
    intros s0 x s0' Hs E0.
    eexists. split; [apply (shear_stress_loop_empty _ _ _ s0 x s0' Hs E0)|].
    apply all_zero_zeros.
  - subst storms.
    refine (returns_at _ (fun _ s0 => exists d, dzdt s0 = Some d /\ all_zero d)
              s tt s' _ E).
    unfold HydrologyEventShearStress.run_step.
    apply returns_generate_exp_precip. to_dzdt.
    intros s0 x s0' Hs E0.
    eexists. split; [apply (shear_stress_loop_empty _ _ _ s0 x s0' Hs E0)|].
    apply all_zero_zeros.
  - destruct (forcing s) as [f|] eqn:F.
    + subst f.
      refine (returns_under_at (forcing_is []) _
                (fun _ s0 => exists d, dzdt s0 = Some d /\ all_zero d)
                s tt s' _ F E).
      unfold HydrologyEventShearStress.run_step_record_state.
      apply returns_under_stored_forcing. to_dzdt.
      intros s0 x s0' Hs E0.
      eexists.
      split; [apply (shear_stress_loop_empty _ _ _ s0 x s0' Hs E0)|].
      apply all_zero_zeros.
    + exfalso.
      unfold HydrologyEventShearStress.run_step_record_state in E.
      apply bind_ok_inv in E. destruct E as (f & s1 & E0 & _).
      unfold stored_forcing, bind, get in E0. rewrite F in E0.
      discriminate E0.
  - subst storms. eexists. split; [reflexivity|].
    refine (returns_under_at (fun _ => True) _
              (fun _ s0 => all_zero (q_eff s0)) s tt s' _ Logic.I E).
    unfold HydrologyEventStreamPower.run_step. to_loop.
    apply stream_power_loop_empty; [exact HT | apply all_zero_zeros].
  - subst storms. eexists. split; [reflexivity|].
    refine (returns_at _ (fun _ s0 => all_zero (q_eff s0)) s tt s' _ E).
    unfold HydrologyEventStreamPower.run_step_record_state.
    apply returns_generate_exp_precip. to_loop.
    apply stream_power_loop_empty; [exact HT | apply all_zero_zeros].
  - subst storms. eexists. split; [reflexivity|].
    refine (returns_under_at (fun _ => True) _
              (fun _ s0 => all_zero (q_eff s0)) s tt s' _ Logic.I E).
    unfold HydrologyEventThresholdStreamPower.run_step. to_loop.
    apply stream_power_loop_empty; [exact HT | apply all_zero_zeros].
  - subst storms. eexists. split; [reflexivity|].
    refine (returns_at _ (fun _ s0 => all_zero (q_eff s0)) s tt s' _ E).
    unfold HydrologyEventThresholdStreamPower.run_step_record_state.
    apply returns_generate_exp_precip. to_loop.
    apply stream_power_loop_empty; [exact HT | apply all_zero_zeros].
  - subst storms. eexists. split; [reflexivity|].
    refine (returns_under_at (fun _ => True) _
              (fun _ s0 => all_zero (q_eff s0)) s tt s' _ Logic.I E).
    unfold HydrologyEventVadoseStreamPower.run_step. to_loop.
    apply stream_power_loop_empty; [exact HT | apply all_zero_zeros].
  - subst storms. eexists. split; [reflexivity|].
    refine (returns_at _ (fun _ s0 => all_zero (q_eff s0)) s tt s' _ E).
    unfold HydrologyEventVadoseStreamPower.run_step_record_state.
    apply returns_generate_exp_precip. to_loop.
    apply stream_power_loop_empty; [exact HT | apply all_zero_zeros].
Qed.

End EmptyForcing.

(** An earlier step has left an effective discharge of [3, 4]. *)
Lemma empty_forcing_zero_output_witness :
  exists d,
    output_field EventStreamPower_run_step
      (snd (run_op (H:=Toy.collab Toy.never) Toy.prm
              EventStreamPower_run_step [] (set_q_eff [3; 4] Toy.init)))
    = Some d
    /\ all_zero d.
Proof.
  apply (empty_forcing_zero_output (H:=Toy.collab Toy.never) Toy.prm
           EventStreamPower_run_step [] (set_q_eff [3; 4] Toy.init)).
  - reflexivity.
  - reflexivity.
  - intro HT. discriminate HT.
  - vm_compute. reflexivity.
Defined.

(** ** The recharge rate of the vadose model *)

Lemma set_nth_length {A : Type} (l : list A) n x :
  length (set_nth l n x) = length l.
Proof.
  revert n. induction l as [|y l IH]; intros [|n]; simpl; try reflexivity.
  rewrite IH. reflexivity.
Qed.

Lemma nth_error_set_nth_other {A : Type} (l : list A) n j x :
  n <> j -> nth_error (set_nth l n x) j = nth_error l j.
Proof.
  revert n j. induction l as [|y l IH]; intros [|n] [|j] Hne; simpl;
    try reflexivity.
  - contradiction.
  - apply IH. intro E. apply Hne. rewrite E. reflexivity.
Qed.

Lemma py_set_index_other {A : Type} (l l' : list A) (i : Z) (x : A) (j : nat) :
  py_set_index l i x = Some l' -> misses (length l) j i ->
  length l' = length l /\ nth_error l' j = nth_error l j.
Proof.
  unfold py_set_index, misses. intros E [H1 H2].
  destruct ((0 <=? i) && (i <? Z.of_nat (length l)))%Z eqn:B1.
  - injection E as <-. apply andb_prop in B1. destruct B1 as [B1 _].
    apply Z.leb_le in B1.
    split; [apply set_nth_length|].
    apply nth_error_set_nth_other. intro E. apply H1.
    rewrite <- E. rewrite Z2Nat.id; [reflexivity | exact B1].
  - destruct ((- Z.of_nat (length l) <=? i) && (i <? 0))%Z eqn:B2;
      [|discriminate E].
    injection E as <-. apply andb_prop in B2. destruct B2 as [B2 B3].
    apply Z.leb_le in B2. apply Z.ltb_lt in B3.
    split; [apply set_nth_length|].
    apply nth_error_set_nth_other. intro E. apply H2.
    rewrite <- E. rewrite Z2Nat.id; lia.
Qed.

Lemma scatter_other {A : Type} (idx : list Z) (j : nat) :
  forall (l l' v : list A),
    scatter l idx v = Some l' ->
    Forall (misses (length l) j) idx ->
    length l' = length l /\ nth_error l' j = nth_error l j.
Proof.
  induction idx as [|i idx IH]; intros l l' v E Hm.
  - destruct v; [|discriminate E]. injection E as <-. auto.
  - destruct v as [|x v]; [discriminate E|]. cbn [scatter] in E.
    destruct (py_set_index l i x) as [l1|] eqn:E1; [|discriminate E].
    inversion Hm as [|? ? Hi Hrest]; subst.
    destruct (py_set_index_other l l1 i x j E1 Hi) as [L1 N1].
    destruct (IH l1 l' v E) as [L2 N2].
    { rewrite L1. exact Hrest. }
    split; congruence.
Qed.

(** The statements that do not write [self.r]. *)
Ltac keeps_step :=
  first
    [ keeps_recharge_step
    | lazymatch goal with
      | |- preserves _ (set_recharge _) => unfold set_recharge
      | |- preserves _ (for_each _ _ _) => apply preserves_for_each; intros ? ?
      | |- preserves _ (if ?b then _ else _) => destruct b
      | |- preserves _ find_and_route_pits => unfold find_and_route_pits
      | |- preserves _ find_pits => unfold find_pits
      | |- preserves _ number_of_pits => unfold number_of_pits
      | |- preserves _ lmb_run => unfold lmb_run
      | |- preserves _ fd_run => unfold fd_run
      | |- preserves _ reset_max_substeps => unfold reset_max_substeps
      | |- preserves _ (generate_exp_precip _) => unfold generate_exp_precip
      | |- preserves _ stored_forcing => unfold stored_forcing
      end ].

Section VadoseRecharge.
Context {W : Type} `{Collaborators W} (P : params).

Lemma vadose_recharge_other (n j : nat) (v : option Q) (st : storm) :
  (forall w, Forall (misses n j) (core_nodes w)) ->
  preserves (recharge_rate_at n j v)
    (HydrologyEventVadoseStreamPower.vadose_recharge st).
Proof.
  intros Hc s [L N].
  unfold HydrologyEventVadoseStreamPower.vadose_recharge.
  unfold bind at 1. cbn [modify].
  unfold bind at 1. cbn [get].
  set (s1 := set_world _ s).
  unfold bind at 1.
  destruct (gather (topographic__elevation (world s1)) (core_nodes (world s1)))
    as [elev|]; cbn [lift_opt ret raise snd]; [|split; assumption].
  unfold bind at 1.
  destruct (gather (water_table__elevation (world s1)) (core_nodes (world s1)))
    as [wt|]; cbn [lift_opt ret raise snd]; [|split; assumption].
  unfold bind at 1.
  match goal with
  | |- context [lift_opt IndexError (gather ?a ?b)] =>
      destruct (gather a b) as [rd|]
  end; cbn [lift_opt ret raise snd]; [|split; assumption].
  unfold bind at 1.
  destruct (scatter (r s1) (core_nodes (world s1))
              (map (fun x => x / storm_dt st) rd)) as [r'|] eqn:Es;
    cbn [lift_opt ret raise snd modify]; [|split; assumption].
  apply scatter_other with (j := j) in Es.
  - destruct Es as [L' N']. split; cbn; [rewrite L' | rewrite N']; assumption.
  - change (r s1) with (r s). rewrite L. apply Hc.
Qed.

(** X10.  A step of [HydrologyEventVadoseStreamPower] writes the field
    [recharge_rate] at core nodes only: a node that [grid.core_nodes] does
    not address keeps its recharge rate, and the field keeps its size,
    whether the step returns or raises. *)
Theorem vadose_recharge_only_core_nodes (op : step_op)
  (storms : list storm) (s : model W) (j : nat) :
  is_vadose op = true ->
  (forall w, Forall (misses (length (r s)) j) (core_nodes w)) ->
  length (r (snd (run_op P op storms s))) = length (r s)
  /\ nth_error (r (snd (run_op P op storms s))) j = nth_error (r s) j.
Proof.
  intros Hop Hc.
  assert (Hp : preserves
                 (recharge_rate_at (length (r s)) j (nth_error (r s) j))
                 (run_op P op storms)).
  { pose proof (fun st =>
        vadose_recharge_other (length (r s)) j (nth_error (r s) j) st Hc)
      as Hv.
    destruct op; try discriminate Hop; cbn [run_op].
    - unfold HydrologyEventVadoseStreamPower.run_step,
        HydrologyEventVadoseStreamPower.event_body.
      repeat first
        [ lazymatch goal with
          | |- preserves _
                 (HydrologyEventVadoseStreamPower.vadose_recharge _) =>
              apply Hv
          end
        | keeps_step ].
    - unfold HydrologyEventVadoseStreamPower.run_step_record_state,
        HydrologyEventVadoseStreamPower.event_body.
      repeat first
        [ lazymatch goal with
          | |- preserves _
                 (HydrologyEventVadoseStreamPower.vadose_recharge _) =>
              apply Hv
          end
        | keeps_step ]. }
  apply (Hp s). split; reflexivity.
Qed.

End VadoseRecharge.

(** Node 0 is the only core node of the small world: node 1 keeps the
    recharge rate 9 an earlier step has left. *)
Lemma vadose_recharge_only_core_nodes_witness :
  length (r (snd (run_op (H:=Toy.collab Toy.never) Toy.prm
                    EventVadoseStreamPower_run_step Toy.storms
                    (set_r [0; 9] Toy.init))))
  = length (r (set_r [0; 9] Toy.init))
  /\ nth_error
       (r (snd (run_op (H:=Toy.collab Toy.never) Toy.prm
                  EventVadoseStreamPower_run_step Toy.storms
                  (set_r [0; 9] Toy.init)))) 1
     = nth_error (r (set_r [0; 9] Toy.init)) 1.
Proof.
  apply (vadose_recharge_only_core_nodes (H:=Toy.collab Toy.never) Toy.prm
           EventVadoseStreamPower_run_step Toy.storms
           (set_r [0; 9] Toy.init) 1).
  - reflexivity.
  - intro w. repeat constructor; discriminate.
Defined.

(** * The steady recharge model: [run_model] *)

Section RunFacts.
Import SteadyRechargeShearStress.
Context {G : Type}.

Lemma run_bind_ok_inv {A B : Type} (m : R G A) (f : A -> R G B) s b s' :
  bind m f s = (inr b, s') ->
  exists x s1, m s = (inr x, s1) /\ f x s1 = (inr b, s').
Proof.
  unfold bind. destruct (m s) as [[e|x] s1]; [discriminate|]. eauto.
Qed.

Lemma run_preserves_ret {A : Type} I (x : A) : preserves I (ret (G:=G) x).
Proof. intros s Hs. exact Hs. Qed.

Lemma run_preserves_raise {A : Type} I e :
  preserves I (raise (G:=G) (A:=A) e).
Proof. intros s Hs. exact Hs. Qed.

Lemma run_preserves_get I : preserves I (get (G:=G)).
Proof. intros s Hs. exact Hs. Qed.

Lemma run_preserves_modify (I : run G -> Prop) f :
  (forall s, I s -> I (f s)) -> preserves I (modify f).
Proof. intros Hf s Hs. apply Hf. exact Hs. Qed.

Lemma run_preserves_bind {A B : Type} I (m : R G A) (f : A -> R G B) :
  preserves I m -> (forall x, preserves I (f x)) -> preserves I (bind m f).
Proof.
  intros Hm Hf s Hs. unfold bind. specialize (Hm s Hs).
  destruct (m s) as [[e|x] s1]; simpl in *; [assumption|].
  apply Hf. assumption.
Qed.

Lemma run_preserves_lift_opt {A : Type} I e (o : option A) :
  preserves I (lift_opt (G:=G) e o).
Proof. destruct o; [apply run_preserves_ret | apply run_preserves_raise]. Qed.

Lemma run_preserves_for_range I (body : Z -> R G unit) n :
  (forall i, preserves I (body i)) ->
  forall start, preserves I (for_range body start n).
Proof.
  intro Hb. induction n as [|n IH]; intro start; cbn [for_range].
  - apply run_preserves_ret.
  - apply run_preserves_bind; [apply Hb | intros _; apply IH].
Qed.

Lemma returns_bind {A B : Type} I (m : R G A) (f : A -> R G B) Q :
  preserves I m -> (forall x, returns I (f x) Q) -> returns I (bind m f) Q.
Proof.
  intros Hm Hf s b s' Hs E. apply run_bind_ok_inv in E.
  destruct E as (x & s1 & E0 & E).
  apply (Hf x s1 b s'); [|exact E].
  specialize (Hm s Hs). rewrite E0 in Hm. exact Hm.
Qed.

(** What a statement establishes and the statements after it keep. *)
Lemma returns_establish {A B : Type} I (m : R G A) (f : A -> R G B) J :
  returns I m J -> (forall x, preserves J (f x)) -> returns I (bind m f) J.
Proof.
  intros Hm Hf s b s' Hs E. apply run_bind_ok_inv in E.
  destruct E as (x & s1 & E0 & E).
  specialize (Hf x s1 (Hm s x s1 Hs E0)). rewrite E in Hf. exact Hf.
Qed.

(** A loop of at least one iteration returns in a state that its last
    iteration has left. *)
Lemma returns_for_range (body : Z -> R G unit) J n :
  (forall i, returns (fun _ => True) (body i) J) ->
  forall start, returns (fun _ => True) (for_range body start (S n)) J.
Proof.
  intro Hb. induction n as [|n IH]; intros start s x s' _ E.
  - cbn [for_range] in E. apply run_bind_ok_inv in E.
    destruct E as (y & s1 & E0 & E). unfold ret in E. inversion E. subst.
    apply (Hb start s y s' Logic.I E0).
  - change (for_range body start (S (S n)))
      with (bind (body start) (fun _ => for_range body (start + 1) (S n)))
      in E.
    apply run_bind_ok_inv in E. destruct E as (y & s1 & _ & E).
    apply (IH (start + 1)%Z s1 x s' Logic.I E).
Qed.

End RunFacts.

(** The statements of [run_model] that keep an invariant which does not
    depend on what they write. *)
Ltac run_keeps_step :=
  lazymatch goal with
  | |- SteadyRechargeShearStress.preserves _
         (SteadyRechargeShearStress.bind _ _) =>
      apply run_preserves_bind; [|intros ?]
  | |- SteadyRechargeShearStress.preserves _
         (SteadyRechargeShearStress.ret _) =>
      apply run_preserves_ret
  | |- SteadyRechargeShearStress.preserves _
         (SteadyRechargeShearStress.raise _) =>
      apply run_preserves_raise
  | |- SteadyRechargeShearStress.preserves _ SteadyRechargeShearStress.get =>
      apply run_preserves_get
  | |- SteadyRechargeShearStress.preserves _
         (SteadyRechargeShearStress.lift_opt _ _) =>
      apply run_preserves_lift_opt
  | |- SteadyRechargeShearStress.preserves _
         (SteadyRechargeShearStress.modify _) =>
      apply run_preserves_modify; intros ? Hs; exact Hs
  | |- SteadyRechargeShearStress.preserves _ (let _ := _ in _) => cbv zeta
  | |- SteadyRechargeShearStress.preserves _ (match ?x with _ => _ end) =>
      destruct x
  | |- SteadyRechargeShearStress.preserves _
         (SteadyRechargeShearStress.on_grid _) =>
      unfold SteadyRechargeShearStress.on_grid
  | |- SteadyRechargeShearStress.preserves _
         (SteadyRechargeShearStress.solve _) =>
      unfold SteadyRechargeShearStress.solve
  | |- SteadyRechargeShearStress.preserves _
         (SteadyRechargeShearStress.uplift _) =>
      unfold SteadyRechargeShearStress.uplift
  | |- SteadyRechargeShearStress.preserves _
         (SteadyRechargeShearStress.regolith_production _) =>
      unfold SteadyRechargeShearStress.regolith_production
  | |- SteadyRechargeShearStress.preserves _
         SteadyRechargeShearStress.find_and_route_pits =>
      unfold SteadyRechargeShearStress.find_and_route_pits
  | |- SteadyRechargeShearStress.preserves _
         SteadyRechargeShearStress.assign_shear =>
      unfold SteadyRechargeShearStress.assign_shear
  | |- SteadyRechargeShearStress.preserves _
         (SteadyRechargeShearStress.erode _) =>
      unfold SteadyRechargeShearStress.erode
  | |- SteadyRechargeShearStress.preserves _
         (SteadyRechargeShearStress.to_bedrock) =>
      unfold SteadyRechargeShearStress.to_bedrock
  | |- SteadyRechargeShearStress.preserves _
         (SteadyRechargeShearStress.diagnostics _) =>
      unfold SteadyRechargeShearStress.diagnostics
  | |- SteadyRechargeShearStress.preserves _
         (SteadyRechargeShearStress.write_output _) =>
      unfold SteadyRechargeShearStress.write_output
  | |- SteadyRechargeShearStress.preserves _
         (SteadyRechargeShearStress.output _ _) =>
      unfold SteadyRechargeShearStress.output
  end.

Ltac run_keeps := repeat run_keeps_step.

(** Walk to the last statement of the loop body, under an invariant the
    statements before it keep. *)
Ltac to_output :=
  repeat lazymatch goal with
         | |- SteadyRechargeShearStress.returns _
                (SteadyRechargeShearStress.bind _ _) _ =>
             apply returns_bind; [solve [run_keeps] | intros ?]
         end.

Lemma clamp_below_above (a b e : list Q) :
  SteadyRechargeShearStress.clamp_below a b = Some e -> Forall2 Qle b e.
Proof.
  unfold SteadyRechargeShearStress.clamp_below.
  destruct (length a =? length b)%nat eqn:L; [|discriminate].
  intros [= <-]. apply Nat.eqb_eq in L.
  revert b L. induction a as [|x a IH]; intros [|y b] L; simpl in *;
    try discriminate; constructor.
  - destruct (Qltb x y) eqn:C.
    + apply Qle_refl.
    + apply Qltb_false in C. exact C.
  - apply IH. lia.
Qed.

Lemma In_range_from (i start : Z) (n : nat) :
  In i (SteadyRechargeShearStress.range_from start n)
  <-> (start <= i < start + Z.of_nat n)%Z.
Proof.
  revert start. induction n as [|n IH]; intro start;
    cbn [SteadyRechargeShearStress.range_from In].
  - lia.
  - rewrite IH. lia.
Qed.

Section RunModel.
Import SteadyRechargeShearStress.
Context {G : Type} `{Components G} (a : attrs).

Lemma to_bedrock_above :
  returns (fun _ => True) (to_bedrock (G:=G)) above_bedrock.
Proof.
  intros s x s' _ E. unfold to_bedrock in E.
  apply run_bind_ok_inv in E. destruct E as (s0 & s1 & E0 & E).
  unfold get in E0. inversion E0. subst s0 s1. clear E0.
  apply run_bind_ok_inv in E. destruct E as (e & s1 & E0 & E).
  destruct (clamp_below (elev (land s)) (base (land s))) as [e0|] eqn:C;
    [|discriminate E0].
  cbn in E0. unfold ret in E0. inversion E0. subst e0 s1. clear E0.
  unfold on_grid, modify in E. inversion E. subst s'.
  unfold above_bedrock. cbn. apply (clamp_below_above _ _ _ C).
Qed.

Lemma iteration_above_bedrock (i : Z) :
  returns (fun _ => True) (iteration a i) above_bedrock.
Proof.
  unfold iteration.
  repeat lazymatch goal with
         | |- returns _ (bind to_bedrock _) _ => fail
         | |- returns _ (bind _ _) _ =>
             apply returns_bind; [intros ? ?; exact Logic.I | intros ?]
         end.
  apply returns_establish; [apply to_bedrock_above|].
  intros _. run_keeps.
Qed.

(** X14.  When [run_model] has run at least one iteration and returns, the
    topographic elevation is at or above the aquifer base at every node,
    whatever the components and the erosion law have done to the grid:
    the check for erosion to bedrock is the last statement of an
    iteration that writes the grid's elevation. *)
Theorem run_model_above_bedrock (s s' : run G) :
  (0 < N a)%Z -> run_model a s = (inr tt, s') -> above_bedrock s'.
Proof.
  intros HN E. unfold run_model in E.
  destruct (N a <? 0)%Z eqn:B; [apply Z.ltb_lt in B; lia|].
  destruct (Z.to_nat (N a)) as [|n] eqn:En; [lia|].
  apply (returns_for_range (iteration a) above_bedrock n
           iteration_above_bedrock 0%Z s tt s' Logic.I E).
Qed.

(** *** The output files *)

Lemma iteration_written (i : Z) (w : list Z) :
  save_output a = true ->
  returns (fun s => written s = w) (iteration a i)
    (fun s' => written s' = w ++ (if output_due a i then [i] else [])).
Proof.
  intro Hsave. unfold iteration. to_output.
  intros st res st' Hs E. unfold output in E. rewrite Hsave in E.
  destruct (output_interval a =? 0)%Z; [discriminate E|].
  destruct (output_due a i).
  - unfold write_output in E.
    apply run_bind_ok_inv in E. destruct E as (st0 & st1 & E0 & E).
    unfold get in E0. inversion E0. subst st0 st1. clear E0.
    destruct (length (gw_flux (land st)) =? length _)%nat; [|discriminate E].
    unfold bind, on_grid, modify in E. inversion E. cbn. rewrite Hs.
    reflexivity.
  - unfold ret in E. inversion E. subst st'. rewrite app_nil_r. exact Hs.
Qed.

Lemma for_range_written (n : nat) :
  save_output a = true ->
  forall start s s',
    for_range (iteration a) start n s = (inr tt, s') ->
    written s'
    = written s ++ filter (output_due a) (range_from start n).
Proof.
  intro Hsave. induction n as [|n IH]; intros start s s' E;
    cbn [for_range range_from filter] in *.
  - unfold ret in E. inversion E. rewrite app_nil_r. reflexivity.
  - apply run_bind_ok_inv in E. destruct E as (x & s1 & E0 & E).
    apply IH in E. rewrite E.
    rewrite (iteration_written start (written s) Hsave s x s1 eq_refl E0).
    rewrite <- app_assoc. destruct (output_due a start); reflexivity.
Qed.

(** X15.  When [run_model] saves output and returns, it has written the grid at
    the loop indices that [output_interval] divides and at the last index
    [N - 1], in this order and at no other: in particular at the first and
    at the last iteration, whatever the interval is. *)
Theorem run_model_output_schedule (s s' : run G) :
  save_output a = true -> run_model a s = (inr tt, s') ->
  written s'
  = written s ++ filter (output_due a) (range_from 0 (Z.to_nat (N a)))
  /\ (forall i,
        In i (filter (output_due a) (range_from 0 (Z.to_nat (N a))))
        <-> (0 <= i < N a)%Z
            /\ ((i mod output_interval a)%Z = 0%Z \/ i = (N a - 1)%Z))
  /\ ((0 < N a)%Z ->
      In 0%Z (filter (output_due a) (range_from 0 (Z.to_nat (N a))))
      /\ In (N a - 1)%Z
           (filter (output_due a) (range_from 0 (Z.to_nat (N a))))).
Proof.
  intros Hsave E. unfold run_model in E.
  destruct (N a <? 0)%Z eqn:B; [discriminate E|].
  apply Z.ltb_ge in B.
  assert (Hin : forall i,
             In i (filter (output_due a) (range_from 0 (Z.to_nat (N a))))
             <-> (0 <= i < N a)%Z
                 /\ ((i mod output_interval a)%Z = 0%Z \/ i = (N a - 1)%Z)).
  { intro i. rewrite filter_In, In_range_from. unfold output_due.
    rewrite Z2Nat.id by exact B.
    rewrite orb_true_iff, !Z.eqb_eq. cbn. tauto. }
  split; [apply (for_range_written _ Hsave 0%Z s s' E)|].
  split; [exact Hin|].
  intro HN. split; apply Hin.
  - split; [lia|]. left. apply Zmod_0_l.
  - split; [lia|]. right. reflexivity.
Qed.

(** X16.  With [output_interval = 0] the test [i % self.output_interval] of the
    first iteration raises: [run_model] does not return, and it writes no
    file, however it ends. *)
Theorem run_model_zero_interval (s : run G) :
  save_output a = true -> output_interval a = 0%Z -> (0 < N a)%Z ->
  (forall s', run_model a s <> (inr tt, s'))
  /\ written (snd (run_model a s)) = written s.
Proof.
  intros Hsave Hint HN. split.
  - intros s' E. unfold run_model in E.
    destruct (N a <? 0)%Z eqn:B; [discriminate E|].
    destruct (Z.to_nat (N a)) as [|n] eqn:En; [lia|].
    refine (returns_for_range (iteration a) (fun _ => False) n _
              0%Z s tt s' Logic.I E).
    intro i. unfold iteration.
    repeat lazymatch goal with
           | |- returns _ (bind _ _) _ =>
               apply returns_bind; [intros ? ?; exact Logic.I | intros ?]
           end.
    intros st res st' _ E0. unfold output in E0.
    rewrite Hsave, Hint in E0. discriminate E0.
  - assert (Hp : preserves (fun s0 => written s0 = written s)
                   (run_model a)).
    { unfold run_model. destruct (N a <? 0)%Z;
        [apply run_preserves_raise|].
      apply run_preserves_for_range. intro i. unfold iteration, output.
      rewrite Hsave, Hint. cbn [Z.eqb]. run_keeps. }
    apply (Hp s eq_refl).
Qed.

(** *** The number of iterations *)

(** X13.  [__init__] runs the largest whole number of morphologic steps that fit
    into the total time: [N * dt_m <= T < (N + 1) * dt_m], for a positive
    morphologic step [dt_m = MSF * dt_h]. *)
Theorem init_step_count (core_nodes : list Z) (p : parameters)
  (save : bool) (b : attrs) :
  init core_nodes p save = inr b -> 0 < dt_m b ->
  dt_m b = morphologic_scaling_factor p * hydrological_timestep p
  /\ inject_Z (N b) * dt_m b <= T b
  /\ T b < (inject_Z (N b) + 1) * dt_m b.
Proof.
  unfold init. intros E Hpos.
  destruct (Qeq_bool _ 0); [discriminate E|].
  injection E as <-. cbn in *.
  set (d := morphologic_scaling_factor p * hydrological_timestep p) in *.
  split; [reflexivity|].
  pose proof (Qfloor_le (total_time p / d)) as Hlo.
  pose proof (Qlt_floor (total_time p / d)) as Hhi.
  rewrite inject_Z_plus in Hhi.
  assert (Hd : ~ d == 0) by lra.
  assert (HT : total_time p / d * d == total_time p) by (field; exact Hd).
  assert (A : inject_Z (Qfloor (total_time p / d)) * d
              <= total_time p / d * d)
    by (apply Qmult_le_compat_r; [exact Hlo | lra]).
  assert (B : total_time p / d * d
              < (inject_Z (Qfloor (total_time p / d)) + inject_Z 1) * d)
    by (apply Qmult_lt_compat_r; [exact Hpos | exact Hhi]).
  change (inject_Z 1) with 1 in B.
  split.
  - eapply Qle_trans; [exact A|]. rewrite HT. apply Qle_refl.
  - eapply Qle_lt_trans; [|exact B]. rewrite HT. apply Qle_refl.
Qed.

End RunModel.

(** *** The small grid

    Three iterations with [output_interval = 2]: erosion takes node 0 below
    the aquifer base in every iteration, and the grid is written at the
    indices 0 and 2. *)

Lemma run_model_above_bedrock_witness :
  SteadyRechargeShearStress.above_bedrock
    (snd (SteadyRechargeShearStress.run_model
            (H:=SteadyRechargeShearStress.Toy.comps)
            SteadyRechargeShearStress.Toy.built
            SteadyRechargeShearStress.Toy.start)).
Proof.
  apply (run_model_above_bedrock (H:=SteadyRechargeShearStress.Toy.comps)
           SteadyRechargeShearStress.Toy.built
           SteadyRechargeShearStress.Toy.start).
  - reflexivity.
  - vm_compute. reflexivity.
Defined.

Lemma run_model_output_schedule_witness :
  SteadyRechargeShearStress.written
    (snd (SteadyRechargeShearStress.run_model
            (H:=SteadyRechargeShearStress.Toy.comps)
            SteadyRechargeShearStress.Toy.built
            SteadyRechargeShearStress.Toy.start))
  = [0; 2]%Z.
Proof.
  exact (proj1
           (run_model_output_schedule
              (H:=SteadyRechargeShearStress.Toy.comps)
              SteadyRechargeShearStress.Toy.built
              SteadyRechargeShearStress.Toy.start
              (snd (SteadyRechargeShearStress.run_model
                      (H:=SteadyRechargeShearStress.Toy.comps)
                      SteadyRechargeShearStress.Toy.built
                      SteadyRechargeShearStress.Toy.start))
              eq_refl eq_refl)).
Defined.

Lemma run_model_zero_interval_witness :
  (forall s',
     SteadyRechargeShearStress.run_model
       (H:=SteadyRechargeShearStress.Toy.comps)
       SteadyRechargeShearStress.Toy.no_interval
       SteadyRechargeShearStress.Toy.start
     <> (inr tt, s'))
  /\ SteadyRechargeShearStress.written
       (snd (SteadyRechargeShearStress.run_model
               (H:=SteadyRechargeShearStress.Toy.comps)
               SteadyRechargeShearStress.Toy.no_interval
               SteadyRechargeShearStress.Toy.start))
     = SteadyRechargeShearStress.written SteadyRechargeShearStress.Toy.start.
Proof.
  apply (run_model_zero_interval (H:=SteadyRechargeShearStress.Toy.comps)
           SteadyRechargeShearStress.Toy.no_interval
           SteadyRechargeShearStress.Toy.start);
    reflexivity.
Defined.

(** [T = 7], [MSF = 2] and [dt_h = 1] give [dt_m = 2] and [N = 3]. *)
Lemma init_step_count_witness :
  SteadyRechargeShearStress.dt_m SteadyRechargeShearStress.Toy.built
  = SteadyRechargeShearStress.morphologic_scaling_factor
      SteadyRechargeShearStress.Toy.entries
    * SteadyRechargeShearStress.hydrological_timestep
        SteadyRechargeShearStress.Toy.entries
  /\ inject_Z 3 * 2 <= 7
  /\ 7 < (inject_Z 3 + 1) * 2.
Proof.
  apply (init_step_count [0%Z] SteadyRechargeShearStress.Toy.entries true
           SteadyRechargeShearStress.Toy.built);
    reflexivity.
Defined.

(** ** The erosion rate of the shear stress classes *)

Section ShearInversion.
Context {W : Type} `{Collaborators W}.

Lemma shear_stress_ok_inv (s : model W) t s' :
  shear_stress s = (inr t, s') ->
  t = calc_shear_stress (world s) (drainage_area s)
        (surface_water__discharge s)
  /\ s' = s.
Proof. intro E. inversion E. auto. Qed.

Lemma erosion_from_shear_stress_ok_inv (s : model W) d s' :
  erosion_from_shear_stress s = (inr d, s') ->
  d = calc_erosion_from_shear_stress (world s) (tau s) /\ s' = s.
Proof. intro E. inversion E. auto. Qed.

Lemma assign_tau_ok_inv (v : list Q) (s : model W) x s' :
  assign_tau v s = (inr x, s') ->
  length (tau s) = length v /\ s' = set_tau v s.
Proof.
  unfold assign_tau. intro E.
  apply bind_ok_inv in E. destruct E as (s0 & s1 & E0 & E).
  apply get_ok_inv in E0. destruct E0 as [-> ->].
  apply bind_ok_inv in E. destruct E as (t & s1 & E0 & E).
  apply assign_slice_ok_inv in E0. destruct E0 as (-> & L & ->).
  apply modify_ok_inv in E. auto.
Qed.

Lemma iadd_dzdt_ok_inv (f : Q -> Q) (x : list Q) (s : model W) u s' :
  iadd_dzdt f x s = (inr u, s') ->
  exists d d',
    dzdt s = Some d
    /\ map2_chk (fun di xi => di + f xi) d x = Some d'
    /\ s' = set_dzdt (Some d') s.
Proof.
  unfold iadd_dzdt. intro E.
  apply bind_ok_inv in E. destruct E as (s0 & s1 & E0 & E).
  apply get_ok_inv in E0. destruct E0 as [-> ->].
  destruct (dzdt s) as [d|]; [|discriminate E].
  apply bind_ok_inv in E. destruct E as (d' & s1 & E0 & E).
  apply lift_opt_ok_inv in E0. destruct E0 as [Ed ->].
  apply modify_ok_inv in E. eauto.
Qed.

End ShearInversion.

Lemma storm_erosion_from_zero (e : list Q) (dt T : Q) :
  forall n, length e = n ->
  Forall2 (fun x ei => x == half * (0 + ei) * dt / T)
    (map2 (fun di xi => di + xi / T) (repeat 0 n)
       (map2 (fun x0 x1 => half * (x0 + x1) * dt) (repeat 0 n) e))
    e.
Proof.
  induction e as [|x e IH]; intros n Hn; destruct n as [|n];
    try discriminate Hn; simpl.
  - constructor.
  - constructor.
    + unfold Qdiv. ring.
    + apply IH. simpl in Hn. lia.
Qed.

Lemma weighted_erosion_from_zero (e : list Q) (c : Q) :
  forall n, length e = n ->
  Forall2 (fun x ei => x == c * ei)
    (map2 (fun di xi => di + c * xi) (repeat 0 n) e) e.
Proof.
  induction e as [|x e IH]; intros n Hn; destruct n as [|n];
    try discriminate Hn; simpl.
  - constructor.
  - constructor.
    + ring.
    + apply IH. simpl in Hn. lia.
Qed.

Section ShearFirstEvent.
Context {W : Type} `{Collaborators W} (P : params).

(** X11.  [HydrologyEventShearStress.run_step] on a forcing of one pair: the
    erosion rate it leaves is [0.5 * (0 + dzdt1) * storm_dt / T_h] at every
    node, where [dzdt1] is the erosion rate of the shear stress at the end
    of the event.  The loop starts from a zero erosion rate, and the
    erosion rate at the end of the interevent does not enter. *)
Theorem event_shear_stress_first_event (st : storm) (s s' : model W) :
  run_op P EventShearStress_run_step [st] s = (inr tt, s') ->
  exists w1 w2 a1 q1 d,
    gdp_run_with_adaptive_time_step_solver (RScalar (intensity st))
      (storm_dt st) (world_before_loop (world s)) = Some w1
    /\ fa_accumulate_flow false w1 = Some (w2, (a1, q1))
    /\ dzdt s' = Some d
    /\ Forall2 (fun x e => x == half * (0 + e) * storm_dt st / T_h P) d
         (calc_erosion_from_shear_stress w2 (calc_shear_stress w2 a1 q1)).
Proof.
  cbn [run_op]. unfold HydrologyEventShearStress.run_step. intro E.
  rewrite (bind_run _ _ _ _ _ (generate_exp_precip_run _ _)) in E.
  rewrite (bind_run _ _ _ _ _ (find_and_route_pits_run _)) in E.
  rewrite (bind_run _ _ _ _ _ (fd_run_run _)) in E.
  rewrite (bind_run _ _ _ _ _ (reset_max_substeps_run _)) in E.
  apply bind_ok_inv in E. destruct E as (s0 & s1 & E0 & E).
  apply get_ok_inv in E0. destruct E0 as [-> ->].
  apply bind_ok_inv in E. destruct E as (x0 & s1 & E0 & E).
  apply modify_ok_inv in E0. subst s1.
  match type of E with
  | bind stored_forcing _ ?s2 = _ =>
      assert (HF : forcing s2 = Some [st])
        by exact (after_fd_preserves (forcing_is [st]) _
                    (after_pits_preserves (forcing_is [st])
                       (set_forcing (Some [st]) s) eq_refl));
      rewrite (bind_run _ _ _ _ _ (stored_forcing_run [st] s2 HF)) in E;
      clear HF
  end.
  apply bind_ok_inv in E. destruct E as (acc & s1 & E0 & E).
  apply ret_ok_inv in E. destruct E as [_ ->].
  cbn [for_each] in E0.
  apply bind_ok_inv in E0. destruct E0 as (acc' & s2 & E0 & E1).
  apply ret_ok_inv in E1. destruct E1 as [_ ->].
  unfold HydrologyEventShearStress.event_body in E0.
  apply bind_ok_inv in E0. destruct E0 as (y0 & s1 & E1 & E0).
  apply modify_ok_inv in E1. subst s1.
  apply bind_ok_inv in E0. destruct E0 as (y1 & s1 & E1 & E0).
  apply run_solver_ok_inv in E1. destruct E1 as (w1 & G1 & ->).
  apply bind_ok_inv in E0. destruct E0 as ([a1 q1] & s1 & E1 & E0).
  apply accumulate_flow_ok_inv in E1. destruct E1 as (w2 & A1 & ->).
  apply bind_ok_inv in E0. destruct E0 as (t1 & s1 & E1 & E0).
  apply shear_stress_ok_inv in E1. destruct E1 as [-> ->].
  apply bind_ok_inv in E0. destruct E0 as (y2 & s1 & E1 & E0).
  apply assign_tau_ok_inv in E1. destruct E1 as [L1 ->].
  apply bind_ok_inv in E0. destruct E0 as (dzdt1 & s1 & E1 & E0).
  apply erosion_from_shear_stress_ok_inv in E1. destruct E1 as [-> ->].
  apply bind_ok_inv in E0. destruct E0 as (y3 & s1 & E1 & E0).
  apply update_max_substeps_storm_ok_inv in E1. subst s1.
  apply bind_ok_inv in E0. destruct E0 as (y4 & s1 & E1 & E0).
  apply modify_ok_inv in E1. subst s1.
  apply bind_ok_inv in E0. destruct E0 as (y5 & s1 & E1 & E0).
  apply run_solver_ok_inv in E1. destruct E1 as (w3 & G2 & ->).
  apply bind_ok_inv in E0. destruct E0 as ([a2 q2] & s1 & E1 & E0).
  apply accumulate_flow_ok_inv in E1. destruct E1 as (w4 & A2 & ->).
  apply bind_ok_inv in E0. destruct E0 as (t2 & s1 & E1 & E0).
  apply shear_stress_ok_inv in E1. destruct E1 as [-> ->].
  apply bind_ok_inv in E0. destruct E0 as (y6 & s1 & E1 & E0).
  apply assign_tau_ok_inv in E1. destruct E1 as [L2 ->].
  apply bind_ok_inv in E0. destruct E0 as (dzdt2 & s1 & E1 & E0).
  apply erosion_from_shear_stress_ok_inv in E1. destruct E1 as [-> ->].
  apply bind_ok_inv in E0. destruct E0 as (y7 & s1 & E1 & E0).
  apply update_max_substeps_interstorm_ok_inv in E1. subst s1.
  apply bind_ok_inv in E0. destruct E0 as (deltaz & s1 & E1 & E0).
  apply lift_opt_ok_inv in E1. destruct E1 as [Ev ->].
  apply bind_ok_inv in E0. destruct E0 as (y8 & s1 & E1 & E0).
  apply iadd_dzdt_ok_inv in E1. destruct E1 as (d & d' & Hd & Ed & ->).
  apply ret_ok_inv in E0. destruct E0 as [_ ->].
  cbn in G1, A1, Hd, Ev, Ed |- *.
  rewrite world_after_pits_eq in G1.
  injection Hd as <-.
  exists w1, w2, a1, q1, d'.
  split; [exact G1|]. split; [exact A1|]. split; [reflexivity|].
  apply map2_chk_Some in Ev. destruct Ev as [Lv ->].
  apply map2_chk_Some in Ed. destruct Ed as [Ld ->].
  unfold zeros_like in *. rewrite repeat_length in Lv.
  apply storm_erosion_from_zero. symmetry. exact Lv.
Qed.

End ShearFirstEvent.

Section IntegrateFirstEvent.
Context {W : Type} `{Collaborators W} (P : params).

Lemma tau_after_pits (s : model W) : tau (after_pits s) = tau s.
Proof.
  unfold after_pits, find_and_route_pits, find_pits, number_of_pits,
    lmb_run, emit, bind, modify, get, ret. simpl.
  destruct (0 <? dfr_number_of_pits (dfr_find_pits (world s)))%nat;
    reflexivity.
Qed.

(** X12.  [HydrologyIntegrateShearStress.run_step] on a forcing of one pair: the
    aggregator is given the shear stress field as the previous step has
    left it for [tau0], the shear stresses at the end of the event and of
    the interevent for [tau1] and [tau2], and the durations of the forcing
    (the interevent duration is floored for the solver only); the
    effective shear stress is left in the field, and the erosion rate is
    the erosion of the effective shear stress weighted by
    [(storm_dt + interstorm_dt) / T_h]. *)
Theorem integrate_shear_stress_first_event (st : storm) (s s' : model W) :
  run_op P IntegrateShearStress_run_step [st] s = (inr tt, s') ->
  exists w1 w2 a1 q1 w3 w4 a2 q2 taueff d,
    gdp_run_with_adaptive_time_step_solver (RScalar (intensity st))
      (storm_dt st) (world_before_loop (world s)) = Some w1
    /\ fa_accumulate_flow false w1 = Some (w2, (a1, q1))
    /\ gdp_run_with_adaptive_time_step_solver (RScalar 0)
         (Qmax (interstorm_dt st) eps) w2 = Some w3
    /\ fa_accumulate_flow false w3 = Some (w4, (a2, q2))
    /\ calc_storm_eff_shear_stress (tau s) (calc_shear_stress w2 a1 q1)
         (calc_shear_stress w4 a2 q2) (tauc P) (storm_dt st)
         (interstorm_dt st)
       = Some taueff
    /\ tau s' = taueff
    /\ dzdt s' = Some d
    /\ Forall2
         (fun x e => x == (storm_dt st + interstorm_dt st) / T_h P * e) d
         (calc_erosion_from_shear_stress w4 taueff).
Proof.
  cbn [run_op]. unfold HydrologyIntegrateShearStress.run_step. intro E.
  rewrite (bind_run _ _ _ _ _ (generate_exp_precip_run _ _)) in E.
  rewrite (bind_run _ _ _ _ _ (find_and_route_pits_run _)) in E.
  rewrite (bind_run _ _ _ _ _ (fd_run_run _)) in E.
  apply bind_ok_inv in E. destruct E as (s0 & s1 & E0 & E).
  apply get_ok_inv in E0. destruct E0 as [-> ->].
  apply bind_ok_inv in E. destruct E as (x0 & s1 & E0 & E).
  apply modify_ok_inv in E0. subst s1.
  match type of E with
  | bind stored_forcing _ ?s2 = _ =>
      assert (HF : forcing s2 = Some [st])
        by exact (after_fd_preserves (forcing_is [st]) _
                    (after_pits_preserves (forcing_is [st])
                       (set_forcing (Some [st]) s) eq_refl));
      rewrite (bind_run _ _ _ _ _ (stored_forcing_run [st] s2 HF)) in E;
      clear HF
  end.
  apply bind_ok_inv in E. destruct E as (acc & s1 & E0 & E).
  apply ret_ok_inv in E. destruct E as [_ ->].
  cbn [for_each] in E0.
  apply bind_ok_inv in E0. destruct E0 as (acc' & s2 & E0 & E1).
  apply ret_ok_inv in E1. destruct E1 as [_ ->].
  unfold HydrologyIntegrateShearStress.event_body in E0.
  apply bind_ok_inv in E0. destruct E0 as (y0 & s1 & E1 & E0).
  apply modify_ok_inv in E1. subst s1.
  apply bind_ok_inv in E0. destruct E0 as (y1 & s1 & E1 & E0).
  apply run_solver_ok_inv in E1. destruct E1 as (w1 & G1 & ->).
  apply bind_ok_inv in E0. destruct E0 as ([a1 q1] & s1 & E1 & E0).
  apply accumulate_flow_ok_inv in E1. destruct E1 as (w2 & A1 & ->).
  apply bind_ok_inv in E0. destruct E0 as (t1 & s1 & E1 & E0).
  apply shear_stress_ok_inv in E1. destruct E1 as [-> ->].
  apply bind_ok_inv in E0. destruct E0 as (y4 & s1 & E1 & E0).
  apply modify_ok_inv in E1. subst s1.
  apply bind_ok_inv in E0. destruct E0 as (y5 & s1 & E1 & E0).
  apply run_solver_ok_inv in E1. destruct E1 as (w3 & G2 & ->).
  apply bind_ok_inv in E0. destruct E0 as ([a2 q2] & s1 & E1 & E0).
  apply accumulate_flow_ok_inv in E1. destruct E1 as (w4 & A2 & ->).
  apply bind_ok_inv in E0. destruct E0 as (t2 & s1 & E1 & E0).
  apply shear_stress_ok_inv in E1. destruct E1 as [-> ->].
  apply bind_ok_inv in E0. destruct E0 as (taueff & s1 & E1 & E0).
  apply lift_opt_ok_inv in E1. destruct E1 as [Et ->].
  apply bind_ok_inv in E0. destruct E0 as (y6 & s1 & E1 & E0).
  apply assign_tau_ok_inv in E1. destruct E1 as [L2 ->].
  apply bind_ok_inv in E0. destruct E0 as (dz & s1 & E1 & E0).
  apply erosion_from_shear_stress_ok_inv in E1. destruct E1 as [-> ->].
  apply bind_ok_inv in E0. destruct E0 as (y7 & s1 & E1 & E0).
  apply float_division_by_ok_inv in E1. destruct E1 as [_ ->].
  apply bind_ok_inv in E0. destruct E0 as (y8 & s1 & E1 & E0).
  apply iadd_dzdt_ok_inv in E1. destruct E1 as (d & d' & Hd & Ed & ->).
  apply ret_ok_inv in E0. destruct E0 as [_ ->].
  cbn in G1, A1, G2, A2, Et, L2, Hd, Ed |- *.
  rewrite world_after_pits_eq in G1.
  rewrite tau_after_pits in Et, Hd. cbn in Et, Hd.
  injection Hd as <-.
  exists w1, w2, a1, q1, w3, w4, a2, q2, taueff, d'.
  split; [exact G1|]. split; [exact A1|]. split; [exact G2|].
  split; [exact A2|]. split; [exact Et|]. split; [reflexivity|].
  split; [reflexivity|].
  apply map2_chk_Some in Ed. destruct Ed as [Ld ->].
  unfold zeros_like in *. rewrite repeat_length in Ld.
  apply weighted_erosion_from_zero. symmetry. exact Ld.
Qed.

End IntegrateFirstEvent.

(** One pair on the small world. *)
Lemma event_shear_stress_first_event_witness :
  exists w1 w2 a1 q1 d,
    gdp_run_with_adaptive_time_step_solver
      (Collaborators:=Toy.collab Toy.never) (RScalar (1 # 1000000)) 100
      (world_before_loop (H:=Toy.collab Toy.never) (world Toy.init))
    = Some w1
    /\ fa_accumulate_flow (Collaborators:=Toy.collab Toy.never) false w1
       = Some (w2, (a1, q1))
    /\ dzdt (snd (run_op (H:=Toy.collab Toy.never) Toy.prm
                    EventShearStress_run_step
                    [mk_storm 100 400 (1 # 1000000)] Toy.init))
       = Some d
    /\ Forall2 (fun x e => x == half * (0 + e) * 100 / 1000) d
         (calc_erosion_from_shear_stress
            (Collaborators:=Toy.collab Toy.never) w2
            (calc_shear_stress (Collaborators:=Toy.collab Toy.never)
               w2 a1 q1)).
Proof.
  apply (event_shear_stress_first_event (H:=Toy.collab Toy.never) Toy.prm
           (mk_storm 100 400 (1 # 1000000)) Toy.init).
  vm_compute. reflexivity.
Defined.

Lemma integrate_shear_stress_first_event_witness :
  exists w1 w2 a1 q1 w3 w4 a2 q2 taueff d,
    gdp_run_with_adaptive_time_step_solver
      (Collaborators:=Toy.collab Toy.never) (RScalar (1 # 1000000)) 100
      (world_before_loop (H:=Toy.collab Toy.never) (world Toy.init))
    = Some w1
    /\ fa_accumulate_flow (Collaborators:=Toy.collab Toy.never) false w1
       = Some (w2, (a1, q1))
    /\ gdp_run_with_adaptive_time_step_solver
         (Collaborators:=Toy.collab Toy.never) (RScalar 0)
         (Qmax 400 eps) w2
       = Some w3
    /\ fa_accumulate_flow (Collaborators:=Toy.collab Toy.never) false w3
       = Some (w4, (a2, q2))
    /\ calc_storm_eff_shear_stress (tau Toy.init)
         (calc_shear_stress (Collaborators:=Toy.collab Toy.never) w2 a1 q1)
         (calc_shear_stress (Collaborators:=Toy.collab Toy.never) w4 a2 q2)
         0 100 400
       = Some taueff
    /\ tau (snd (run_op (H:=Toy.collab Toy.never) Toy.prm
                   IntegrateShearStress_run_step
                   [mk_storm 100 400 (1 # 1000000)] Toy.init))
       = taueff
    /\ dzdt (snd (run_op (H:=Toy.collab Toy.never) Toy.prm
                    IntegrateShearStress_run_step
                    [mk_storm 100 400 (1 # 1000000)] Toy.init))
       = Some d
    /\ Forall2 (fun x e => x == (100 + 400) / 1000 * e) d
         (calc_erosion_from_shear_stress
            (Collaborators:=Toy.collab Toy.never) w4 taueff).
Proof.
  apply (integrate_shear_stress_first_event (H:=Toy.collab Toy.never)
           Toy.prm (mk_storm 100 400 (1 # 1000000)) Toy.init).
  vm_compute. reflexivity.
Defined.
